(** * Smart PDF Redactor: match resolution, redaction merging, entity masking

    A shallow embedding of the algorithmic core of [redaaction.py]:
    - [UltraPrecisionRedactor.get_word_level_boundaries],
      [get_character_level_boundaries], [find_ultra_precise_matches] and
      [apply_ultra_precise_redaction];
    - [PIIDetector.detect_entities], [is_available] and [mask_entities].

    Modelling conventions.
    - A Python [str] is a [list ascii]; [str.lower], [str.find], [in],
      [str.split], [str.join] and [str.strip] are given for ASCII text.
    - A Python [float] coordinate is an exact rational [Q]: the development
      idealises rounding away.  An interpolated character cell is
      related to the code by its formula; no statement asserts that such
      cells are adjacent or lie inside the word's box, which holds of the
      code up to rounding only.
    - [fitz.Rect] (PyMuPDF) is a record of four coordinates; its constructor
      stores the coordinates as given (it does not normalise them).
    - A [try ... except] whose body cannot raise on well-typed input is
      modelled by its body. *)

From Stdlib Require Import Ascii String List Bool Arith ZArith QArith Qminmax.
From Stdlib Require Import Lia Lqa Permutation.
Import ListNotations.

(** ** Python strings *)

Module PyStr.

Definition str := list ascii.

Definition of_string (s : string) : str := list_ascii_of_string s.

Definition eqb (a b : str) : bool :=
  if list_eq_dec ascii_dec a b then true else false.

Definition is_upper (c : ascii) : bool :=
  let n := nat_of_ascii c in (65 <=? n) && (n <=? 90).

Definition is_lower (c : ascii) : bool :=
  let n := nat_of_ascii c in (97 <=? n) && (n <=? 122).

Definition lower_char (c : ascii) : ascii :=
  if is_upper c then ascii_of_nat (nat_of_ascii c + 32) else c.

Definition upper_char (c : ascii) : ascii :=
  if is_lower c then ascii_of_nat (nat_of_ascii c - 32) else c.

(** [s.lower()] *)
Definition lower (s : str) : str := map lower_char s.

(** [s.startswith(p)] *)
Fixpoint startswith (p s : str) : bool :=
  match p, s with
  | [], _ => true
  | _ :: _, [] => false
  | a :: p', b :: s' => if ascii_dec a b then startswith p' s' else false
  end.

(** [sub in s] *)
Fixpoint contains (sub s : str) : bool :=
  startswith sub s ||
  match s with
  | [] => false
  | _ :: s' => contains sub s'
  end.

Fixpoint find_from (sub s : str) (i : Z) : Z :=
  if startswith sub s then i
  else match s with
       | [] => (-1)%Z
       | _ :: s' => find_from sub s' (i + 1)%Z
       end.

(** [s.find(sub)]: lowest index of [sub] in [s], or [-1]. *)
Definition find (sub s : str) : Z := find_from sub s 0%Z.

(** Characters for which [str.isspace] holds, in the ASCII range:
    TAB, LF, VT, FF, CR, FS, GS, RS, US and SPACE. *)
Definition is_space (c : ascii) : bool :=
  let n := nat_of_ascii c in
  ((9 <=? n) && (n <=? 13)) || ((28 <=? n) && (n <=? 32)).

Definition flush (cur : str) (k : list str) : list str :=
  match cur with
  | [] => k
  | _ :: _ => rev cur :: k
  end.

Fixpoint split_acc (s cur : str) : list str :=
  match s with
  | [] => flush cur []
  | c :: s' =>
      if is_space c then flush cur (split_acc s' [])
      else split_acc s' (c :: cur)
  end.

(** [s.split()]: maximal runs of non-whitespace characters. *)
Definition split (s : str) : list str := split_acc s [].

(** [sep.join(parts)] *)
Fixpoint join (sep : str) (parts : list str) : str :=
  match parts with
  | [] => []
  | [p] => p
  | p :: rest => p ++ sep ++ join sep rest
  end.

Fixpoint lstrip (s : str) : str :=
  match s with
  | [] => []
  | c :: s' => if is_space c then lstrip s' else s
  end.

(** [s.strip()] *)
Definition strip (s : str) : str := rev (lstrip (rev (lstrip s))).

(** [c * n] for a one-character string [c] *)
Definition repeat_char (c : ascii) (n : nat) : str := repeat c n.

End PyStr.

Import PyStr.

(** ** Words and rectangles *)

(** One entry of [page.get_text("words")]:
    [(x0, y0, x1, y1, word_text, block_no, line_no, word_no)]. *)
Record Word := mkWord {
  word_x0 : Q;
  word_y0 : Q;
  word_x1 : Q;
  word_y1 : Q;
  word_text : str;
  block_no : Z;
  line_no : Z;
  word_no : Z
}.

(** [fitz.Rect(x0, y0, x1, y1)] *)
Record Rect := mkRect {
  x0 : Q;
  y0 : Q;
  x1 : Q;
  y1 : Q
}.

(** The bounding box of a word, [fitz.Rect(x0, y0, x1, y1)]. *)
Definition word_rect (w : Word) : Rect :=
  mkRect (word_x0 w) (word_y0 w) (word_x1 w) (word_y1 w).

(** [len(s)] as a float operand *)
Definition len_Q (s : str) : Q := inject_Z (Z.of_nat (length s)).

(** [word_width / len(word_text) if len(word_text) > 0 else word_width] *)
Definition char_width (w : Word) : Q :=
  let word_width := word_x1 w - word_x0 w in
  if (0 <? length (word_text w))%nat
  then word_width / len_Q (word_text w)
  else word_width.

(** ** MatchResolver: [get_word_level_boundaries] *)

Module WordLevel.

(** Method 1, the loop body: exact word match. *)
Definition exact_step (target_lower : str) (precise_rects : list Rect)
           (word_data : Word) : list Rect :=
  if eqb (lower (word_text word_data)) target_lower
  then precise_rects ++ [word_rect word_data]
  else precise_rects.

Definition exact_word_match (words : list Word) (target_lower : str)
  : list Rect :=
  fold_left (exact_step target_lower) words [].

(** Method 2, the rectangle of a partial match inside one word. *)
Definition partial_rect (w : Word) (start_pos : Z) (target_text : str)
  : Rect :=
  let start_x := word_x0 w + inject_Z start_pos * char_width w in
  let end_x := start_x + len_Q target_text * char_width w in
  mkRect start_x (word_y0 w) end_x (word_y1 w).

Definition partial_step (target_text target_lower : str)
           (precise_rects : list Rect) (word_data : Word) : list Rect :=
  if contains target_lower (lower (word_text word_data)) then
    let word_lower := lower (word_text word_data) in
    let start_pos := find target_lower word_lower in
    if (0 <=? start_pos)%Z
    then precise_rects ++ [partial_rect word_data start_pos target_text]
    else precise_rects
  else precise_rects.

Definition partial_match (words : list Word) (target_text target_lower : str)
  : list Rect :=
  fold_left (partial_step target_text target_lower) words [].

(** Method 3, the inner loop building [word_sequence] for window [i]. *)
Definition word_sequence (words : list Word) (i n : nat) : list str :=
  fold_left
    (fun seq_ j =>
       match nth_error words (i + j) with
       | Some w => seq_ ++ [lower (word_text w)]
       | None => seq_
       end)
    (seq 0 n) [].

Definition combined_rect (first_word last_word : Word) : Rect :=
  mkRect (word_x0 first_word)
         (Qmin (word_y0 first_word) (word_y0 last_word))
         (word_x1 last_word)
         (Qmax (word_y1 first_word) (word_y1 last_word)).

(** Method 3, the outer loop over the window starts [idx].  An index
    error would leave the loop with the rectangles collected so far
    (the enclosing [except] clause). *)
Fixpoint multi_word_loop (words : list Word) (target_lower : str)
         (n : nat) (idx : list nat) (precise_rects : list Rect)
  : list Rect :=
  match idx with
  | [] => precise_rects
  | i :: idx' =>
      if eqb (join (of_string " ") (word_sequence words i n)) target_lower
      then
        match nth_error words i, nth_error words (i + n - 1) with
        | Some first_word, Some last_word =>
            multi_word_loop words target_lower n idx'
              (precise_rects ++ [combined_rect first_word last_word])
        | _, _ => precise_rects
        end
      else multi_word_loop words target_lower n idx' precise_rects
  end.

(** [range(len(words) - len(text_parts) + 1)] *)
Definition window_starts (words : list Word) (n : nat) : list nat :=
  seq 0 (Z.to_nat (Z.of_nat (length words) - Z.of_nat n + 1)).

Definition multi_word_match (words : list Word) (target_text target_lower : str)
  : list Rect :=
  let text_parts := split target_text in
  if (1 <? length text_parts)%nat
  then multi_word_loop words target_lower (length text_parts)
         (window_starts words (length text_parts)) []
  else [].

Definition get_word_level_boundaries (words : list Word) (target_text : str)
  : list Rect :=
  let target_lower := lower target_text in
  match exact_word_match words target_lower with
  | (_ :: _) as precise_rects => precise_rects
  | [] =>
      match partial_match words target_text target_lower with
      | (_ :: _) as precise_rects => precise_rects
      | [] => multi_word_match words target_text target_lower
      end
  end.

End WordLevel.

(** ** MatchResolver: [get_character_level_boundaries] *)

Module CharLevel.

Definition char_rect (w : Word) (i : nat) : Rect :=
  let char_x0 := word_x0 w + inject_Z (Z.of_nat i) * char_width w in
  let char_x1 := char_x0 + char_width w in
  mkRect char_x0 (word_y0 w) char_x1 (word_y1 w).

(** The inner loop [for i, char in enumerate(word_text)], started at
    index [i] on the remaining characters [chars]. *)
Fixpoint scan_word (w : Word) (target_lower : str) (chars : str) (i : nat)
         (precise_rects : list Rect) : list Rect :=
  match chars with
  | [] => precise_rects
  | char :: chars' =>
      scan_word w target_lower chars' (S i)
        (if eqb (lower [char]) target_lower
         then precise_rects ++ [char_rect w i]
         else precise_rects)
  end.

(** The arguments [match_start] and [match_end] are accepted and never
    read, as in the source. *)
Definition get_character_level_boundaries (words : list Word)
           (target_char : str) (match_start match_end : Z) : list Rect :=
  let target_lower := lower target_char in
  fold_left
    (fun precise_rects w =>
       scan_word w target_lower (word_text w) 0 precise_rects)
    words [].

End CharLevel.

(** ** MatchResolver: [find_ultra_precise_matches] *)

(** The page data the resolver reads: [page.get_text("words")] and
    [page.get_text()]. *)
Record Page := mkPage {
  page_words : list Word;
  page_text : str
}.

(** What the resolver reads of an [re.Match]: [start()], [end()], [group()]. *)
Record RegexMatch := mkRegexMatch {
  m_start : Z;
  m_end : Z;
  m_group : str
}.

(** [{'rect': rect, 'text': matched_text}] *)
Record Match := mkMatch {
  rect : Rect;
  text : str
}.

(** Flag values of Python's [re] module. *)
Module ReFlag.
Definition IGNORECASE : Z := 2.
Definition MULTILINE : Z := 8.
End ReFlag.

Module Resolver.

(** The dispatch on the length of the stripped match text. *)
Definition resolve (words : list Word) (regex_match : RegexMatch)
  : list Match :=
  let matched_text := strip (m_group regex_match) in
  match matched_text with
  | [] => []
  | _ :: _ =>
      if (length matched_text =? 1)%nat then
        map (fun rect => mkMatch rect matched_text)
          (CharLevel.get_character_level_boundaries words matched_text
             (m_start regex_match) (m_end regex_match))
      else
        map (fun rect => mkMatch rect matched_text)
          (WordLevel.get_word_level_boundaries words matched_text)
  end.

Section WithEngine.

(** The regular-expression engine is a collaborator:
    [finditer pattern text flags] is [re.finditer], [None] when the
    pattern does not compile ([re.error]). *)
Variable pattern : Type.
Variable finditer : pattern -> str -> Z -> option (list RegexMatch).

Definition find_ultra_precise_matches (page : Page)
           (regex_pattern : pattern) : list Match :=
  let words := page_words page in
  let full_text := page_text page in
  match finditer regex_pattern full_text
          (Z.lor ReFlag.MULTILINE ReFlag.IGNORECASE) with
  | None => []
  | Some found =>
      fold_left (fun matches regex_match =>
                   matches ++ resolve words regex_match)
                found []
  end.

End WithEngine.

End Resolver.

(** ** A fragment of Python's [re]

    Literals, character sets given as ranges, concatenation, counted
    repetition [r{n}] and inline flag groups [(?i:...)], [(?-i:...)],
    matched as [re] matches them.  Under [IGNORECASE] a character matches
    a literal or a set when one of its case variants does; a flag group
    sets or clears [IGNORECASE] for the pattern inside it. *)

Module PyRe.

Inductive regex : Type :=
| Lit (c : ascii)
| CharSet (ranges : list (ascii * ascii))
| Cat (r1 r2 : regex)
| Times (r : regex) (n : nat)
| Scoped (add remove : Z) (r : regex).

(** The [IGNORECASE] setting inside a group [(?add-remove:...)]. *)
Definition scoped_ignorecase (ignorecase : bool) (add remove : Z) : bool :=
  (ignorecase || negb (Z.land add ReFlag.IGNORECASE =? 0)%Z)
  && (Z.land remove ReFlag.IGNORECASE =? 0)%Z.

(** No inline flag group occurs in the pattern. *)
Fixpoint flag_free (r : regex) : bool :=
  match r with
  | Lit _ | CharSet _ => true
  | Cat r1 r2 => flag_free r1 && flag_free r2
  | Times r' _ => flag_free r'
  | Scoped _ _ _ => false
  end.

Definition in_range (c : ascii) (range : ascii * ascii) : bool :=
  (nat_of_ascii (fst range) <=? nat_of_ascii c)%nat
  && (nat_of_ascii c <=? nat_of_ascii (snd range))%nat.

Definition in_set (ignorecase : bool) (ranges : list (ascii * ascii))
           (c : ascii) : bool :=
  existsb (in_range c) ranges
  || (ignorecase
      && (existsb (in_range (lower_char c)) ranges
          || existsb (in_range (upper_char c)) ranges)).

Definition lit_eq (ignorecase : bool) (c d : ascii) : bool :=
  Ascii.eqb c d || (ignorecase && Ascii.eqb (lower_char c) (lower_char d)).

(** [match_here ic r s] is the rest of [s] after a match of [r] at its
    start. *)
Fixpoint match_here (ignorecase : bool) (r : regex) (s : str)
  : option str :=
  match r with
  | Lit c =>
      match s with
      | d :: s' => if lit_eq ignorecase c d then Some s' else None
      | [] => None
      end
  | CharSet ranges =>
      match s with
      | d :: s' => if in_set ignorecase ranges d then Some s' else None
      | [] => None
      end
  | Cat r1 r2 =>
      match match_here ignorecase r1 s with
      | Some s' => match_here ignorecase r2 s'
      | None => None
      end
  | Times r' n =>
      (fix times (k : nat) (s0 : str) : option str :=
         match k with
         | O => Some s0
         | S k' =>
             match match_here ignorecase r' s0 with
             | Some s' => times k' s'
             | None => None
             end
         end) n s
  | Scoped add remove r' =>
      match_here (scoped_ignorecase ignorecase add remove) r' s
  end.

(** Left-to-right scan for non-overlapping matches; [skip] characters
    belong to the previous match. *)
Fixpoint scan (ignorecase : bool) (r : regex) (s : str) (pos : Z)
         (skip : nat) : list RegexMatch :=
  match s with
  | [] =>
      match skip, match_here ignorecase r [] with
      | O, Some _ => [mkRegexMatch pos pos []]
      | _, _ => []
      end
  | _ :: s' =>
      match skip with
      | S k => scan ignorecase r s' (pos + 1)%Z k
      | O =>
          match match_here ignorecase r s with
          | Some rest =>
              let n := (length s - length rest)%nat in
              mkRegexMatch pos (pos + Z.of_nat n)%Z (firstn n s)
                :: scan ignorecase r s' (pos + 1)%Z (n - 1)
          | None => scan ignorecase r s' (pos + 1)%Z 0
          end
      end
  end.

(** The pattern that matches the characters of [s] one after the other
    (the empty pattern for the empty string). *)
Fixpoint literal (s : str) : regex :=
  match s with
  | [] => Times (Lit "000"%char) 0
  | [c] => Lit c
  | c :: s' => Cat (Lit c) (literal s')
  end.

(** [re.finditer(pattern, text, flags)]; every pattern of the fragment
    compiles. *)
Definition finditer (r : regex) (s : str) (flags : Z)
  : option (list RegexMatch) :=
  Some (scan (negb (Z.land flags ReFlag.IGNORECASE =? 0)%Z) r s 0%Z 0).

End PyRe.

(** ** [fitz.Rect] operations used by the merger

    The PDF backend (PyMuPDF) is a collaborator; its rectangle operations
    are given here for finite page rectangles, as its documentation
    states them.  The backend's infinite-rectangle sentinel is not a page
    rectangle and is outside the model. *)

Module Fitz.

Definition Qlt_bool (a b : Q) : bool := negb (Qle_bool b a).

(** [Rect.width]: [max(0, x1 - x0)] *)
Definition width (r : Rect) : Q := Qmax 0 (x1 r - x0 r).

(** [Rect.height]: [max(0, y1 - y0)] *)
Definition height (r : Rect) : Q := Qmax 0 (y1 r - y0 r).

(** [Rect.is_empty]: [x0 >= x1 or y0 >= y1] *)
Definition is_empty (r : Rect) : bool :=
  Qle_bool (x1 r) (x0 r) || Qle_bool (y1 r) (y0 r).

(** Coordinate-wise intersection and union of two rectangles. *)
Definition util_intersect_rect (a b : Rect) : Rect :=
  mkRect (if Qlt_bool (x0 a) (x0 b) then x0 b else x0 a)
         (if Qlt_bool (y0 a) (y0 b) then y0 b else y0 a)
         (if Qlt_bool (x1 b) (x1 a) then x1 b else x1 a)
         (if Qlt_bool (y1 b) (y1 a) then y1 b else y1 a).

Definition util_union_rect (a b : Rect) : Rect :=
  mkRect (if Qlt_bool (x0 b) (x0 a) then x0 b else x0 a)
         (if Qlt_bool (y0 b) (y0 a) then y0 b else y0 a)
         (if Qlt_bool (x1 a) (x1 b) then x1 b else x1 a)
         (if Qlt_bool (y1 a) (y1 b) then y1 b else y1 a).

(** [self.intersect(r)]: the new value of [self]. *)
Definition intersect (self r : Rect) : Rect :=
  if is_empty r then r
  else if is_empty self then self
  else util_intersect_rect self r.

(** [self.intersects(x)]: the two rectangles share a non-empty area;
    always [False] when either is empty. *)
Definition intersects (self x : Rect) : bool :=
  if is_empty self || is_empty x then false
  else negb (is_empty (intersect self x)).

(** [self.include_rect(r)]: the new value of [self], the smallest
    rectangle containing both; unchanged when [r] is empty. *)
Definition include_rect (self r : Rect) : Rect :=
  if is_empty r then self
  else if is_empty self then r
  else util_union_rect self r.

End Fitz.

(** ** RedactionMerger: [apply_ultra_precise_redaction]

    The rectangles of distinct matches are distinct objects, as
    [find_ultra_precise_matches] builds them, so the in-place updates of
    the source (padding, [include_rect]) are modelled on values: a merged
    region is updated where it stands in the list of merged regions. *)

Module Merger.

Import Fitz.

Definition padding : Q := 2.

(** The four in-place updates [x0 -= padding], [x1 += padding],
    [y0 -= padding], [y1 += padding]. *)
Definition pad (r : Rect) : Rect :=
  mkRect (x0 r - padding) (y0 r - padding) (x1 r + padding) (y1 r + padding).

(** [precise_rect.width > 0.1 and precise_rect.height > 0.1] *)
Definition passes_threshold (r : Rect) : bool :=
  Qlt_bool (1 # 10) (width r) && Qlt_bool (1 # 10) (height r).

(** The collecting loop: the state is [(redactions, redaction_count)]. *)
Definition collect_step (st : list Rect * nat) (m : Match)
  : list Rect * nat :=
  let precise_rect := rect m in
  if passes_threshold precise_rect
  then (fst st ++ [pad precise_rect], S (snd st))
  else st.

Definition collect (matches : list Match) : list Rect * nat :=
  fold_left collect_step matches ([], O).

(** The sort key [(r.y0, r.x0)], compared as Python compares tuples. *)
Definition key_lt (a b : Rect) : bool :=
  Qlt_bool (y0 a) (y0 b) || (Qeq_bool (y0 a) (y0 b) && Qlt_bool (x0 a) (x0 b)).

(** [sorted(redactions, key=...)] is stable: an element goes before the
    later elements whose key is not smaller. *)
Fixpoint insert_sorted (r : Rect) (l : list Rect) : list Rect :=
  match l with
  | [] => [r]
  | h :: t => if key_lt h r then h :: insert_sorted r t else r :: h :: t
  end.

Fixpoint sorted (l : list Rect) : list Rect :=
  match l with
  | [] => []
  | r :: t => insert_sorted r (sorted t)
  end.

(** The inner loop: the first merged region that intersects [rect]
    absorbs it ([None] when no region does, i.e. [merged] stays
    [False]). *)
Fixpoint absorb (merged_redactions : list Rect) (rect : Rect)
  : option (list Rect) :=
  match merged_redactions with
  | [] => None
  | merged_rect :: rest =>
      if intersects merged_rect rect
      then Some (include_rect merged_rect rect :: rest)
      else option_map (cons merged_rect) (absorb rest rect)
  end.

Definition merge_step (merged_redactions : list Rect) (rect : Rect)
  : list Rect :=
  match absorb merged_redactions rect with
  | Some merged_redactions' => merged_redactions'
  | None => merged_redactions ++ [rect]
  end.

Definition merge (redactions : list Rect) : list Rect :=
  fold_left merge_step (sorted redactions) [].

(** What a run does: the regions handed to [page.add_redact_annot] and
    the returned [redaction_count]. *)
Record Outcome := mkOutcome {
  applied_regions : list Rect;
  redaction_count : nat
}.

Definition apply_ultra_precise_redaction (matches : list Match) : Outcome :=
  let '(redactions, count) := collect matches in
  mkOutcome (merge redactions) count.

(** Geometry used to state coverage. *)
Definition inside (px py : Q) (r : Rect) : Prop :=
  x0 r <= px /\ px <= x1 r /\ y0 r <= py /\ py <= y1 r.

Definition contains_rect (outer inner : Rect) : Prop :=
  x0 outer <= x0 inner /\ y0 outer <= y0 inner /\
  x1 inner <= x1 outer /\ y1 inner <= y1 outer.

End Merger.

(** ** PIIDetector *)

Module PII.

(** [{"entity", "start", "end", "text", "score"}] *)
Record Entity := mkEntity {
  entity : str;
  ent_start : Z;
  ent_end : Z;
  ent_text : str;
  score : Q
}.

Inductive model_type := spacy | flair | transformers.

(** A loaded model is a black box from text to entities; [None] stands
    for an exception raised by the model. *)
Record Model := mkModel {
  run_model : str -> option (list Entity)
}.

Inductive Dialog :=
| showerror (title message : str)
| showwarning (title message : str).

(** The fields of a [PIIDetector] that detection reads.
    [is_available_override] is the instance attribute [is_available]
    that [__init__] installs when the dependencies are missing. *)
Record PIIDetector := mkPIIDetector {
  current_model : option Model;
  current_model_name : option str;
  threshold : Q;
  is_available_override : option bool
}.

(** [PIIDetector.__init__], given the global [DEPENDENCIES_LOADED]. *)
Definition init (DEPENDENCIES_LOADED : bool) : PIIDetector :=
  mkPIIDetector None None (35 # 100)
    (if DEPENDENCIES_LOADED then None else Some false).

Definition is_available (self : PIIDetector) (DEPENDENCIES_LOADED : bool)
  : bool :=
  match is_available_override self with
  | Some b => b
  | None => DEPENDENCIES_LOADED
  end.

(** The ["type"] column of [NLP_MODELS]. *)
Definition NLP_MODELS : list (str * model_type) :=
  [ (of_string "spaCy/en_core_web_lg", spacy);
    (of_string "flair/ner-english-large", flair);
    (of_string "HuggingFace/deid_roberta", transformers) ].

Fixpoint model_info (name : str) (table : list (str * model_type))
  : option model_type :=
  match table with
  | [] => None
  | (n, t) :: rest => if eqb n name then Some t else model_info name rest
  end.

Definition mem (s : str) (l : list str) : bool := existsb (eqb s) l.

Definition keep (self : PIIDetector) (selected_types : list str)
           (ent : Entity) : bool :=
  mem (entity ent) selected_types && Qle_bool (threshold self) (score ent).

(** [detect_entities]: the returned list and the dialogs raised. *)
Definition detect_entities (self : PIIDetector) (text : str)
           (selected_types : option (list str))
  : list Entity * list Dialog :=
  match current_model self with
  | None =>
      ([], [showerror (of_string "Error")
              (of_string "No model is loaded. Please select a model first.")])
  | Some model =>
      match strip text with
      | [] =>
          ([], [showwarning (of_string "Warning")
                  (of_string "Please enter some text to analyze.")])
      | _ :: _ =>
          match current_model_name self with
          | None => ([], [])
          | Some name =>
              match model_info name NLP_MODELS with
              | None =>
                  ([], [showerror (of_string "Error")
                          (of_string "Model info not found for " ++ name)])
              | Some ty =>
                  match run_model model text with
                  | None => ([], [])
                  | Some found =>
                      let entities :=
                        match ty with
                        | spacy =>
                            map (fun ent =>
                                   mkEntity (entity ent) (ent_start ent)
                                     (ent_end ent) (ent_text ent) (8 # 10))
                                found
                        | flair | transformers => found
                        end in
                      match selected_types with
                      | Some ((_ :: _) as types) =>
                          (filter (keep self types) entities, [])
                      | _ => (entities, [])
                      end
                  end
              end
          end
      end
  end.

(** *** [mask_entities] *)

(** [0 <= start < len(text) and 0 < end <= len(text) and start < end] *)
Definition valid_indices (text : str) (start end_ : Z) : bool :=
  let n := Z.of_nat (length text) in
  ((0 <=? start) && (start <? n) && (0 <? end_) && (end_ <=? n)
   && (start <? end_))%Z.

Definition mask_text (style : str) (entity_type entity_text : str) : str :=
  if eqb style (of_string "type_label") then
    of_string "<" ++ entity_type ++ of_string ">"
  else if eqb style (of_string "full_mask") then
    repeat_char "*"%char (length entity_text)
  else if eqb style (of_string "partial_mask") then
    if (4 <? length entity_text)%nat then
      firstn 1 entity_text
      ++ repeat_char "*"%char (length entity_text - 2)
      ++ skipn (length entity_text - 1) entity_text
    else repeat_char "*"%char (length entity_text)
  else of_string "****".

(** [text[start:end]] for [0 <= start <= end] *)
Definition slice (text : str) (start end_ : Z) : str :=
  firstn (Z.to_nat end_ - Z.to_nat start) (skipn (Z.to_nat start) text).

Definition Mask : Type := Z * Z * str.

Definition mask_start (m : Mask) : Z := fst (fst m).
Definition mask_end (m : Mask) : Z := snd (fst m).
Definition mask_str (m : Mask) : str := snd m.

(** The loop building [masks]; an entity with invalid indices is
    skipped. *)
Definition masks_step (text style : str) (masks : list Mask) (ent : Entity)
  : list Mask :=
  let start := ent_start ent in
  let end_ := ent_end ent in
  if valid_indices text start end_
  then masks ++ [(start, end_,
                  mask_text style (entity ent) (slice text start end_))]
  else masks.

Definition build_masks (text style : str) (entities : list Entity)
  : list Mask :=
  fold_left (masks_step text style) entities [].

(** [masks.sort(key=lambda x: x[0], reverse=True)], a stable sort by
    decreasing start. *)
Fixpoint insert_desc (m : Mask) (l : list Mask) : list Mask :=
  match l with
  | [] => [m]
  | h :: t =>
      if (mask_start m <? mask_start h)%Z
      then h :: insert_desc m t
      else m :: h :: t
  end.

Fixpoint sort_desc (l : list Mask) : list Mask :=
  match l with
  | [] => []
  | m :: t => insert_desc m (sort_desc t)
  end.

(** [masked_text[:start] + mask_text + masked_text[end:]] *)
Definition apply_mask (masked_text : str) (m : Mask) : str :=
  firstn (Z.to_nat (mask_start m)) masked_text
  ++ mask_str m
  ++ skipn (Z.to_nat (mask_end m)) masked_text.

Definition apply_masks (masks : list Mask) (text : str) : str :=
  fold_left apply_mask masks text.

Definition mask_entities (text : str) (entities : list Entity) (style : str)
  : str :=
  match entities with
  | [] => text
  | _ :: _ =>
      match build_masks text style entities with
      | [] => text
      | (_ :: _) as masks => apply_masks (sort_desc masks) text
      end
  end.

End PII.

(** ** Vocabulary of the statements *)

Module Spec.

(** The word's text equals the matched string, case-insensitively. *)
Definition same_text (target_text : str) (w : Word) : bool :=
  eqb (lower (word_text w)) (lower target_text).

Definition equal_words (words : list Word) (target_text : str) : list Word :=
  filter (same_text target_text) words.

(** The window of [n] consecutive words starting at word [i]. *)
Definition window (words : list Word) (i n : nat) : list Word :=
  firstn n (skipn i words).

Definition window_text (ws : list Word) : str :=
  join (of_string " ") (map (fun w => lower (word_text w)) ws).

Definition window_matches (words : list Word) (target_text : str)
           (n i : nat) : bool :=
  eqb (window_text (window words i n)) (lower target_text).

(** Left edge of the first word, right edge of the last word, minimum
    of their top edges, maximum of their bottom edges. *)
Definition window_rect (ws : list Word) : list Rect :=
  match ws with
  | [] => []
  | first_word :: _ =>
      let last_word := last ws first_word in
      [mkRect (word_x0 first_word)
              (Qmin (word_y0 first_word) (word_y0 last_word))
              (word_x1 last_word)
              (Qmax (word_y1 first_word) (word_y1 last_word))]
  end.

(** Window starts [0 .. len(words) - n], none when [len(words) < n]. *)
Definition all_starts (words : list Word) (n : nat) : list nat :=
  seq 0 (length words + 1 - n).

(** Indices of the characters of [w] equal to the target,
    case-insensitively. *)
Definition occurrences (target_char : str) (w : Word) : list nat :=
  filter (fun i => eqb (lower (firstn 1 (skipn i (word_text w))))
                       (lower target_char))
         (seq 0 (length (word_text w))).

(** The rectangle of character [i] of [w] under uniform character
    width. *)
Definition nth_char_rect (w : Word) (i : nat) : Rect :=
  let cw := (word_x1 w - word_x0 w) / len_Q (word_text w) in
  mkRect (word_x0 w + inject_Z (Z.of_nat i) * cw) (word_y0 w)
         (word_x0 w + inject_Z (Z.of_nat i) * cw + cw) (word_y1 w).

Definition rect_ok (r : Rect) : Prop := x0 r <= x1 r /\ y0 r <= y1 r.

Definition word_ok (w : Word) : Prop :=
  word_x0 w <= word_x1 w /\ word_y0 w <= word_y1 w.

End Spec.

Import Fitz Merger PII.

(** Coverage, masks and spans. *)

(** [covers regions r]: one of the regions contains [r]. *)
Definition covers (regions : list Rect) (r : Rect) : Prop :=
  exists g, In g regions /\ contains_rect g r.

(** Masks listed from right to left without overlap: each one ends at or
    before the bound, and the bound for the rest is its start. *)
Fixpoint desc_chain (bound : Z) (masks : list Mask) : Prop :=
  match masks with
  | [] => True
  | m :: rest =>
      (0 <= mask_start m < mask_end m)%Z /\ (mask_end m <= bound)%Z
      /\ desc_chain (mask_start m) rest
  end.

(** Net change of length caused by one mask, and by all the masks ending
    at or before position [i]. *)
Definition grow (m : Mask) : Z :=
  (Z.of_nat (length (mask_str m)) - (mask_end m - mask_start m))%Z.

Fixpoint shift_masks (masks : list Mask) (i : Z) : Z :=
  match masks with
  | [] => 0%Z
  | m :: rest =>
      ((if (mask_end m <=? i)%Z then grow m else 0) + shift_masks rest i)%Z
  end.

Definition total_grow (masks : list Mask) : Z :=
  fold_right (fun m acc => (grow m + acc)%Z) 0%Z masks.

(** A mask made of as many stars as the span has characters. *)
Definition star_mask (m : Mask) : Prop :=
  mask_str m = repeat_char "*"%char (Z.to_nat (mask_end m - mask_start m)).

Fixpoint sorted_desc (l : list Mask) : Prop :=
  match l with
  | [] => True
  | m :: rest =>
      Forall (fun m' => (mask_start m' <= mask_start m)%Z) rest
      /\ sorted_desc rest
  end.

Fixpoint pairwise {A : Type} (R : A -> A -> Prop) (l : list A) : Prop :=
  match l with
  | [] => True
  | a :: rest => Forall (R a) rest /\ pairwise R rest
  end.

Definition mask_disjoint (a b : Mask) : Prop :=
  (mask_end a <= mask_start b \/ mask_end b <= mask_start a)%Z.

Definition mask_ok (n : Z) (m : Mask) : Prop :=
  (0 <= mask_start m < mask_end m)%Z /\ (mask_end m <= n)%Z.

(** The entity's indices pass the validation of [mask_entities]. *)
Definition span_ok (text : str) (e : Entity) : Prop :=
  valid_indices text (ent_start e) (ent_end e) = true.

(** Two spans [[start, end)] share no index. *)
Definition disjoint (a b : Entity) : Prop :=
  (ent_end a <= ent_start b \/ ent_end b <= ent_start a)%Z.

Definition in_span (i : nat) (e : Entity) : Prop :=
  (ent_start e <= Z.of_nat i < ent_end e)%Z.

Definition outside_spans (i : nat) (entities : list Entity) : Prop :=
  forall e, In e entities -> ~ in_span i e.

(** Net change of length caused by the entities whose span ends at or
    before position [i]: mask length minus span length, summed. *)
Fixpoint net_shift (text style : str) (entities : list Entity) (i : nat) : Z :=
  match entities with
  | [] => 0%Z
  | e :: rest =>
      ((if (ent_end e <=? Z.of_nat i)%Z
        then Z.of_nat (length (mask_text style (entity e)
                                 (slice text (ent_start e) (ent_end e))))
             - (ent_end e - ent_start e)
        else 0)
       + net_shift text style rest i)%Z
  end.

Definition mask_of (text style : str) (e : Entity) : Mask :=
  (ent_start e, ent_end e,
   mask_text style (entity e) (slice text (ent_start e) (ent_end e))).

Definition no_model_dialog : Dialog :=
  showerror (of_string "Error")
            (of_string "No model is loaded. Please select a model first.").

(** Letter case of a page: the page with every word text and the page
    text lowercased, boxes unchanged. *)
Definition lower_word (w : Word) : Word :=
  mkWord (word_x0 w) (word_y0 w) (word_x1 w) (word_y1 w)
         (lower (word_text w)) (block_no w) (line_no w) (word_no w).

Definition lower_page (p : Page) : Page :=
  mkPage (map lower_word (page_words p)) (lower (page_text p)).

Definition lower_match (m : RegexMatch) : RegexMatch :=
  mkRegexMatch (m_start m) (m_end m) (lower (m_group m)).

Definition lower_result (m : Match) : Match :=
  mkMatch (rect m) (lower (text m)).

(** The engine matches pattern [p] without regard to letter case at the
    flags the resolver passes: on the lowercased text it reports the same
    spans, with the lowercased groups. *)
Definition case_blind {pattern : Type}
           (finditer : pattern -> str -> Z -> option (list RegexMatch))
           (p : pattern) : Prop :=
  forall t,
    finditer p (lower t) (Z.lor ReFlag.MULTILINE ReFlag.IGNORECASE)
    = option_map (map lower_match)
        (finditer p t (Z.lor ReFlag.MULTILINE ReFlag.IGNORECASE)).

(** ** Example pages and inputs *)

Definition date_words : list Word :=
  [ mkWord 10 10 60 22 (of_string "2024-01-01") 0 0 0;
    mkWord 70 10 95 22 (of_string "paid") 0 0 1;
    mkWord 10 30 60 42 (of_string "2024-01-01") 0 1 0;
    mkWord 10 50 60 62 (of_string "2024-01-01") 0 2 0 ].

Definition jane_doe_twice : list Word :=
  [ mkWord 10 10 40 22 (of_string "Jane") 0 0 0;
    mkWord 45 10 70 22 (of_string "Doe") 0 0 1;
    mkWord 10 30 40 42 (of_string "Jane") 0 1 0;
    mkWord 45 30 70 42 (of_string "Doe") 0 1 1 ].

Definition banana_words : list Word :=
  [ mkWord 0 0 6 10 (of_string "BanAna") 0 0 0;
    mkWord 8 0 10 10 (of_string "is") 0 0 1;
    mkWord 12 0 13 10 (of_string "a") 0 0 2 ].

Definition email_words : list Word :=
  [ mkWord 0 0 16 12 (of_string "user@example.com") 0 0 0 ].

(** "Jane Doe met Jane" on one line, "Doe" at the start of the next. *)
Definition line_break_page : Page :=
  mkPage
    [ mkWord 10 10 40 22 (of_string "Jane") 0 0 0;
      mkWord 45 10 70 22 (of_string "Doe") 0 0 1;
      mkWord 75 10 95 22 (of_string "met") 0 0 2;
      mkWord 500 10 540 22 (of_string "Jane") 0 0 3;
      mkWord 10 24 35 36 (of_string "Doe") 0 1 0 ]
    (of_string "Jane Doe met Jane" ++ ["010"%char] ++ of_string "Doe").

Definition three_matches : list Match :=
  [ mkMatch (mkRect 10 10 60 22) (of_string "a");
    mkMatch (mkRect 58 12 90 24) (of_string "b");
    mkMatch (mkRect 10 100 60 112) (of_string "c") ].

Definition two_overlapping_matches : list Match :=
  [ mkMatch (mkRect 10 10 60 22) (of_string "2024-01-01");
    mkMatch (mkRect 40 10 90 22) (of_string "01-01 paid") ].

Definition upper5 : PyRe.regex :=
  PyRe.Times (PyRe.CharSet [("A"%char, "Z"%char)]) 5.

Definition hello_page : Page :=
  mkPage [mkWord 10 10 40 22 (of_string "hello") 0 0 0] (of_string "hello").

Definition shout_page : Page :=
  mkPage [mkWord 10 10 40 22 (of_string "HELLO") 0 0 0] (of_string "HELLO").

(** [(?-i:[A-Z]{5})] *)
Definition upper5_case_sensitive : PyRe.regex :=
  PyRe.Scoped 0 ReFlag.IGNORECASE upper5.

(** A detector with a loaded model that finds nothing. *)
Definition finds_nothing : PIIDetector :=
  mkPIIDetector (Some (mkModel (fun _ => Some [])))
                (Some (of_string "spaCy/en_core_web_lg"))
                (35 # 100) None.

Definition call_text : str := of_string "Hello John Smith, call Bob".

Definition call_entities : list Entity :=
  [ mkEntity (of_string "PERSON") 23 26 (of_string "Bob") (9 # 10);
    mkEntity (of_string "PERSON") 6 16 (of_string "John Smith") (8 # 10) ].

(** ** Further example pages and inputs *)

(** The date token three times on a page, as words and in the text. *)
Definition date_page : Page :=
  mkPage date_words
         (of_string "2024-01-01 paid" ++ ["010"%char]
          ++ of_string "2024-01-01" ++ ["010"%char] ++ of_string "2024-01-01").

Definition thin_matches : list Match :=
  [ mkMatch (mkRect 500 10 35 36) (of_string "Jane Doe");
    mkMatch (mkRect 10 10 (101 # 10) 22) (of_string "i") ].

Definition separate_matches : list Match :=
  [ mkMatch (mkRect 10 100 60 112) (of_string "c");
    mkMatch (mkRect 10 10 60 22) (of_string "a");
    mkMatch (mkRect 100 10 160 22) (of_string "b") ].

(** The padded rectangles that enter the merge. *)
Definition padded_survivors (matches : list Match) : list Rect :=
  map pad (filter passes_threshold (map rect matches)).

(** Every edge of [g] is the corresponding edge of a rectangle of [l], and
    [g] contains a rectangle of [l]. *)
Definition edges_from (l : list Rect) (g : Rect) : Prop :=
  (exists a, In a l /\ x0 g = x0 a)
  /\ (exists b, In b l /\ y0 g = y0 b)
  /\ (exists c, In c l /\ x1 g = x1 c)
  /\ (exists d, In d l /\ y1 g = y1 d)
  /\ (exists e, In e l /\ contains_rect g e).

Definition apart (a b : Rect) : Prop :=
  intersects a b = false /\ intersects b a = false.

(** [self.pii_detector.threshold = value] (the threshold sliders). *)
Definition set_threshold (self : PIIDetector) (value : Q) : PIIDetector :=
  mkPIIDetector (current_model self) (current_model_name self) value
                (is_available_override self).

(** A loaded spaCy detector whose model reports two persons. *)
Definition spacy_two_persons : PIIDetector :=
  mkPIIDetector
    (Some (mkModel (fun _ =>
       Some [ mkEntity (of_string "PERSON") 0 4 (of_string "John") 1;
              mkEntity (of_string "PERSON") 9 12 (of_string "Bob") 1 ])))
    (Some (of_string "spaCy/en_core_web_lg"))
    (35 # 100) None.

(** A loaded flair detector with one confident and one doubtful entity. *)
Definition flair_mixed : PIIDetector :=
  mkPIIDetector
    (Some (mkModel (fun _ =>
       Some [ mkEntity (of_string "PER") 0 4 (of_string "John") (95 # 100);
              mkEntity (of_string "LOC") 9 12 (of_string "Rio") (20 # 100) ])))
    (Some (of_string "flair/ner-english-large"))
    (35 # 100) None.

(** Sum of the span lengths [end - start]. *)
Definition span_total (entities : list Entity) : Z :=
  fold_right (fun e acc => (ent_end e - ent_start e + acc)%Z) 0%Z entities.

(** A style that is none of the three styles [mask_entities] tests for. *)
Definition fallback_style (style : str) : Prop :=
  style <> of_string "type_label"
  /\ style <> of_string "full_mask"
  /\ style <> of_string "partial_mask".

(** A mask as long as the span it replaces. *)
Definition same_length_mask (m : Mask) : Prop := grow m = 0%Z.

(** ** The viewer: pattern list, page navigation, zoom

    The handlers of [SmartRedactorEnhanced] are modelled on the fields
    they read and write; widget updates (labels, canvas, progress bar) are
    left out, message boxes are returned as a list of dialogs, and a
    random choice is an argument. *)

Module Viewer.

(** [{"label", "regex", "color", "type"}] *)
Record Pattern := mkPattern {
  p_label : str;
  p_regex : str;
  p_color : str;
  p_type : str
}.

Definition PREDEFINED_PATTERNS : list (str * str) :=
  [ (of_string "PAN Card Number",
     of_string "\b[A-Z]{5}[0-9]{4}[A-Z]\b");
    (of_string "GST Number",
     of_string "\b\d{2}[A-Z]{5}\d{4}[A-Z]{1}[1-9A-Z]{1}Z[0-9A-Z]{1}\b");
    (of_string "Email Address",
     of_string "\b[a-zA-Z0-9]([a-zA-Z0-9._-]*[a-zA-Z0-9])?@[a-zA-Z0-9]([a-zA-Z0-9.-]*[a-zA-Z0-9])?\.[a-zA-Z]{2,}\b");
    (of_string "Phone Number (10 digits)",
     of_string "\b\d{10}\b");
    (of_string "Amounts ending with .00",
     of_string "\d+\.00\b");
    (of_string "Aadhaar Number",
     of_string "\b\d{4}\s\d{4}\s\d{4}\b");
    (of_string "Passport Number",
     of_string "\b[A-PR-WY][1-9]\d{6}\b");
    (of_string "Driving License",
     of_string "\b[A-Z]{2}\d{2}\s\d{11}\b");
    (of_string "Voter ID",
     of_string "\b[A-Z]{3}[0-9]{7}\b");
    (of_string "CIN Number",
     of_string "\b[LU][0-9]{5}[A-Z]{2}[0-9]{4}[A-Z]{3}[0-9]{6}\b");
    (of_string "Bank Account Number",
     of_string "\b\d{9,18}\b");
    (of_string "IFSC Code",
     of_string "\b[A-Z]{4}0[A-Z0-9]{6}\b");
    (of_string "UPI ID",
     of_string "\b[a-zA-Z0-9.\-_]{2,}@[a-zA-Z]{3,}\b");
    (of_string "Credit Card Number",
     of_string "\b(?:\d[ -]*?){13,16}\b");
    (of_string "CVV (3 digits)",
     of_string "\b\d{3}\b");
    (of_string "TAN Number",
     of_string "\b[A-Z]{4}\d{5}[A-Z]\b");
    (of_string "IP Address (IPv4)",
     of_string "\b(?:\d{1,3}\.){3}\d{1,3}\b");
    (of_string "URL",
     of_string "https?://(?:www\.)?[a-zA-Z0-9]([a-zA-Z0-9.-]*[a-zA-Z0-9])?(?:\.[a-zA-Z]{2,})+(?:/[^\s]*" ++ of_string ")?|www\.[a-zA-Z0-9]([a-zA-Z0-9.-]*[a-zA-Z0-9])?\.[a-zA-Z]{2,}(?:/[^\s]*" ++ of_string ")?");
    (of_string "INR Amount (‚Çπ Format)",
     of_string "‚Çπ\s?\d{1,3}(,\d{3})*(\.\d{2})?");
    (of_string "PNR Number",
     of_string "\b\d{10}\b");
    (of_string "Indian Mobile Number",
     of_string "\b[6-9]\d{9}\b");
    (of_string "Date (DD/MM/YYYY)",
     of_string "\b\d{2}/\d{2}/\d{4}\b");
    (of_string "Date (YYYY-MM-DD)",
     of_string "\b\d{4}-\d{2}-\d{2}\b");
    (of_string "Pincode",
     of_string "\b\d{6}\b");
    (of_string "Vehicle Number",
     of_string "\b[A-Z]{2}\d{2}[A-Z]{2}\d{4}\b");
    (of_string "Invoice Number",
     of_string "\b(?:INV|INVOICE)[-\s]*\d+\b");
    (of_string "Order Number",
     of_string "\b(?:ORD|ORDER)[-\s]*\d+\b") ].

(** [table[key]] for a dictionary written as its list of items. *)
Fixpoint lookup (key : str) (table : list (str * str)) : option str :=
  match table with
  | [] => None
  | (k, v) :: rest => if eqb k key then Some v else lookup key rest
  end.

(** The duplicate check: some existing pattern has this label. *)
Definition label_exists (label : str) (patterns : list Pattern) : bool :=
  existsb (fun existing_pattern => eqb (p_label existing_pattern) label)
          patterns.

(** [add_preset_pattern]: [combo_value] is [self.preset_combo.get()],
    [color] the outcome of [generate_random_color()]. *)
Definition add_preset_pattern (combo_value color : str) (patterns : list Pattern)
  : list Pattern * list Dialog :=
  let pattern_name := strip combo_value in
  match pattern_name with
  | [] =>
      (patterns,
       [showwarning (of_string "Warning")
          (of_string "Please select a pattern from the dropdown.")])
  | _ :: _ =>
      match lookup pattern_name PREDEFINED_PATTERNS with
      | None =>
          (patterns,
           [showerror (of_string "Error")
              (of_string "Invalid pattern selected.")])
      | Some pattern =>
          if label_exists pattern_name patterns then
            (patterns,
             [showwarning (of_string "Warning")
                (of_string "Pattern '" ++ pattern_name
                 ++ of_string "' already exists.")])
          else
            (patterns
             ++ [mkPattern pattern_name pattern color (of_string "preset")],
             [])
      end
  end.

(** [self.patterns.pop(index)] for [0 <= index < len(self.patterns)] *)
Fixpoint pop (index : nat) (patterns : list Pattern) : list Pattern :=
  match patterns, index with
  | [], _ => []
  | _ :: rest, O => rest
  | p :: rest, S i => p :: pop i rest
  end.

Definition remove_pattern (index : Z) (patterns : list Pattern)
  : list Pattern :=
  if ((0 <=? index) && (index <? Z.of_nat (length patterns)))%Z
  then pop (Z.to_nat index) patterns
  else patterns.

(** [clear_all_patterns]: [confirmed] is the answer to the question
    dialog, asked only when there are patterns. *)
Definition clear_all_patterns (confirmed : bool) (patterns : list Pattern)
  : list Pattern :=
  match patterns with
  | [] => patterns
  | _ :: _ => if confirmed then [] else patterns
  end.

(** *** Page navigation and zoom *)

Record View := mkView {
  current_page : Z;
  total_pages : Z;
  zoom : Q
}.

(** The state [__init__] leaves. *)
Definition initial_view : View := mkView 0 0 (12 # 10).

(** [load_pdf] for a document of [n] pages. *)
Definition load_pdf (n : nat) (v : View) : View :=
  mkView 0 (Z.of_nat n) (zoom v).

Definition prev_page (v : View) : View :=
  if (0 <? current_page v)%Z
  then mkView (current_page v - 1) (total_pages v) (zoom v)
  else v.

Definition next_page (v : View) : View :=
  if (current_page v <? total_pages v - 1)%Z
  then mkView (current_page v + 1) (total_pages v) (zoom v)
  else v.

Definition zoom_in (v : View) : View :=
  if Qlt_bool (zoom v) 3
  then mkView (current_page v) (total_pages v) (zoom v + (2 # 10))
  else v.

Definition zoom_out (v : View) : View :=
  if Qlt_bool (4 # 10) (zoom v)
  then mkView (current_page v) (total_pages v) (zoom v - (2 # 10))
  else v.

Inductive Action := PrevPage | NextPage | ZoomIn | ZoomOut.

Definition step (v : View) (a : Action) : View :=
  match a with
  | PrevPage => prev_page v
  | NextPage => next_page v
  | ZoomIn => zoom_in v
  | ZoomOut => zoom_out v
  end.

(** A sequence of button presses. *)
Definition run (actions : list Action) (v : View) : View :=
  fold_left step actions v.

(** *** Preview highlights *)

(** The test before a highlight is drawn:
    [canvas_x2 > canvas_x1 and canvas_y2 > canvas_y1], the canvas
    coordinates being the rectangle's times the zoom. *)
Definition highlightable (zoom : Q) (r : Rect) : bool :=
  Qlt_bool (x0 r * zoom) (x1 r * zoom) && Qlt_bool (y0 r * zoom) (y1 r * zoom).

Definition to_canvas (zoom : Q) (r : Rect) : Rect :=
  mkRect (x0 r * zoom) (y0 r * zoom) (x1 r * zoom) (y1 r * zoom).

Section WithBackend.

(** [re.finditer] and [re.compile] (true when the pattern compiles), and
    the backend's [page.search_for] ([None] when it raises). *)
Variable finditer : str -> str -> Z -> option (list RegexMatch).
Variable compiles : str -> bool.
Variable search_for : Page -> str -> option (list Rect).

(** The loop over the matches of one pattern: the state is the list of
    highlights drawn and [total_matches]. *)
Definition draw_step (zoom : Q) (st : list Rect * nat) (r : Rect)
  : list Rect * nat :=
  if highlightable zoom r
  then (fst st ++ [to_canvas zoom r], S (snd st))
  else st.

(** The loop over the patterns; a pattern that does not compile is
    skipped. *)
Definition pattern_step (page : Page) (zoom : Q) (st : list Rect * nat)
           (pattern : Pattern) : list Rect * nat :=
  if compiles (p_regex pattern) then
    fold_left (draw_step zoom)
      (map rect (Resolver.find_ultra_precise_matches str finditer page
                   (p_regex pattern)))
      st
  else st.

Definition pattern_pass (page : Page) (zoom : Q) (patterns : list Pattern)
           (st : list Rect * nat) : list Rect * nat :=
  fold_left (pattern_step page zoom) patterns st.

(** The entity pass: detection on the page text, the viewer's own
    threshold filter, then one search per entity text. *)
Definition entity_step (page : Page) (zoom : Q) (st : list Rect * nat)
           (ent : Entity) : list Rect * nat :=
  match search_for page (ent_text ent) with
  | Some text_instances => fold_left (draw_step zoom) text_instances st
  | None => st
  end.

Definition entity_pass (page : Page) (zoom : Q) (detector : PIIDetector)
           (selected_types : list str) (pdf_threshold : Q)
           (st : list Rect * nat) : list Rect * nat :=
  let entities := fst (detect_entities detector (page_text page)
                         (Some selected_types)) in
  let entities :=
    filter (fun ent => Qle_bool pdf_threshold (score ent)) entities in
  fold_left (entity_step page zoom) entities st.

(** [ultra_precise_preview] on an opened page: [None] when the guard on
    patterns and entity detection stops it with a warning, otherwise the
    highlights drawn and [total_matches]. *)
Definition ultra_precise_preview (page : Page) (zoom : Q)
           (patterns : list Pattern) (use_pii_detection : bool)
           (detector : PIIDetector) (selected_types : list str)
           (pdf_threshold : Q) : option (list Rect * nat) :=
  match patterns, use_pii_detection with
  | [], false => None
  | _, _ =>
      let st := pattern_pass page zoom patterns ([], O) in
      let st :=
        if use_pii_detection
        then entity_pass page zoom detector selected_types pdf_threshold st
        else st in
      Some (pattern_pass page zoom patterns st)
  end.

(** *** Hit analysis *)

(** [{"page": page_num + 1, "hits": page_hits}] *)
Record PageHits := mkPageHits {
  ph_page : nat;
  ph_hits : nat
}.

(** [{"total": ..., "pages": [...]}] *)
Record HitDetail := mkHitDetail {
  hd_total : nat;
  hd_pages : list PageHits
}.

(** [self.hit_details], a dictionary in insertion order. *)
Definition HitDetails : Type := list (str * HitDetail).

Definition has_key (label : str) (d : HitDetails) : bool :=
  existsb (fun kv => eqb (fst kv) label) d.

(** [if pattern_label not in self.hit_details: ... = {"total": 0, "pages": []}] *)
Definition ensure_key (label : str) (d : HitDetails) : HitDetails :=
  if has_key label d then d else d ++ [(label, mkHitDetail 0 [])].

(** The in-place update of the entry of [label]. *)
Fixpoint record_hits (label : str) (page_no page_hits : nat) (d : HitDetails)
  : HitDetails :=
  match d with
  | [] => []
  | (k, v) :: rest =>
      if eqb k label
      then (k, mkHitDetail (hd_total v + page_hits)
                 (hd_pages v ++ [mkPageHits page_no page_hits])) :: rest
      else (k, v) :: record_hits label page_no page_hits rest
  end.

(** The body of the loop over the patterns, on page [page_num]; the state
    is [(hit_details, total_hits)]. *)
Definition hit_step (page_num : nat) (page : Page) (st : HitDetails * nat)
           (pattern : Pattern) : HitDetails * nat :=
  let pattern_label := p_label pattern in
  let d := ensure_key pattern_label (fst st) in
  let page_hits :=
    length (Resolver.find_ultra_precise_matches str finditer page
              (p_regex pattern)) in
  if (0 <? page_hits)%nat
  then (record_hits pattern_label (page_num + 1) page_hits d,
        (snd st + page_hits)%nat)
  else (d, snd st).

(** The loop over the pages [page_num, page_num + 1, ...]. *)
Fixpoint page_loop (page_num : nat) (doc : list Page)
         (patterns : list Pattern) (st : HitDetails * nat)
  : HitDetails * nat :=
  match doc with
  | [] => st
  | page :: rest =>
      page_loop (S page_num) rest patterns
        (fold_left (hit_step page_num page) patterns st)
  end.

(** [analyze_hits] on an opened document: [None] when there is no pattern
    (a warning), otherwise [(hit_details, total_hits)]. *)
Definition analyze_hits (doc : list Page) (patterns : list Pattern)
  : option (HitDetails * nat) :=
  match patterns with
  | [] => None
  | _ :: _ => Some (page_loop 0 doc patterns ([], O))
  end.

End WithBackend.

End Viewer.

Import Viewer.

(** The highlights one run of the pattern loop draws. *)
Definition pattern_highlights
           (finditer : str -> str -> Z -> option (list RegexMatch))
           (compiles : str -> bool) (page : Page) (zoom : Q)
           (patterns : list Pattern) : list Rect :=
  flat_map
    (fun pattern =>
       if compiles (p_regex pattern)
       then map (to_canvas zoom)
                (filter (highlightable zoom)
                        (map rect
                             (Resolver.find_ultra_precise_matches str finditer
                                page (p_regex pattern))))
       else [])
    patterns.

(** The number of matches of every pattern on every page. *)
Definition all_hits (finditer : str -> str -> Z -> option (list RegexMatch))
           (doc : list Page) (patterns : list Pattern) : nat :=
  list_sum
    (map (fun page =>
            list_sum
              (map (fun pattern =>
                      length (Resolver.find_ultra_precise_matches str finditer
                                page (p_regex pattern)))
                   patterns))
         doc).

(** The invariant of the hit table while pages [1 .. n] are analysed. *)
Definition detail_ok (n : nat) (v : HitDetail) : Prop :=
  hd_total v = list_sum (map ph_hits (hd_pages v))
  /\ Forall (fun ph => (0 < ph_hits ph)%nat
                       /\ (1 <= ph_page ph <= n)%nat)
            (hd_pages v).

Definition zoom_ok (v : View) : Prop := (2 # 10) < zoom v /\ zoom v < (32 # 10).

(** A literal-pattern engine for the examples: the regex is the text to
    find. *)
Definition literal_engine (p t : str) (flags : Z)
  : option (list RegexMatch) :=
  PyRe.finditer (PyRe.literal p) t flags.

Definition two_presets : list Pattern :=
  [ mkPattern (of_string "Pincode") (of_string "\b\d{6}\b")
              (of_string "#ff5722") (of_string "preset");
    mkPattern (of_string "CVV (3 digits)") (of_string "\b\d{3}\b")
              (of_string "#2196f3") (of_string "preset") ].

Definition date_and_hello_patterns : list Pattern :=
  [ mkPattern (of_string "date") (of_string "2024-01-01") [] [];
    mkPattern (of_string "greeting") (of_string "hello") [] [];
    mkPattern (of_string "date") (of_string "paid") [] [] ].

(** * Properties *)

(** ** Strings and folds *)

Lemma eqb_eq (a b : str) : eqb a b = true <-> a = b.
Proof.
  unfold eqb. destruct (list_eq_dec ascii_dec a b); split; congruence.
Qed.

Lemma eqb_refl (a : str) : eqb a a = true.
Proof. now apply eqb_eq. Qed.

Lemma lower_length (s : str) : length (lower s) = length s.
Proof. apply length_map. Qed.

Lemma find_from_contains (sub s : str) :
  forall i, (0 <= i)%Z ->
    (contains sub s = true -> (i <= find_from sub s i)%Z)
    /\ (contains sub s = false -> find_from sub s i = (-1)%Z).
Proof.
  induction s as [|c s IH]; intros i Hi; simpl.
  - destruct (startswith sub []); simpl; split; intros H;
      try discriminate; try lia; reflexivity.
  - destruct (startswith sub (c :: s)); simpl.
    + split; intros H; [lia | discriminate].
    + destruct (IH (i + 1)%Z) as [A B]; [lia|].
      split; intros H; [specialize (A H); lia | now apply B].
Qed.

(** After [target_lower in word_lower] succeeded, [find] returns an index:
    the inner guard [start_pos >= 0] of method 2 always holds. *)
Lemma contains_find (sub s : str) :
  contains sub s = true <-> (0 <= find sub s)%Z.
Proof.
  unfold find. destruct (find_from_contains sub s 0%Z) as [A B]; [lia|].
  split.
  - exact A.
  - intros H. destruct (contains sub s); [reflexivity|].
    rewrite B in H by reflexivity. lia.
Qed.

(** A loop that appends zero or more items per element is a [flat_map]. *)
Lemma fold_left_snoc_flat_map {A B : Type} (g : A -> list B) (l : list A) :
  forall acc, fold_left (fun acc a => acc ++ g a) l acc = acc ++ flat_map g l.
Proof.
  induction l as [|a l IH]; intros acc; simpl.
  - now rewrite app_nil_r.
  - rewrite IH. now rewrite app_assoc.
Qed.

Lemma fold_left_ext {A B : Type} (f g : B -> A -> B) (l : list A) :
  (forall b a, f b a = g b a) ->
  forall acc, fold_left f l acc = fold_left g l acc.
Proof.
  intros E. induction l as [|a l IH]; intros acc; simpl; [reflexivity|].
  now rewrite E, IH.
Qed.

Lemma flat_map_filter_map {A B : Type} (p : A -> bool) (f : A -> B) (l : list A) :
  flat_map (fun a => if p a then [f a] else []) l = map f (filter p l).
Proof.
  induction l as [|a l IH]; simpl; [reflexivity|].
  destruct (p a); simpl; now rewrite IH.
Qed.

(** ** Exact word equality (method 1) *)

Lemma exact_word_match_spec (words : list Word) (target_text : str) :
  WordLevel.exact_word_match words (lower target_text)
  = map word_rect (Spec.equal_words words target_text).
Proof.
  unfold WordLevel.exact_word_match, Spec.equal_words.
  rewrite fold_left_ext
    with (g := fun acc w => acc ++ (if Spec.same_text target_text w
                                    then [word_rect w] else [])).
  - rewrite fold_left_snoc_flat_map. simpl. apply flat_map_filter_map.
  - intros b a. unfold WordLevel.exact_step, Spec.same_text.
    destruct (eqb _ _); [reflexivity | now rewrite app_nil_r].
Qed.

Lemma equal_words_nonempty (words : list Word) (target_text : str) :
  (exists w, In w words /\ lower (word_text w) = lower target_text) ->
  Spec.equal_words words target_text <> [].
Proof.
  intros (w & Hin & Heq) Hnil.
  assert (Hw : In w (Spec.equal_words words target_text)).
  { apply filter_In. split; [assumption|]. now apply eqb_eq. }
  rewrite Hnil in Hw. contradiction.
Qed.

(** C1. When some word equals the matched string case-insensitively, the
    resolver returns the bounding boxes of exactly the equal words, one per
    equal word in page order, and this is the outcome of method 1 alone:
    the substring and multi-word methods do not contribute.  For a regex
    match whose stripped text has at least two characters the dispatch of
    [find_ultra_precise_matches] yields these rectangles. *)
Theorem C1_exact_word_match_returned (words : list Word) (m : RegexMatch) :
  let target_text := strip (m_group m) in
  (2 <= length target_text)%nat ->
  (exists w, In w words /\ lower (word_text w) = lower target_text) ->
  WordLevel.get_word_level_boundaries words target_text
  = map word_rect (Spec.equal_words words target_text)
  /\ WordLevel.get_word_level_boundaries words target_text
     = WordLevel.exact_word_match words (lower target_text)
  /\ length (WordLevel.get_word_level_boundaries words target_text)
     = length (Spec.equal_words words target_text)
  /\ Resolver.resolve words m
     = map (fun r => mkMatch r target_text)
           (map word_rect (Spec.equal_words words target_text)).
Proof.
  intros target_text Hlen Hex.
  pose proof (equal_words_nonempty words target_text Hex) as Hne.
  assert (E : WordLevel.get_word_level_boundaries words target_text
              = map word_rect (Spec.equal_words words target_text)).
  { unfold WordLevel.get_word_level_boundaries.
    rewrite exact_word_match_spec.
    destruct (Spec.equal_words words target_text) as [|w ws]; [congruence|].
    reflexivity. }
  repeat split.
  - exact E.
  - now rewrite E, exact_word_match_spec.
  - now rewrite E, length_map.
  - unfold Resolver.resolve. fold target_text.
    destruct target_text as [|c [|c' t]] eqn:Et; simpl in Hlen; try lia.
    change (length (c :: c' :: t) =? 1)%nat with false. cbv iota.
    now rewrite E.
Qed.

Lemma C1_witness :
  Resolver.resolve date_words (mkRegexMatch 0 10 (of_string "2024-01-01"))
  = map (fun r => mkMatch r (of_string "2024-01-01"))
        [mkRect 10 10 60 22; mkRect 10 30 60 42; mkRect 10 50 60 62].
Proof.
  refine (proj2 (proj2 (proj2
    (C1_exact_word_match_returned date_words
       (mkRegexMatch 0 10 (of_string "2024-01-01")) _ _)))).
  - vm_compute. lia.
  - exists (mkWord 10 10 60 22 (of_string "2024-01-01") 0 0 0).
    split; [simpl; auto | reflexivity].
Defined.

(** ** Multi-word windows (method 3) *)

Lemma skipn_nth_error {A : Type} (l : list A) :
  forall k x, nth_error l k = Some x -> skipn k l = x :: skipn (S k) l.
Proof.
  induction l as [|a l IH]; intros [|k] x H; simpl in *; try discriminate.
  - now inversion H.
  - now apply IH.
Qed.

Lemma last_firstn_nth_error {A : Type} (d : A) :
  forall k (l : list A) x,
    nth_error l k = Some x -> last (firstn (S k) l) d = x.
Proof.
  induction k as [|k IH]; intros [|a l] x H; simpl in H; try discriminate.
  - now inversion H.
  - specialize (IH l x H). 
    change (firstn (S (S k)) (a :: l)) with (a :: firstn (S k) l).
    destruct (firstn (S k) l) eqn:E.
    + destruct l; [destruct k; discriminate H | simpl in E; discriminate E].
    + exact IH.
Qed.

Lemma nth_error_in_range {A : Type} (l : list A) (k : nat) :
  (k < length l)%nat -> exists x, nth_error l k = Some x.
Proof.
  intros H. destruct (nth_error l k) eqn:E; [eauto|].
  apply nth_error_None in E. lia.
Qed.

Lemma word_sequence_from (words : list Word) (i : nat) :
  forall k a acc,
    (i + a + k <= length words)%nat ->
    fold_left
      (fun seq_ j =>
         match nth_error words (i + j) with
         | Some w => seq_ ++ [lower (word_text w)]
         | None => seq_
         end)
      (seq a k) acc
    = acc ++ map (fun w => lower (word_text w))
                 (firstn k (skipn (i + a) words)).
Proof.
  induction k as [|k IH]; intros a acc H; simpl.
  - now rewrite app_nil_r.
  - destruct (nth_error_in_range words (i + a)) as [w Hw]; [lia|].
    rewrite Hw, IH by lia.
    rewrite (skipn_nth_error _ _ _ Hw). simpl.
    rewrite <- app_assoc. simpl.
    now rewrite Nat.add_succ_r.
Qed.

Lemma word_sequence_spec (words : list Word) (i n : nat) :
  (i + n <= length words)%nat ->
  WordLevel.word_sequence words i n
  = map (fun w => lower (word_text w)) (Spec.window words i n).
Proof.
  intros H. unfold WordLevel.word_sequence, Spec.window.
  rewrite word_sequence_from by lia. simpl. now rewrite Nat.add_0_r.
Qed.

(** Inside the range the two index accesses of the loop body succeed and
    read the first and the last word of the window. *)
Lemma window_ends (words : list Word) (i n : nat) :
  (1 <= n)%nat -> (i + n <= length words)%nat ->
  exists first_word last_word,
    nth_error words i = Some first_word
    /\ nth_error words (i + n - 1) = Some last_word
    /\ Spec.window_rect (Spec.window words i n)
       = [WordLevel.combined_rect first_word last_word].
Proof.
  intros Hn Hr.
  destruct (nth_error_in_range words i) as [f Hf]; [lia|].
  destruct (nth_error_in_range words (i + n - 1)) as [l Hl]; [lia|].
  exists f, l. repeat split; try assumption.
  unfold Spec.window. destruct n as [|k]; [lia|].
  assert (Hlast : last (firstn (S k) (skipn i words)) f = l).
  { apply last_firstn_nth_error. rewrite nth_error_skipn.
    replace (i + k)%nat with (i + S k - 1)%nat by lia. exact Hl. }
  rewrite (skipn_nth_error _ _ _ Hf) in *.
  change (firstn (S k) (f :: skipn (S i) words))
    with (f :: firstn k (skipn (S i) words)) in *.
  unfold Spec.window_rect. rewrite Hlast. reflexivity.
Qed.

Lemma multi_word_loop_spec (words : list Word) (target_text : str) (n : nat) :
  (1 <= n)%nat ->
  forall idx acc,
    (forall i, In i idx -> (i + n <= length words)%nat) ->
    WordLevel.multi_word_loop words (lower target_text) n idx acc
    = acc ++ flat_map
               (fun i => if Spec.window_matches words target_text n i
                         then Spec.window_rect (Spec.window words i n)
                         else [])
               idx.
Proof.
  intros Hn. induction idx as [|i idx IH]; intros acc Hr; simpl.
  - now rewrite app_nil_r.
  - assert (Hi : (i + n <= length words)%nat) by (apply Hr; now left).
    assert (Hr' : forall j, In j idx -> (j + n <= length words)%nat)
      by (intros j Hj; apply Hr; now right).
    rewrite word_sequence_spec by assumption.
    unfold Spec.window_matches at 1. fold (Spec.window_text (Spec.window words i n)).
    destruct (eqb _ _).
    + destruct (window_ends words i n Hn Hi) as (f & l & Hf & Hl & Hw).
      rewrite Hf, Hl, Hw, IH by assumption.
      now rewrite <- app_assoc.
    + now rewrite IH by assumption.
Qed.

Lemma flat_map_if_filter {A B : Type} (p : A -> bool) (g : A -> list B) (l : list A) :
  flat_map (fun a => if p a then g a else []) l = flat_map g (filter p l).
Proof.
  induction l as [|a l IH]; simpl; [reflexivity|].
  destruct (p a); simpl; now rewrite IH.
Qed.

Lemma filter_none {A : Type} (p : A -> bool) (l : list A) :
  (forall a, In a l -> p a = false) -> filter p l = [].
Proof.
  induction l as [|a l IH]; intros H; simpl; [reflexivity|].
  rewrite H by now left. apply IH. intros b Hb. apply H. now right.
Qed.

Lemma window_starts_all_starts (words : list Word) (n : nat) :
  WordLevel.window_starts words n = Spec.all_starts words n.
Proof.
  unfold WordLevel.window_starts, Spec.all_starts. f_equal. lia.
Qed.

Lemma multi_word_match_spec (words : list Word) (target_text : str) :
  let n := length (split target_text) in
  (1 < n)%nat ->
  WordLevel.multi_word_match words target_text (lower target_text)
  = flat_map (fun i => Spec.window_rect (Spec.window words i n))
      (filter (Spec.window_matches words target_text n)
              (Spec.all_starts words n)).
Proof.
  intros n Hn. unfold WordLevel.multi_word_match. fold n.
  apply Nat.ltb_lt in Hn as Hn'. rewrite Hn'.
  rewrite multi_word_loop_spec.
  - simpl. rewrite window_starts_all_starts. apply flat_map_if_filter.
  - lia.
  - intros i Hi. rewrite window_starts_all_starts in Hi.
    unfold Spec.all_starts in Hi. apply in_seq in Hi. lia.
Qed.

Lemma window_rect_count (words : list Word) (n : nat) (starts : list nat) :
  (1 <= n)%nat ->
  (forall i, In i starts -> (i + n <= length words)%nat) ->
  length (flat_map (fun i => Spec.window_rect (Spec.window words i n)) starts)
  = length starts.
Proof.
  intros Hn. induction starts as [|i starts IH]; intros Hr; simpl.
  - reflexivity.
  - rewrite length_app, IH by (intros j Hj; apply Hr; now right).
    destruct (window_ends words i n Hn) as (f & l & _ & _ & Hw).
    + apply Hr. now left.
    + now rewrite Hw.
Qed.

(** C2 (as the code has it).  For a matched string of N > 1 whitespace
    separated tokens for which neither exact word equality nor
    substring-within-word yields a rectangle, the resolver returns one
    rectangle per window of N consecutive words whose lowercased texts,
    joined by single spaces, equal the lowercased matched string, in page
    order (so the first rectangle comes from the first such window); each
    has the left edge of the window's first word, the right edge of its
    last word, the minimum of their top edges and the maximum of their
    bottom edges.  It returns no rectangle when no window matches. *)
Theorem C2_multi_word_one_rect_per_window (words : list Word) (target_text : str) :
  let n := length (split target_text) in
  (1 < n)%nat ->
  WordLevel.exact_word_match words (lower target_text) = [] ->
  WordLevel.partial_match words target_text (lower target_text) = [] ->
  WordLevel.get_word_level_boundaries words target_text
  = flat_map (fun i => Spec.window_rect (Spec.window words i n))
      (filter (Spec.window_matches words target_text n)
              (Spec.all_starts words n))
  /\ length (WordLevel.get_word_level_boundaries words target_text)
     = length (filter (Spec.window_matches words target_text n)
                      (Spec.all_starts words n))
  /\ ((forall i, In i (Spec.all_starts words n) ->
                 Spec.window_matches words target_text n i = false) ->
      WordLevel.get_word_level_boundaries words target_text = []).
Proof.
  intros n Hn He Hp.
  assert (E : WordLevel.get_word_level_boundaries words target_text
              = flat_map (fun i => Spec.window_rect (Spec.window words i n))
                  (filter (Spec.window_matches words target_text n)
                          (Spec.all_starts words n))).
  { unfold WordLevel.get_word_level_boundaries. rewrite He, Hp.
    now apply multi_word_match_spec. }
  split; [exact E|]. split.
  - rewrite E. apply window_rect_count; [lia|].
    intros i Hi. apply filter_In in Hi. destruct Hi as [Hi _].
    unfold Spec.all_starts in Hi. apply in_seq in Hi. lia.
  - intros Hnone. rewrite E.
    now rewrite (filter_none _ _ Hnone).
Qed.

Lemma C2_witness :
  WordLevel.get_word_level_boundaries jane_doe_twice (of_string "Jane Doe")
  = [mkRect 10 10 70 22; mkRect 10 30 70 42].
Proof.
  refine (eq_trans (proj1 (C2_multi_word_one_rect_per_window
                             jane_doe_twice (of_string "Jane Doe") _ _ _)) _).
  - vm_compute. lia.
  - reflexivity.
  - reflexivity.
  - reflexivity.
Defined.

(** The claim as stated fails: two windows match, and two rectangles are
    returned rather than the single rectangle of the first window. *)
Lemma C2_counterexample :
  (1 < length (split (of_string "Jane Doe")))%nat
  /\ WordLevel.exact_word_match jane_doe_twice (lower (of_string "Jane Doe")) = []
  /\ WordLevel.partial_match jane_doe_twice (of_string "Jane Doe")
       (lower (of_string "Jane Doe")) = []
  /\ Spec.window_matches jane_doe_twice (of_string "Jane Doe") 2 0 = true
  /\ ~ (exists r,
         WordLevel.get_word_level_boundaries jane_doe_twice (of_string "Jane Doe")
         = [r]).
Proof.
  repeat split; try reflexivity.
  - vm_compute. lia.
  - intros [r H]. vm_compute in H. discriminate.
Qed.

(** ** Single-character matches *)

Lemma skipn_cons_inv {A : Type} (l : list A) :
  forall i c rest, skipn i l = c :: rest -> skipn (S i) l = rest.
Proof.
  induction l as [|a l IH]; intros [|i] c rest H; simpl in *; try discriminate.
  - now inversion H.
  - now apply IH with c.
Qed.

Lemma scan_word_spec (w : Word) (target_char : str) :
  forall chars i acc,
    skipn i (word_text w) = chars ->
    CharLevel.scan_word w (lower target_char) chars i acc
    = acc ++ map (CharLevel.char_rect w)
               (filter (fun j => eqb (lower (firstn 1 (skipn j (word_text w))))
                                     (lower target_char))
                       (seq i (length chars))).
Proof.
  induction chars as [|c chars IH]; intros i acc H; simpl.
  - now rewrite app_nil_r.
  - rewrite IH by (now apply skipn_cons_inv with c).
    rewrite H. simpl.
    destruct (eqb _ _); simpl; [now rewrite <- app_assoc | reflexivity].
Qed.

Lemma char_rect_nth_char_rect (w : Word) (i : nat) :
  (0 < length (word_text w))%nat ->
  CharLevel.char_rect w i = Spec.nth_char_rect w i.
Proof.
  intros H. unfold CharLevel.char_rect, Spec.nth_char_rect, char_width.
  apply Nat.ltb_lt in H. now rewrite H.
Qed.

Lemma scan_whole_word (w : Word) (target_char : str) (acc : list Rect) :
  CharLevel.scan_word w (lower target_char) (word_text w) 0 acc
  = acc ++ map (Spec.nth_char_rect w) (Spec.occurrences target_char w).
Proof.
  rewrite scan_word_spec by reflexivity. f_equal.
  unfold Spec.occurrences. apply map_ext_in.
  intros i Hi. apply filter_In in Hi. destruct Hi as [Hi _].
  apply in_seq in Hi. apply char_rect_nth_char_rect. lia.
Qed.

Lemma get_character_level_boundaries_spec
      (words : list Word) (target_char : str) (match_start match_end : Z) :
  CharLevel.get_character_level_boundaries words target_char match_start match_end
  = flat_map (fun w => map (Spec.nth_char_rect w) (Spec.occurrences target_char w))
             words.
Proof.
  unfold CharLevel.get_character_level_boundaries.
  rewrite fold_left_ext
    with (g := fun acc w => acc ++ map (Spec.nth_char_rect w)
                                       (Spec.occurrences target_char w)).
  - now rewrite fold_left_snoc_flat_map.
  - intros acc w. apply scan_whole_word.
Qed.

(** C3. For a regex match whose stripped text is a single character the
    resolver returns one rectangle per case-insensitive occurrence of
    that character in every word of the page, whatever the offsets of the
    regex match: occurrence [i] of word [w] gets the horizontal span
    [x0 + i * cw, x0 + i * cw + cw] with [cw = word_width / len(text)]
    (so its width is [cw]) and the vertical extent of [w]. *)
Theorem C3_single_character_every_occurrence (words : list Word) (m : RegexMatch) :
  let target_char := strip (m_group m) in
  length target_char = 1%nat ->
  Resolver.resolve words m
  = map (fun r => mkMatch r target_char)
        (flat_map (fun w => map (Spec.nth_char_rect w)
                                (Spec.occurrences target_char w))
                  words)
  /\ (forall match_start match_end,
        CharLevel.get_character_level_boundaries words target_char
          match_start match_end
        = flat_map (fun w => map (Spec.nth_char_rect w)
                                 (Spec.occurrences target_char w))
                   words)
  /\ (forall w i,
        x1 (Spec.nth_char_rect w i) - x0 (Spec.nth_char_rect w i)
        == (word_x1 w - word_x0 w) / len_Q (word_text w)
        /\ x0 (Spec.nth_char_rect w i)
           = word_x0 w + inject_Z (Z.of_nat i)
                         * ((word_x1 w - word_x0 w) / len_Q (word_text w))
        /\ y0 (Spec.nth_char_rect w i) = word_y0 w
        /\ y1 (Spec.nth_char_rect w i) = word_y1 w).
Proof.
  intros target_char Hlen. repeat split.
  - unfold Resolver.resolve. fold target_char.
    destruct target_char as [|c [|c' t]] eqn:E; simpl in Hlen; try discriminate.
    simpl length. cbv iota beta. simpl Nat.eqb. cbv iota.
    now rewrite get_character_level_boundaries_spec.
  - intros s e. apply get_character_level_boundaries_spec.
  - simpl. ring.
Qed.

Lemma C3_witness :
  Resolver.resolve banana_words (mkRegexMatch 12 13 (of_string "a"))
  = map (fun r => mkMatch r (of_string "a"))
        (flat_map (fun w => map (Spec.nth_char_rect w)
                                (Spec.occurrences (of_string "a") w))
                  banana_words)
  /\ length (Resolver.resolve banana_words (mkRegexMatch 12 13 (of_string "a")))
     = 4%nat.
Proof.
  split.
  - exact (proj1 (C3_single_character_every_occurrence banana_words
                    (mkRegexMatch 12 13 (of_string "a")) eq_refl)).
  - reflexivity.
Defined.

(** ** The rectangle invariant *)

Lemma Forall_snoc {B : Type} (P : B -> Prop) (l : list B) (b : B) :
  Forall P l -> P b -> Forall P (l ++ [b]).
Proof.
  intros Hl Hb. apply Forall_app. split; [assumption | now constructor].
Qed.

Lemma Qlt_bool_true (a b : Q) : Qlt_bool a b = true -> a < b.
Proof.
  unfold Qlt_bool. intros H. apply Qnot_le_lt. intros Hle.
  apply Qle_bool_iff in Hle. rewrite Hle in H. discriminate.
Qed.

Lemma Qlt_bool_false (a b : Q) : Qlt_bool a b = false -> b <= a.
Proof.
  unfold Qlt_bool. intros H. apply Qle_bool_iff.
  destruct (Qle_bool b a); [reflexivity | discriminate].
Qed.

Lemma Qmax_0_gt (v c : Q) : 0 <= c -> Qlt_bool c (Qmax 0 v) = true -> c < v.
Proof.
  intros Hc H. apply Qlt_bool_true in H.
  destruct (Q.max_spec 0 v) as [[_ E]|[_ E]]; rewrite E in H; lra.
Qed.

(** A rectangle that passes the merger's size threshold has positive
    width and height. *)
Lemma passes_threshold_positive (r : Rect) :
  passes_threshold r = true -> x0 r < x1 r /\ y0 r < y1 r.
Proof.
  unfold passes_threshold, width, height. intros H.
  apply andb_true_iff in H. destruct H as [Hw Hh].
  apply Qmax_0_gt in Hw; [|lra]. apply Qmax_0_gt in Hh; [|lra].
  split; lra.
Qed.

(** C6.  The window rectangle of method 3 is not a bounding rectangle
    when the window runs over a line break.  On the page with
    "Jane Doe met Jane" on one line and "Doe" at the start of the next,
    the pattern "Jane Doe" makes [get_word_level_boundaries] return, for
    the window of the last two words, [Rect(500, 10, 35, 36)]: the
    vertical extent is the minimum and maximum over the two words, the
    left edge is the first word's and the right edge the last word's, so
    [x0 > x1] and the rectangle contains neither word, where their
    bounding rectangle is [Rect(10, 10, 540, 36)].  The size threshold of
    the merger then drops it: the only region applied is that of the
    first occurrence, and the words of the second one stay uncovered. *)
Theorem C6_window_over_line_break_is_not_a_bounding_rect :
  let words := page_words line_break_page in
  let jane := mkWord 500 10 540 22 (of_string "Jane") 0 0 3 in
  let doe := mkWord 10 24 35 36 (of_string "Doe") 0 1 0 in
  let r := mkRect 500 10 35 36 in
  let matches :=
    Resolver.find_ultra_precise_matches PyRe.regex PyRe.finditer
      line_break_page (PyRe.literal (of_string "Jane Doe")) in
  Forall Spec.word_ok words
  /\ nth_error words 3 = Some jane
  /\ nth_error words 4 = Some doe
  /\ WordLevel.get_word_level_boundaries words (of_string "Jane Doe")
     = [mkRect 10 10 70 22; r]
  /\ matches = [ mkMatch (mkRect 10 10 70 22) (of_string "Jane Doe");
                 mkMatch r (of_string "Jane Doe") ]
  /\ WordLevel.combined_rect jane doe = r
  /\ x1 r < x0 r
  /\ ~ Spec.rect_ok r
  /\ ~ contains_rect r (word_rect jane)
  /\ ~ contains_rect r (word_rect doe)
  /\ util_union_rect (word_rect jane) (word_rect doe) = mkRect 10 10 540 36
  /\ passes_threshold r = false
  /\ apply_ultra_precise_redaction matches = mkOutcome [mkRect 8 8 72 24] 1
  /\ ~ covers (applied_regions (apply_ultra_precise_redaction matches))
         (word_rect jane)
  /\ ~ covers (applied_regions (apply_ultra_precise_redaction matches))
         (word_rect doe).
Proof.
  cbv zeta.
  assert (Hneg : forall a b : Z, (b < a)%Z -> ~ inject_Z a <= inject_Z b).
  { intros a b Hlt Hle. unfold Qle in Hle. simpl in Hle. lia. }
  repeat match goal with |- _ /\ _ => split end;
    try reflexivity.
  - repeat constructor; simpl; unfold Qle; simpl; lia.
  - intros [H _]. revert H. now apply (Hneg 500 35)%Z.
  - intros (_ & _ & H & _). revert H. now apply (Hneg 540 35)%Z.
  - intros (H & _). revert H. now apply (Hneg 500 10)%Z.
  - intros (g & [<-|[]] & (_ & _ & H & _)). revert H.
    now apply (Hneg 540 72)%Z.
  - intros (g & [<-|[]] & (_ & _ & _ & H)). revert H.
    now apply (Hneg 36 24)%Z.
Qed.

(** ** RedactionMerger *)

Lemma contains_rect_refl (r : Rect) : contains_rect r r.
Proof. unfold contains_rect. repeat split; apply Qle_refl. Qed.

Lemma contains_rect_trans (a b c : Rect) :
  contains_rect a b -> contains_rect b c -> contains_rect a c.
Proof.
  unfold contains_rect. intros (A1 & A2 & A3 & A4) (B1 & B2 & B3 & B4).
  repeat split; eapply Qle_trans; eassumption.
Qed.

Ltac case_Qlt :=
  match goal with
  | |- context [Qlt_bool ?a ?b] =>
      let E := fresh "E" in
      destruct (Qlt_bool a b) eqn:E;
      [apply Qlt_bool_true in E | apply Qlt_bool_false in E]
  end.

Lemma util_union_rect_contains (a b : Rect) :
  contains_rect (util_union_rect a b) a
  /\ contains_rect (util_union_rect a b) b.
Proof.
  unfold contains_rect, util_union_rect; simpl.
  repeat split; case_Qlt; lra.
Qed.

Lemma intersects_nonempty (a b : Rect) :
  intersects a b = true -> is_empty a = false /\ is_empty b = false.
Proof.
  unfold intersects.
  destruct (is_empty a), (is_empty b); simpl; intros H;
    try discriminate; auto.
Qed.

Lemma include_rect_contains (a b : Rect) :
  intersects a b = true ->
  contains_rect (include_rect a b) a /\ contains_rect (include_rect a b) b.
Proof.
  intros H. apply intersects_nonempty in H. destruct H as [Ha Hb].
  unfold include_rect. rewrite Ha, Hb. apply util_union_rect_contains.
Qed.

Lemma absorb_covers (merged : list Rect) (r : Rect) :
  forall merged',
    absorb merged r = Some merged' ->
    covers merged' r
    /\ (forall r0, covers merged r0 -> covers merged' r0)
    /\ length merged' = length merged.
Proof.
  induction merged as [|g merged IH]; intros merged' H; simpl in H.
  - discriminate.
  - destruct (intersects g r) eqn:Ei.
    + inversion H; subst merged'; clear H.
      destruct (include_rect_contains g r Ei) as [Hg Hr].
      split; [|split].
      * exists (include_rect g r). split; [now left | assumption].
      * intros r0 (g0 & [Hin|Hin] & Hc).
        -- subst g0. exists (include_rect g r). split; [now left|].
           now apply contains_rect_trans with g.
        -- exists g0. split; [now right | assumption].
      * reflexivity.
    + destruct (absorb merged r) as [m'|] eqn:Ea; simpl in H; [|discriminate].
      inversion H; subst merged'; clear H.
      destruct (IH m' eq_refl) as (H1 & H2 & H3).
      split; [|split].
      * destruct H1 as (g1 & Hin & Hc). exists g1. split; [now right | assumption].
      * intros r0 (g0 & [Hin|Hin] & Hc).
        -- subst g0. exists g. split; [now left | assumption].
        -- destruct (H2 r0) as (g1 & Hin1 & Hc1); [now exists g0|].
           exists g1. split; [now right | assumption].
      * simpl. now rewrite H3.
Qed.

Lemma merge_step_covers (merged : list Rect) (r : Rect) :
  covers (merge_step merged r) r
  /\ (forall r0, covers merged r0 -> covers (merge_step merged r) r0)
  /\ (length (merge_step merged r) <= S (length merged))%nat.
Proof.
  unfold merge_step. destruct (absorb merged r) as [m'|] eqn:Ea.
  - destruct (absorb_covers merged r m' Ea) as (H1 & H2 & H3).
    split; [assumption | split; [assumption | lia]].
  - split; [|split].
    + exists r. split; [apply in_or_app; right; now left | apply contains_rect_refl].
    + intros r0 (g & Hin & Hc). exists g.
      split; [apply in_or_app; now left | assumption].
    + rewrite length_app. simpl. lia.
Qed.

Lemma merge_fold_covers (l : list Rect) :
  forall merged,
    (forall r, In r l -> covers (fold_left merge_step l merged) r)
    /\ (forall r0, covers merged r0 -> covers (fold_left merge_step l merged) r0)
    /\ (length (fold_left merge_step l merged) <= length merged + length l)%nat.
Proof.
  induction l as [|a l IH]; intros merged; simpl.
  - split; [intros r [] | split; [auto | lia]].
  - destruct (merge_step_covers merged a) as (Hnew & Hold & Hlen).
    destruct (IH (merge_step merged a)) as (H1 & H2 & H3).
    split; [|split].
    + intros r [Hr|Hr]; [subst r; now apply H2 | now apply H1].
    + intros r0 Hr0. now apply H2, Hold.
    + lia.
Qed.

Lemma insert_sorted_perm (r : Rect) (l : list Rect) :
  Permutation (insert_sorted r l) (r :: l).
Proof.
  induction l as [|h t IH]; simpl; [reflexivity|].
  destruct (key_lt h r); [|reflexivity].
  rewrite IH. apply perm_swap.
Qed.

Lemma sorted_perm (l : list Rect) : Permutation (sorted l) l.
Proof.
  induction l as [|r t IH]; simpl; [reflexivity|].
  rewrite insert_sorted_perm. now constructor.
Qed.

Lemma collect_from (matches : list Match) :
  forall acc n,
    fold_left collect_step matches (acc, n)
    = (acc ++ map pad (filter passes_threshold (map rect matches)),
       (n + length (filter passes_threshold (map rect matches)))%nat).
Proof.
  induction matches as [|m matches IH]; intros acc n; simpl.
  - now rewrite app_nil_r, Nat.add_0_r.
  - unfold collect_step at 2. simpl.
    destruct (passes_threshold (rect m)); simpl; rewrite IH.
    + rewrite <- app_assoc. simpl. f_equal. lia.
    + reflexivity.
Qed.

Lemma collect_spec (matches : list Match) :
  collect matches
  = (map pad (filter passes_threshold (map rect matches)),
     length (filter passes_threshold (map rect matches))).
Proof. unfold collect. now rewrite collect_from. Qed.

Lemma applied_regions_spec (matches : list Match) :
  applied_regions (apply_ultra_precise_redaction matches)
  = merge (map pad (filter passes_threshold (map rect matches))).
Proof.
  unfold apply_ultra_precise_redaction. now rewrite collect_spec.
Qed.

Lemma merge_covers (redactions : list Rect) (r : Rect) :
  In r redactions -> covers (merge redactions) r.
Proof.
  intros Hin. unfold merge.
  apply (proj1 (merge_fold_covers (sorted redactions) [])).
  apply Permutation_in with redactions; [|assumption].
  symmetry. apply sorted_perm.
Qed.

Lemma merge_length (redactions : list Rect) :
  (length (merge redactions) <= length redactions)%nat.
Proof.
  unfold merge.
  pose proof (proj2 (proj2 (merge_fold_covers (sorted redactions) []))) as H.
  simpl in H. rewrite (Permutation_length (sorted_perm redactions)) in H.
  exact H.
Qed.

(** C4. Every input rectangle that passes the size threshold is, once
    padded, contained in one of the merged regions handed to the page, and
    therefore every point of it lies in the union of the merged regions. *)
Theorem C4_merge_coverage (matches : list Match) (m : Match) :
  In m matches ->
  passes_threshold (rect m) = true ->
  (exists region,
      In region (applied_regions (apply_ultra_precise_redaction matches))
      /\ contains_rect region (pad (rect m)))
  /\ (forall px py,
         inside px py (pad (rect m)) ->
         exists region,
           In region (applied_regions (apply_ultra_precise_redaction matches))
           /\ inside px py region).
Proof.
  intros Hin Hpass.
  assert (Hc : covers (applied_regions (apply_ultra_precise_redaction matches))
                      (pad (rect m))).
  { rewrite applied_regions_spec. apply merge_covers.
    apply in_map, filter_In. split; [now apply in_map | assumption]. }
  split; [exact Hc|].
  intros px py (I1 & I2 & I3 & I4).
  destruct Hc as (g & Hg & C1 & C2 & C3 & C4).
  exists g. split; [assumption|].
  unfold inside. repeat split; eapply Qle_trans; eassumption.
Qed.

Lemma C4_witness :
  applied_regions (apply_ultra_precise_redaction three_matches)
  = [mkRect 8 8 92 26; mkRect 8 98 62 114]
  /\ exists region,
       In region (applied_regions (apply_ultra_precise_redaction three_matches))
       /\ contains_rect region (pad (mkRect 58 12 90 24)).
Proof.
  split; [reflexivity|].
  refine (proj1 (C4_merge_coverage three_matches
                   (mkMatch (mkRect 58 12 90 24) (of_string "b")) _ _)).
  - simpl. auto.
  - reflexivity.
Defined.

(** C5 (as the code has it).  The returned count is the number of input
    matches whose rectangle passes the size threshold, counted before
    merging; the number of merged regions applied to the page is at most
    that count. *)
Theorem C5_count_is_number_of_surviving_matches (matches : list Match) :
  redaction_count (apply_ultra_precise_redaction matches)
  = length (filter passes_threshold (map rect matches))
  /\ (length (applied_regions (apply_ultra_precise_redaction matches))
      <= redaction_count (apply_ultra_precise_redaction matches))%nat.
Proof.
  rewrite applied_regions_spec.
  unfold apply_ultra_precise_redaction. rewrite collect_spec. simpl.
  split; [reflexivity|].
  pose proof (merge_length (map pad (filter passes_threshold (map rect matches)))) as H.
  now rewrite length_map in H.
Qed.

(** The claim as stated fails: two overlapping rectangles are merged into
    one applied region, and the count returned is 2. *)
Lemma C5_counterexample :
  applied_regions (apply_ultra_precise_redaction two_overlapping_matches)
  = [mkRect 8 8 92 24]
  /\ redaction_count (apply_ultra_precise_redaction two_overlapping_matches)
     = 2%nat
  /\ redaction_count (apply_ultra_precise_redaction two_overlapping_matches)
     <> length (applied_regions
                  (apply_ultra_precise_redaction two_overlapping_matches)).
Proof.
  split; [reflexivity|]. split; [reflexivity|].
  vm_compute. discriminate.
Qed.

Lemma passes_threshold_padded_nonempty (r : Rect) :
  passes_threshold r = true -> is_empty (pad r) = false.
Proof.
  unfold passes_threshold, width, height. intros H.
  apply andb_true_iff in H. destruct H as [Hw Hh].
  apply Qmax_0_gt in Hw; [|lra]. apply Qmax_0_gt in Hh; [|lra].
  unfold is_empty, pad, padding. simpl.
  apply orb_false_iff. split.
  - destruct (Qle_bool (x1 r + 2) (x0 r - 2)) eqn:E; [|reflexivity].
    apply Qle_bool_iff in E. lra.
  - destruct (Qle_bool (y1 r + 2) (y0 r - 2)) eqn:E; [|reflexivity].
    apply Qle_bool_iff in E. lra.
Qed.

Lemma util_intersect_rect_self (r : Rect) : util_intersect_rect r r = r.
Proof.
  destruct r as [a b c d]. unfold util_intersect_rect. simpl.
  repeat match goal with |- context [if ?t then _ else _] => destruct t end;
    reflexivity.
Qed.

Lemma intersects_self (r : Rect) : is_empty r = false -> intersects r r = true.
Proof.
  intros H. unfold intersects, intersect. rewrite H. simpl.
  now rewrite util_intersect_rect_self, H.
Qed.

Lemma merge_duplicate (p : Rect) :
  is_empty p = false ->
  merge [p; p] = [include_rect p p] /\ merge [p] = [p].
Proof.
  intros H. unfold merge. simpl.
  assert (E : (if key_lt p p then [p; p] else [p; p]) = [p; p])
    by (destruct (key_lt p p); reflexivity).
  rewrite E. simpl. unfold merge_step. simpl.
  now rewrite (intersects_self p H).
Qed.

(** C7. For a rectangle above the size threshold, the merge produces as
    many merged regions for the list holding the rectangle twice as for
    the list holding it once: a single region in both cases. *)
Theorem C7_merge_duplicate_same_region_count (r : Rect) (t1 t2 : str) :
  passes_threshold r = true ->
  length (applied_regions
            (apply_ultra_precise_redaction [mkMatch r t1; mkMatch r t2]))
  = length (applied_regions (apply_ultra_precise_redaction [mkMatch r t1]))
  /\ length (merge [pad r; pad r]) = length (merge [pad r])
  /\ length (merge [pad r]) = 1%nat.
Proof.
  intros H.
  pose proof (passes_threshold_padded_nonempty r H) as Hne.
  destruct (merge_duplicate (pad r) Hne) as [E2 E1].
  rewrite !applied_regions_spec. cbn [map filter rect]. rewrite H.
  cbn [map]. rewrite E2, E1. auto.
Qed.

Lemma C7_witness :
  length (applied_regions
            (apply_ultra_precise_redaction
               [mkMatch (mkRect 10 10 60 22) (of_string "a");
                mkMatch (mkRect 10 10 60 22) (of_string "a")]))
  = length (applied_regions
              (apply_ultra_precise_redaction
                 [mkMatch (mkRect 10 10 60 22) (of_string "a")])).
Proof.
  exact (proj1 (C7_merge_duplicate_same_region_count
                  (mkRect 10 10 60 22) (of_string "a") (of_string "a")
                  eq_refl)).
Defined.

(** ** Regex flags *)

(** *** Letter case of characters and strings *)

Lemma lower_char_idem (c : ascii) : lower_char (lower_char c) = lower_char c.
Proof.
  destruct c as [[] [] [] [] [] [] [] []]; reflexivity.
Qed.

Lemma upper_lower_char (c : ascii) :
  upper_char (lower_char c) = upper_char c.
Proof.
  destruct c as [[] [] [] [] [] [] [] []]; reflexivity.
Qed.

Lemma char_is_a_case_variant (c : ascii) :
  c = lower_char c \/ c = upper_char c.
Proof.
  destruct c as [[] [] [] [] [] [] [] []];
    first [left; reflexivity | right; reflexivity].
Qed.

Lemma is_space_lower_char (c : ascii) : is_space (lower_char c) = is_space c.
Proof.
  destruct c as [[] [] [] [] [] [] [] []]; reflexivity.
Qed.

Lemma lower_idem (s : str) : lower (lower s) = lower s.
Proof.
  unfold lower. rewrite map_map. apply map_ext. exact lower_char_idem.
Qed.

Lemma lstrip_lower (s : str) : lstrip (lower s) = lower (lstrip s).
Proof.
  induction s as [|c s IH]; simpl; [reflexivity|].
  rewrite is_space_lower_char. destruct (is_space c); [exact IH | reflexivity].
Qed.

Lemma strip_lower (s : str) : strip (lower s) = lower (strip s).
Proof.
  unfold strip. rewrite lstrip_lower. unfold lower at 1.
  rewrite <- map_rev. fold (lower (rev (lstrip s))).
  rewrite lstrip_lower. unfold lower. now rewrite map_rev.
Qed.

Lemma flush_lower (cur : str) (k : list str) :
  flush (lower cur) (map lower k) = map lower (flush cur k).
Proof.
  destruct cur as [|c cur]; simpl; [reflexivity|].
  f_equal. unfold lower. rewrite map_app, map_rev. reflexivity.
Qed.

Lemma split_acc_lower (s : str) :
  forall cur, split_acc (lower s) (lower cur) = map lower (split_acc s cur).
Proof.
  induction s as [|c s IH]; intros cur; simpl.
  - apply (flush_lower cur []).
  - rewrite is_space_lower_char. destruct (is_space c).
    + rewrite <- flush_lower. f_equal. apply (IH []).
    + apply (IH (c :: cur)).
Qed.

Lemma split_lower (s : str) : split (lower s) = map lower (split s).
Proof. apply (split_acc_lower s []). Qed.

(** *** The resolver reads the page modulo letter case *)

Lemma fold_left_map {A B C : Type} (f : C -> B -> C) (g : A -> B) (l : list A) :
  forall acc, fold_left f (map g l) acc = fold_left (fun c a => f c (g a)) l acc.
Proof.
  induction l as [|a l IH]; intros acc; simpl; [reflexivity | apply IH].
Qed.

Lemma char_width_lower_word (w : Word) : char_width (lower_word w) = char_width w.
Proof.
  unfold char_width, len_Q. simpl. now rewrite lower_length.
Qed.

Lemma exact_word_match_lower (words : list Word) (target_lower : str) :
  WordLevel.exact_word_match (map lower_word words) target_lower
  = WordLevel.exact_word_match words target_lower.
Proof.
  unfold WordLevel.exact_word_match. rewrite fold_left_map.
  apply fold_left_ext. intros acc w. unfold WordLevel.exact_step. simpl.
  now rewrite lower_idem.
Qed.

Lemma partial_rect_lower (w : Word) (start_pos : Z) (target_text : str) :
  WordLevel.partial_rect (lower_word w) start_pos (lower target_text)
  = WordLevel.partial_rect w start_pos target_text.
Proof.
  unfold WordLevel.partial_rect. rewrite char_width_lower_word.
  unfold len_Q. now rewrite lower_length.
Qed.

Lemma partial_match_lower (words : list Word) (target_text target_lower : str) :
  WordLevel.partial_match (map lower_word words) (lower target_text)
    target_lower
  = WordLevel.partial_match words target_text target_lower.
Proof.
  unfold WordLevel.partial_match. rewrite fold_left_map.
  apply fold_left_ext. intros acc w. unfold WordLevel.partial_step.
  rewrite partial_rect_lower. simpl. now rewrite lower_idem.
Qed.

Lemma word_sequence_lower (words : list Word) (i n : nat) :
  WordLevel.word_sequence (map lower_word words) i n
  = WordLevel.word_sequence words i n.
Proof.
  unfold WordLevel.word_sequence. apply fold_left_ext. intros acc j.
  rewrite nth_error_map. destruct (nth_error words (i + j)); simpl;
    [now rewrite lower_idem | reflexivity].
Qed.

Lemma multi_word_loop_lower (words : list Word) (target_lower : str) (n : nat) :
  forall idx acc,
    WordLevel.multi_word_loop (map lower_word words) target_lower n idx acc
    = WordLevel.multi_word_loop words target_lower n idx acc.
Proof.
  induction idx as [|i idx IH]; intros acc; simpl; [reflexivity|].
  rewrite word_sequence_lower, !nth_error_map.
  destruct (eqb _ _); [|apply IH].
  destruct (nth_error words i); simpl; [|reflexivity].
  destruct (nth_error words (i + n - 1)); simpl; [|reflexivity].
  apply IH.
Qed.

Lemma multi_word_match_lower (words : list Word) (target_text target_lower : str) :
  WordLevel.multi_word_match (map lower_word words) (lower target_text)
    target_lower
  = WordLevel.multi_word_match words target_text target_lower.
Proof.
  unfold WordLevel.multi_word_match, WordLevel.window_starts.
  rewrite split_lower, !length_map.
  destruct (1 <? _)%nat; [apply multi_word_loop_lower | reflexivity].
Qed.

Lemma get_word_level_boundaries_lower (words : list Word) (target_text : str) :
  WordLevel.get_word_level_boundaries (map lower_word words) (lower target_text)
  = WordLevel.get_word_level_boundaries words target_text.
Proof.
  unfold WordLevel.get_word_level_boundaries.
  rewrite lower_idem, exact_word_match_lower, partial_match_lower,
    multi_word_match_lower.
  reflexivity.
Qed.

Lemma scan_word_lower (w : Word) (target_lower : str) (chars : str) :
  forall i acc,
    CharLevel.scan_word (lower_word w) target_lower (lower chars) i acc
    = CharLevel.scan_word w target_lower chars i acc.
Proof.
  induction chars as [|c chars IH]; intros i acc; simpl; [reflexivity|].
  rewrite IH. rewrite lower_char_idem.
  unfold CharLevel.char_rect. now rewrite char_width_lower_word.
Qed.

Lemma get_character_level_boundaries_lower
      (words : list Word) (target_char : str) (match_start match_end : Z) :
  CharLevel.get_character_level_boundaries (map lower_word words)
    (lower target_char) match_start match_end
  = CharLevel.get_character_level_boundaries words target_char
      match_start match_end.
Proof.
  unfold CharLevel.get_character_level_boundaries. rewrite fold_left_map.
  rewrite lower_idem. apply fold_left_ext. intros acc w.
  apply (scan_word_lower w (lower target_char) (word_text w) 0 acc).
Qed.

Lemma resolve_lower (words : list Word) (regex_match : RegexMatch) :
  Resolver.resolve (map lower_word words) (lower_match regex_match)
  = map lower_result (Resolver.resolve words regex_match).
Proof.
  unfold Resolver.resolve. cbn [lower_match m_group m_start m_end].
  rewrite strip_lower.
  destruct (strip (m_group regex_match)) as [|c rest] eqn:E; [reflexivity|].
  change (lower (c :: rest)) with (lower_char c :: lower rest).
  change (lower_char c :: lower rest) with (lower (c :: rest)).
  rewrite lower_length.
  destruct (length (c :: rest) =? 1)%nat.
  - rewrite get_character_level_boundaries_lower, map_map. reflexivity.
  - rewrite get_word_level_boundaries_lower, map_map. reflexivity.
Qed.

Lemma find_matches_lower_page
      (pattern : Type)
      (finditer : pattern -> str -> Z -> option (list RegexMatch))
      (p : Page) (q : pattern) :
  case_blind finditer q ->
  Resolver.find_ultra_precise_matches pattern finditer (lower_page p) q
  = map lower_result
      (Resolver.find_ultra_precise_matches pattern finditer p q).
Proof.
  intros Hblind. unfold Resolver.find_ultra_precise_matches.
  cbn [lower_page page_words page_text]. rewrite Hblind.
  destruct (finditer q (page_text p) _) as [found|]; [|reflexivity].
  cbn [option_map]. rewrite !fold_left_snoc_flat_map. cbn [app].
  induction found as [|m found IH]; [reflexivity|].
  cbn [map flat_map]. rewrite map_app, IH, resolve_lower. reflexivity.
Qed.

(** *** The regex fragment under [IGNORECASE] *)

Lemma lit_eq_ignorecase (c d : ascii) :
  PyRe.lit_eq true c d = Ascii.eqb (lower_char c) (lower_char d).
Proof.
  unfold PyRe.lit_eq. cbn [andb].
  destruct (Ascii.eqb_spec c d) as [->|_]; [|reflexivity].
  now rewrite Ascii.eqb_refl.
Qed.

Lemma lit_eq_lower (c d : ascii) :
  PyRe.lit_eq true c (lower_char d) = PyRe.lit_eq true c d.
Proof.
  now rewrite !lit_eq_ignorecase, lower_char_idem.
Qed.

Lemma in_set_lower (ranges : list (ascii * ascii)) (d : ascii) :
  PyRe.in_set true ranges (lower_char d) = PyRe.in_set true ranges d.
Proof.
  unfold PyRe.in_set. cbn [andb].
  rewrite lower_char_idem, upper_lower_char.
  destruct (char_is_a_case_variant d) as [E|E]; rewrite <- E.
  - now rewrite orb_assoc, orb_diag.
  - destruct (existsb (PyRe.in_range (lower_char d)) ranges);
      destruct (existsb (PyRe.in_range d) ranges); reflexivity.
Qed.

Lemma match_here_times (ignorecase : bool) (r : PyRe.regex) (k : nat) (s : str) :
  PyRe.match_here ignorecase (PyRe.Times r (S k)) s
  = match PyRe.match_here ignorecase r s with
    | Some s' => PyRe.match_here ignorecase (PyRe.Times r k) s'
    | None => None
    end.
Proof. reflexivity. Qed.

Lemma match_here_lower (r : PyRe.regex) :
  PyRe.flag_free r = true ->
  forall s,
    PyRe.match_here true r (lower s)
    = option_map lower (PyRe.match_here true r s).
Proof.
  induction r as [c|ranges|r1 IH1 r2 IH2|r IH n|add remove r IH];
    intros Hfree s.
  - destruct s as [|d s]; [reflexivity|].
    cbn [lower map PyRe.match_here]. rewrite lit_eq_lower.
    destruct (PyRe.lit_eq true c d); reflexivity.
  - destruct s as [|d s]; [reflexivity|].
    cbn [lower map PyRe.match_here]. rewrite in_set_lower.
    destruct (PyRe.in_set true ranges d); reflexivity.
  - cbn [PyRe.flag_free] in Hfree. apply andb_true_iff in Hfree.
    destruct Hfree as [H1 H2]. cbn [PyRe.match_here].
    rewrite (IH1 H1).
    destruct (PyRe.match_here true r1 s) as [s'|]; [|reflexivity].
    cbn [option_map]. apply (IH2 H2).
  - cbn [PyRe.flag_free] in Hfree. revert s.
    induction n as [|k IHk]; intros s; [reflexivity|].
    rewrite !match_here_times, (IH Hfree).
    destruct (PyRe.match_here true r s) as [s'|]; [|reflexivity].
    cbn [option_map]. apply IHk.
  - discriminate.
Qed.

Lemma scan_lower (r : PyRe.regex) :
  PyRe.flag_free r = true ->
  forall s pos skip,
    PyRe.scan true r (lower s) pos skip
    = map lower_match (PyRe.scan true r s pos skip).
Proof.
  intros Hfree. induction s as [|c s IH]; intros pos skip.
  - cbn [lower map PyRe.scan].
    change (@nil ascii) with (lower []) at 1.
    rewrite (match_here_lower r Hfree).
    destruct skip; [|reflexivity].
    destruct (PyRe.match_here true r []); reflexivity.
  - change (lower (c :: s)) with (lower_char c :: lower s).
    cbn [PyRe.scan]. destruct skip as [|k]; [|apply IH].
    change (lower_char c :: lower s) with (lower (c :: s)).
    rewrite (match_here_lower r Hfree).
    destruct (PyRe.match_here true r (c :: s)) as [rest|]; [|apply IH].
    cbn [option_map map]. rewrite !lower_length, IH.
    unfold lower_match at 2. cbn [m_start m_end m_group].
    unfold lower_match. cbn [m_start m_end m_group].
    unfold lower. now rewrite firstn_map.
Qed.

Lemma flag_free_case_blind (r : PyRe.regex) :
  PyRe.flag_free r = true -> case_blind PyRe.finditer r.
Proof.
  intros Hfree t. unfold PyRe.finditer.
  change (negb (Z.land (Z.lor ReFlag.MULTILINE ReFlag.IGNORECASE)
                  ReFlag.IGNORECASE =? 0)%Z) with true.
  cbn [option_map]. f_equal. now apply scan_lower.
Qed.

(** C9 (as the code has it).  [find_ultra_precise_matches] passes
    [MULTILINE | IGNORECASE] to the engine whatever the pattern: an engine
    that differs from the given one only at flag values lacking one of
    the two flags gives the same matches.  Consequently, for every
    pattern that the engine matches without regard to letter case under
    these flags, two pages that differ in letter case only yield the same
    rectangles and, up to letter case, the same match texts: the letter
    case a pattern asks for through its literals and character classes
    is not honored.  Every pattern of the fragment without an inline flag
    group (literals, character ranges, concatenation, counted repetition)
    is matched that way; [[A-Z]{5}] finds matches on a page in lowercase,
    which it does not match without the flags. *)
Theorem C9_flags_unconditional_letter_case_not_honored
        (pattern : Type)
        (finditer : pattern -> str -> Z -> option (list RegexMatch))
        (regex_pattern : pattern) (page page' : Page) :
  case_blind finditer regex_pattern ->
  lower_page page = lower_page page' ->
  map rect (Resolver.find_ultra_precise_matches pattern finditer page
              regex_pattern)
  = map rect (Resolver.find_ultra_precise_matches pattern finditer page'
                regex_pattern)
  /\ map (fun m => lower (text m))
         (Resolver.find_ultra_precise_matches pattern finditer page
            regex_pattern)
     = map (fun m => lower (text m))
           (Resolver.find_ultra_precise_matches pattern finditer page'
              regex_pattern)
  /\ (forall other : pattern -> str -> Z -> option (list RegexMatch),
         (forall t flags,
             Z.land flags ReFlag.IGNORECASE = ReFlag.IGNORECASE ->
             Z.land flags ReFlag.MULTILINE = ReFlag.MULTILINE ->
             other regex_pattern t flags = finditer regex_pattern t flags) ->
         Resolver.find_ultra_precise_matches pattern other page regex_pattern
         = Resolver.find_ultra_precise_matches pattern finditer page
             regex_pattern)
  /\ (forall r, PyRe.flag_free r = true -> case_blind PyRe.finditer r)
  /\ (exists lowercase_page,
        lower (page_text lowercase_page) = page_text lowercase_page
        /\ Resolver.find_ultra_precise_matches PyRe.regex PyRe.finditer
             lowercase_page upper5 <> []
        /\ PyRe.finditer upper5 (page_text lowercase_page) 0 = Some []).
Proof.
  intros Hblind Hpage.
  assert (E : map lower_result
                (Resolver.find_ultra_precise_matches pattern finditer page
                   regex_pattern)
              = map lower_result
                  (Resolver.find_ultra_precise_matches pattern finditer page'
                     regex_pattern)).
  { rewrite <- !find_matches_lower_page by assumption. now rewrite Hpage. }
  split; [|split; [|split; [|split]]].
  - apply (f_equal (map rect)) in E. rewrite !map_map in E. exact E.
  - apply (f_equal (map text)) in E. rewrite !map_map in E. exact E.
  - intros other Hother. unfold Resolver.find_ultra_precise_matches.
    now rewrite Hother.
  - exact flag_free_case_blind.
  - exists hello_page. repeat split. discriminate.
Qed.

Lemma C9_witness :
  case_blind PyRe.finditer upper5
  /\ lower_page shout_page = lower_page hello_page
  /\ map rect (Resolver.find_ultra_precise_matches PyRe.regex PyRe.finditer
                 shout_page upper5)
     = map rect (Resolver.find_ultra_precise_matches PyRe.regex PyRe.finditer
                   hello_page upper5)
  /\ lower (page_text hello_page) = page_text hello_page
  /\ Resolver.find_ultra_precise_matches PyRe.regex PyRe.finditer
       hello_page upper5
     = [mkMatch (mkRect 10 10 40 22) (of_string "hello")].
Proof.
  split; [exact (flag_free_case_blind upper5 eq_refl)|].
  split; [reflexivity|].
  split; [|split; reflexivity].
  exact (proj1 (C9_flags_unconditional_letter_case_not_honored
                  PyRe.regex PyRe.finditer upper5 shout_page hello_page
                  (flag_free_case_blind upper5 eq_refl) eq_refl)).
Defined.

(** The claim as stated fails in its last clause: a pattern can switch
    [IGNORECASE] off for itself, and then its letter case is honored.
    [(?-i:[A-Z]{5})] finds ["HELLO"] and does not find ["hello"], on two
    pages that differ in letter case only. *)
Lemma C9_counterexample :
  lower_page shout_page = lower_page hello_page
  /\ Resolver.find_ultra_precise_matches PyRe.regex PyRe.finditer
       shout_page upper5_case_sensitive
     = [mkMatch (mkRect 10 10 40 22) (of_string "HELLO")]
  /\ Resolver.find_ultra_precise_matches PyRe.regex PyRe.finditer
       hello_page upper5_case_sensitive
     = []
  /\ ~ case_blind PyRe.finditer upper5_case_sensitive.
Proof.
  repeat split.
  intros H. specialize (H (of_string "HELLO")). discriminate H.
Qed.

(** ** Entity detection without a model *)

(** C8 (as the code has it).  With no model loaded, as in every detector
    just created, with or without the dependencies, [detect_entities]
    returns the empty entity list and raises the error dialog
    "No model is loaded"; the list is the one returned by any detector
    that finds nothing in the text, so the return value does not tell
    "could not run" from "nothing found". *)
Theorem C8_no_model_returns_empty_list
        (self : PIIDetector) (text : str) (selected_types : option (list str)) :
  current_model self = None ->
  detect_entities self text selected_types = ([], [no_model_dialog])
  /\ (forall deps,
        detect_entities (init deps) text selected_types
        = ([], [no_model_dialog]))
  /\ (forall other : PIIDetector,
        (forall model, current_model other = Some model ->
                       run_model model text = Some []) ->
        fst (detect_entities other text selected_types)
        = fst (detect_entities self text selected_types)).
Proof.
  intros H.
  assert (E : detect_entities self text selected_types
              = ([], [no_model_dialog])).
  { unfold detect_entities. now rewrite H. }
  split; [exact E|]. split.
  - intros deps. reflexivity.
  - intros other Hnothing. rewrite E. unfold detect_entities.
    destruct (current_model other) as [model|]; [|reflexivity].
    rewrite (Hnothing model eq_refl).
    destruct (strip text); [reflexivity|].
    destruct (current_model_name other) as [name|]; [|reflexivity].
    destruct (model_info name NLP_MODELS) as [[]|]; [| | |reflexivity];
      destruct selected_types as [[|t types]|]; reflexivity.
Qed.

Lemma C8_witness :
  detect_entities (init false) (of_string "Call John Smith")
                  (Some [of_string "PERSON"])
  = ([], [no_model_dialog])
  /\ fst (detect_entities finds_nothing (of_string "Call John Smith")
            (Some [of_string "PERSON"]))
     = fst (detect_entities (init false) (of_string "Call John Smith")
              (Some [of_string "PERSON"])).
Proof.
  split.
  - exact (proj1 (C8_no_model_returns_empty_list (init false)
                    (of_string "Call John Smith")
                    (Some [of_string "PERSON"]) eq_refl)).
  - refine (proj2 (proj2 (C8_no_model_returns_empty_list (init false)
                            (of_string "Call John Smith")
                            (Some [of_string "PERSON"]) eq_refl))
              finds_nothing _).
    intros model E. injection E as <-. reflexivity.
Defined.

(** The claim as stated fails: the unavailable detector returns the empty
    entity list, the very value returned when a loaded model finds
    nothing. *)
Lemma C8_counterexample :
  is_available (init false) false = false
  /\ current_model (init false) = None
  /\ fst (detect_entities (init false) (of_string "Call John Smith") None) = []
  /\ fst (detect_entities (init false) (of_string "Call John Smith") None)
     = fst (detect_entities finds_nothing (of_string "Call John Smith") None).
Proof.
  repeat split.
Qed.

(** ** Masking entities *)

Lemma desc_chain_weaken (masks : list Mask) (b b' : Z) :
  (b <= b')%Z -> desc_chain b masks -> desc_chain b' masks.
Proof.
  destruct masks as [|m rest]; simpl; [trivial|].
  intros Hb (H1 & H2 & H3). repeat split; try assumption; lia.
Qed.

Lemma apply_mask_app (t u : str) (m : Mask) :
  (0 <= mask_start m < mask_end m)%Z ->
  (mask_end m <= Z.of_nat (length t))%Z ->
  apply_mask (t ++ u) m = apply_mask t m ++ u.
Proof.
  intros H1 H2. unfold apply_mask.
  rewrite firstn_app, skipn_app.
  replace (Z.to_nat (mask_start m) - length t)%nat with 0%nat by lia.
  replace (Z.to_nat (mask_end m) - length t)%nat with 0%nat by lia.
  simpl. now rewrite app_nil_r, <- !app_assoc.
Qed.

Lemma apply_mask_length (t : str) (m : Mask) :
  (0 <= mask_start m < mask_end m)%Z ->
  (mask_end m <= Z.of_nat (length t))%Z ->
  Z.of_nat (length (apply_mask t m)) = (Z.of_nat (length t) + grow m)%Z.
Proof.
  intros H1 H2. unfold apply_mask, grow.
  rewrite !length_app, length_firstn, length_skipn. lia.
Qed.

(** Masks further left do not see what lies right of the bound. *)
Lemma apply_masks_app (masks : list Mask) :
  forall t u,
    desc_chain (Z.of_nat (length t)) masks ->
    apply_masks masks (t ++ u) = apply_masks masks t ++ u.
Proof.
  induction masks as [|m rest IH]; intros t u H; simpl; [reflexivity|].
  destruct H as (H1 & H2 & H3).
  rewrite apply_mask_app by assumption.
  apply IH. apply desc_chain_weaken with (mask_start m); [|assumption].
  unfold apply_mask. rewrite length_app, length_firstn. lia.
Qed.

Lemma apply_masks_cons (m : Mask) (rest : list Mask) (t : str) :
  desc_chain (Z.of_nat (length t)) (m :: rest) ->
  apply_masks (m :: rest) t
  = apply_masks rest (firstn (Z.to_nat (mask_start m)) t)
    ++ mask_str m ++ skipn (Z.to_nat (mask_end m)) t.
Proof.
  intros (H1 & H2 & H3). unfold apply_masks at 1. simpl.
  fold (apply_masks rest (apply_mask t m)).
  unfold apply_mask. apply apply_masks_app.
  rewrite length_firstn.
  replace (Z.of_nat (Nat.min (Z.to_nat (mask_start m)) (length t)))
    with (mask_start m) by lia.
  assumption.
Qed.

Lemma desc_chain_firstn (m : Mask) (rest : list Mask) (t : str) :
  desc_chain (Z.of_nat (length t)) (m :: rest) ->
  desc_chain (Z.of_nat (length (firstn (Z.to_nat (mask_start m)) t))) rest.
Proof.
  intros (H1 & H2 & H3). rewrite length_firstn.
  replace (Z.of_nat (Nat.min (Z.to_nat (mask_start m)) (length t)))
    with (mask_start m) by lia.
  assumption.
Qed.

Lemma apply_masks_length (masks : list Mask) :
  forall t,
    desc_chain (Z.of_nat (length t)) masks ->
    Z.of_nat (length (apply_masks masks t))
    = (Z.of_nat (length t) + total_grow masks)%Z.
Proof.
  induction masks as [|m rest IH]; intros t H.
  - simpl. lia.
  - rewrite apply_masks_cons by assumption.
    pose proof (desc_chain_firstn m rest t H) as H'.
    destruct H as (H1 & H2 & H3).
    rewrite !length_app, !Nat2Z.inj_add, IH by assumption.
    rewrite length_firstn, length_skipn. simpl. unfold grow. lia.
Qed.

Lemma shift_masks_all (masks : list Mask) :
  forall b i, desc_chain b masks -> (b <= i)%Z ->
              shift_masks masks i = total_grow masks.
Proof.
  induction masks as [|m rest IH]; intros b i H Hb; simpl; [reflexivity|].
  destruct H as (H1 & H2 & H3).
  replace (mask_end m <=? i)%Z with true by (symmetry; apply Z.leb_le; lia).
  rewrite (IH (mask_start m) i) by (assumption || lia). reflexivity.
Qed.

(** A character outside every mask is found unchanged, moved by the net
    growth of the masks that end before it. *)
Lemma apply_masks_outside (masks : list Mask) :
  forall t i,
    desc_chain (Z.of_nat (length t)) masks ->
    (i < length t)%nat ->
    (forall m, In m masks ->
               ~ (mask_start m <= Z.of_nat i < mask_end m)%Z) ->
    (0 <= Z.of_nat i + shift_masks masks (Z.of_nat i))%Z
    /\ nth_error (apply_masks masks t)
                 (Z.to_nat (Z.of_nat i + shift_masks masks (Z.of_nat i)))
       = nth_error t i.
Proof.
  induction masks as [|m rest IH]; intros t i H Hi Hout.
  - simpl. split; [lia|]. f_equal. lia.
  - rewrite apply_masks_cons by assumption.
    pose proof (desc_chain_firstn m rest t H) as H'.
    pose proof (apply_masks_length rest _ H') as HL.
    destruct H as (H1 & H2 & H3).
    rewrite length_firstn in HL.
    assert (Hm : ~ (mask_start m <= Z.of_nat i < mask_end m)%Z)
      by (apply Hout; now left).
    simpl shift_masks.
    destruct (Z.leb_spec (mask_end m) (Z.of_nat i)) as [Hge|Hlt].
    + rewrite (shift_masks_all rest (mask_start m)) by (assumption || lia).
      unfold grow. split; [lia|].
      rewrite nth_error_app2 by lia.
      rewrite nth_error_app2 by lia.
      rewrite nth_error_skipn. f_equal. lia.
    + assert (Hlow : (Z.of_nat i < mask_start m)%Z) by lia.
      destruct (IH (firstn (Z.to_nat (mask_start m)) t) i H') as [P1 P2].
      * rewrite length_firstn. lia.
      * intros m' Hm'. apply Hout. now right.
      * rewrite Z.add_0_l. split; [assumption|].
        rewrite nth_error_firstn in P2.
        replace (i <? Z.to_nat (mask_start m))%nat with true in P2
          by (symmetry; apply Nat.ltb_lt; lia).
        rewrite nth_error_app1; [assumption|].
        apply nth_error_Some. rewrite P2. apply nth_error_Some. assumption.
Qed.

Lemma desc_chain_ends (masks : list Mask) :
  forall b m, desc_chain b masks -> In m masks ->
              (0 <= mask_start m < mask_end m)%Z /\ (mask_end m <= b)%Z.
Proof.
  induction masks as [|h rest IH]; intros b m H Hin; [contradiction|].
  destruct H as (H1 & H2 & H3). destruct Hin as [->|Hin].
  - split; assumption.
  - destruct (IH _ _ H3 Hin) as [A B]. split; [assumption | lia].
Qed.

Lemma star_masks_total_grow (masks : list Mask) (b : Z) :
  desc_chain b masks -> Forall star_mask masks -> total_grow masks = 0%Z.
Proof.
  revert b. induction masks as [|m rest IH]; intros b H Hs; simpl; [reflexivity|].
  destruct H as (H1 & H2 & H3). inversion Hs as [|? ? Hm Hrest]; subst.
  rewrite (IH _ H3 Hrest). unfold grow. rewrite Hm.
  unfold repeat_char. rewrite repeat_length. lia.
Qed.

Lemma apply_masks_inside (masks : list Mask) :
  forall t i m,
    desc_chain (Z.of_nat (length t)) masks ->
    Forall star_mask masks ->
    In m masks ->
    (mask_start m <= Z.of_nat i < mask_end m)%Z ->
    nth_error (apply_masks masks t) i = Some "*"%char.
Proof.
  induction masks as [|h rest IH]; intros t i m H Hs Hin Hi; [contradiction|].
  rewrite apply_masks_cons by assumption.
  pose proof (desc_chain_firstn h rest t H) as H'.
  pose proof (apply_masks_length rest _ H') as HL.
  destruct H as (H1 & H2 & H3).
  inversion Hs as [|? ? Hh Hrest]; subst.
  rewrite (star_masks_total_grow rest _ H3 Hrest), length_firstn in HL.
  destruct Hin as [->|Hin].
  - rewrite nth_error_app2 by lia.
    rewrite nth_error_app1.
    + rewrite Hh. unfold repeat_char. apply nth_error_repeat. lia.
    + rewrite Hh. unfold repeat_char. rewrite repeat_length. lia.
  - destruct (desc_chain_ends rest _ m H3 Hin) as [A B].
    rewrite nth_error_app1 by lia.
    apply (IH _ i m); assumption.
Qed.

(** *** The sort *)

Lemma insert_desc_perm (m : Mask) (l : list Mask) :
  Permutation (insert_desc m l) (m :: l).
Proof.
  induction l as [|h t IH]; simpl; [reflexivity|].
  destruct (mask_start m <? mask_start h)%Z; [|reflexivity].
  rewrite IH. apply perm_swap.
Qed.

Lemma sort_desc_perm (l : list Mask) : Permutation (sort_desc l) l.
Proof.
  induction l as [|m t IH]; simpl; [reflexivity|].
  rewrite insert_desc_perm. now constructor.
Qed.

Lemma insert_desc_sorted (m : Mask) (l : list Mask) :
  sorted_desc l -> sorted_desc (insert_desc m l).
Proof.
  induction l as [|h t IH]; intros H; simpl.
  - split; constructor.
  - destruct H as [Hh Ht].
    destruct (Z.ltb_spec (mask_start m) (mask_start h)) as [Hlt|Hge]; simpl.
    + split; [|now apply IH].
      apply Permutation_Forall with (m :: t);
        [symmetry; apply insert_desc_perm|].
      constructor; [lia | assumption].
    + split; [|split; assumption].
      constructor; [assumption|].
      eapply Forall_impl; [|exact Hh]. simpl. intros a Ha. lia.
Qed.

Lemma sort_desc_sorted (l : list Mask) : sorted_desc (sort_desc l).
Proof.
  induction l as [|m t IH]; simpl; [exact I|].
  now apply insert_desc_sorted.
Qed.

(** *** Pairwise properties *)

Lemma pairwise_perm {A : Type} (R : A -> A -> Prop) (l l' : list A) :
  (forall a b, R a b -> R b a) ->
  Permutation l l' -> pairwise R l -> pairwise R l'.
Proof.
  intros Hsym Hp. induction Hp as [|x l l' Hp IH|x y l|l l' l'' H1 IH1 H2 IH2];
    simpl.
  - trivial.
  - intros [Hx Hl]. split; [now apply Permutation_Forall with l | now apply IH].
  - intros (Hy & Hx & Hl).
    inversion Hy as [|? ? Hyx Hyl]; subst.
    repeat split; try assumption.
    constructor; [now apply Hsym | assumption].
  - intros H. now apply IH2, IH1.
Qed.

Lemma pairwise_map {A B : Type} (R : A -> A -> Prop) (S : B -> B -> Prop)
      (f : A -> B) (l : list A) :
  (forall a b, R a b -> S (f a) (f b)) ->
  pairwise R l -> pairwise S (map f l).
Proof.
  intros Hf. induction l as [|a l IH]; simpl; [trivial|].
  intros [Ha Hl]. split; [|now apply IH].
  apply Forall_map. eapply Forall_impl; [|exact Ha]. intros b. apply Hf.
Qed.

Lemma desc_chain_of_sorted (l : list Mask) :
  forall b,
    sorted_desc l -> pairwise mask_disjoint l ->
    Forall (mask_ok b) l -> desc_chain b l.
Proof.
  induction l as [|m rest IH]; intros b Hs Hd Hok; simpl; [trivial|].
  destruct Hs as [Hm Hs]. destruct Hd as [Hdm Hd].
  inversion Hok as [|? ? [Hm1 Hm2] Hrest]; subst.
  repeat split; try lia.
  apply IH; try assumption.
  rewrite Forall_forall in *. intros m' Hin.
  specialize (Hm m' Hin). specialize (Hdm m' Hin).
  destruct (Hrest m' Hin) as [A B].
  split; [assumption|]. destruct Hdm as [Hd1|Hd1]; lia.
Qed.

(** *** From entities to masks *)

Lemma filter_all {A : Type} (p : A -> bool) (l : list A) :
  Forall (fun a => p a = true) l -> filter p l = l.
Proof.
  induction 1 as [|a l Ha _ IH]; simpl; [reflexivity|].
  now rewrite Ha, IH.
Qed.

Lemma build_masks_spec (text style : str) (entities : list Entity) :
  Forall (span_ok text) entities ->
  build_masks text style entities = map (mask_of text style) entities.
Proof.
  intros Hok. unfold build_masks.
  rewrite fold_left_ext
    with (g := fun masks e =>
                 masks ++ (if valid_indices text (ent_start e) (ent_end e)
                           then [mask_of text style e] else [])).
  - rewrite fold_left_snoc_flat_map. simpl.
    rewrite (flat_map_filter_map
               (fun e => valid_indices text (ent_start e) (ent_end e))
               (mask_of text style)).
    now rewrite filter_all.
  - intros masks e. unfold masks_step.
    destruct (valid_indices _ _ _); [reflexivity | now rewrite app_nil_r].
Qed.

Lemma mask_entities_eq (text : str) (entities : list Entity) (style : str) :
  mask_entities text entities style
  = apply_masks (sort_desc (build_masks text style entities)) text.
Proof.
  unfold mask_entities. destruct entities as [|e rest]; [reflexivity|].
  destruct (build_masks text style (e :: rest)); reflexivity.
Qed.

Lemma span_ok_bounds (text : str) (e : Entity) :
  span_ok text e ->
  (0 <= ent_start e < ent_end e)%Z /\ (ent_end e <= Z.of_nat (length text))%Z.
Proof.
  unfold span_ok, valid_indices. intros H.
  repeat (apply andb_true_iff in H; destruct H as [H ?]).
  lia.
Qed.

Lemma slice_length (text : str) (e : Entity) :
  span_ok text e ->
  length (slice text (ent_start e) (ent_end e))
  = Z.to_nat (ent_end e - ent_start e).
Proof.
  intros H. apply span_ok_bounds in H. unfold slice.
  rewrite length_firstn, length_skipn. lia.
Qed.

Lemma net_shift_shift_masks (text style : str) (entities : list Entity) (i : nat) :
  net_shift text style entities i
  = shift_masks (map (mask_of text style) entities) (Z.of_nat i).
Proof.
  induction entities as [|e rest IH]; simpl; [reflexivity|].
  now rewrite IH.
Qed.

Lemma shift_masks_perm (l l' : list Mask) (i : Z) :
  Permutation l l' -> shift_masks l i = shift_masks l' i.
Proof.
  induction 1; simpl; lia.
Qed.

(** The sorted masks of valid, pairwise disjoint entities run from right
    to left without overlap. *)
Lemma sorted_masks_chain (text style : str) (entities : list Entity) :
  Forall (span_ok text) entities ->
  pairwise disjoint entities ->
  desc_chain (Z.of_nat (length text))
             (sort_desc (map (mask_of text style) entities)).
Proof.
  intros Hok Hd. apply desc_chain_of_sorted.
  - apply sort_desc_sorted.
  - apply pairwise_perm with (map (mask_of text style) entities).
    + unfold mask_disjoint. intros a b [H|H]; [now right | now left].
    + symmetry. apply sort_desc_perm.
    + apply pairwise_map with (R := disjoint); [|assumption].
      intros a b H. exact H.
  - apply Permutation_Forall with (map (mask_of text style) entities).
    + symmetry. apply sort_desc_perm.
    + apply Forall_map. eapply Forall_impl; [|exact Hok].
      intros e He. apply span_ok_bounds in He. exact He.
Qed.

Lemma full_mask_star (text : str) (e : Entity) :
  span_ok text e -> star_mask (mask_of text (of_string "full_mask") e).
Proof.
  intros H. unfold star_mask, mask_of, mask_str, mask_end, mask_start.
  cbn [fst snd]. rewrite <- (slice_length text e H). reflexivity.
Qed.

Lemma full_mask_net_shift (text : str) (entities : list Entity) (i : nat) :
  Forall (span_ok text) entities ->
  net_shift text (of_string "full_mask") entities i = 0%Z.
Proof.
  induction 1 as [|e rest He _ IH]; cbn [net_shift]; [reflexivity|].
  rewrite IH.
  change (mask_text (of_string "full_mask") (entity e)
            (slice text (ent_start e) (ent_end e)))
    with (repeat_char "*"%char (length (slice text (ent_start e) (ent_end e)))).
  unfold repeat_char. rewrite repeat_length, (slice_length text e He).
  apply span_ok_bounds in He. destruct (_ <=? _)%Z; lia.
Qed.

(** C10. For entities whose indices are valid for the text and whose spans
    are pairwise non-overlapping, [mask_entities] rewrites the spans only:
    whatever the style, a character outside every span is found unchanged
    in the output, at its position moved by the net length change of the
    masks that end before it.  With style ["full_mask"] the output has the
    length of the input, every character outside the spans keeps its
    position, and every position inside a span holds ['*']. *)
Theorem C10_mask_entities_rewrites_spans_only
        (text : str) (entities : list Entity) :
  Forall (span_ok text) entities ->
  pairwise disjoint entities ->
  (forall style i,
      (i < length text)%nat -> outside_spans i entities ->
      (0 <= Z.of_nat i + net_shift text style entities i)%Z
      /\ nth_error (mask_entities text entities style)
                   (Z.to_nat (Z.of_nat i + net_shift text style entities i))
         = nth_error text i)
  /\ length (mask_entities text entities (of_string "full_mask"))
     = length text
  /\ (forall i,
         (i < length text)%nat -> outside_spans i entities ->
         nth_error (mask_entities text entities (of_string "full_mask")) i
         = nth_error text i)
  /\ (forall i e,
         In e entities -> in_span i e ->
         nth_error (mask_entities text entities (of_string "full_mask")) i
         = Some "*"%char).
Proof.
  intros Hok Hd.
  assert (Hout : forall style i,
             (i < length text)%nat -> outside_spans i entities ->
             (0 <= Z.of_nat i + net_shift text style entities i)%Z
             /\ nth_error (mask_entities text entities style)
                  (Z.to_nat (Z.of_nat i + net_shift text style entities i))
                = nth_error text i).
  { intros style i Hi Ho.
    rewrite mask_entities_eq, build_masks_spec, net_shift_shift_masks
      by assumption.
    rewrite (shift_masks_perm _ _ (Z.of_nat i)
               (Permutation_sym (sort_desc_perm (map (mask_of text style) entities)))).
    apply apply_masks_outside.
    - now apply sorted_masks_chain.
    - assumption.
    - intros m Hm Hin.
      apply (Permutation_in _ (sort_desc_perm _)) in Hm.
      apply in_map_iff in Hm. destruct Hm as (e & <- & He).
      now apply (Ho e He). }
  pose proof (sorted_masks_chain text (of_string "full_mask") entities Hok Hd)
    as Hchain.
  assert (Hstars : Forall star_mask
                     (sort_desc (map (mask_of text (of_string "full_mask"))
                                     entities))).
  { apply Permutation_Forall
      with (map (mask_of text (of_string "full_mask")) entities).
    - symmetry. apply sort_desc_perm.
    - apply Forall_map. eapply Forall_impl; [|exact Hok].
      intros e. apply full_mask_star. }
  split; [exact Hout|]. split; [|split].
  - rewrite mask_entities_eq, build_masks_spec by assumption.
    pose proof (apply_masks_length _ text Hchain) as HL.
    rewrite (star_masks_total_grow _ _ Hchain Hstars) in HL. lia.
  - intros i Hi Ho.
    destruct (Hout (of_string "full_mask") i Hi Ho) as [_ H].
    rewrite full_mask_net_shift in H by assumption.
    rewrite Z.add_0_r, Nat2Z.id in H. exact H.
  - intros i e He Hi.
    rewrite mask_entities_eq, build_masks_spec by assumption.
    apply apply_masks_inside
      with (m := mask_of text (of_string "full_mask") e); try assumption.
    apply (Permutation_in _ (Permutation_sym (sort_desc_perm _))).
    now apply in_map.
Qed.

Lemma C10_witness :
  length (mask_entities call_text call_entities (of_string "full_mask"))
  = length call_text
  /\ mask_entities call_text call_entities (of_string "full_mask")
     = of_string "Hello **********, call ***"
  /\ mask_entities call_text call_entities (of_string "type_label")
     = of_string "Hello <PERSON>, call <PERSON>".
Proof.
  split; [|split; reflexivity].
  refine (proj1 (proj2 (C10_mask_entities_rewrites_spans_only
                          call_text call_entities _ _))).
  - repeat constructor.
  - simpl. repeat split; repeat constructor; unfold disjoint; simpl; lia.
Defined.


(** * Further properties of the resolver *)

(** ** Substring-within-word (method 2) *)

Lemma startswith_length (p s : str) :
  startswith p s = true -> (length p <= length s)%nat.
Proof.
  revert s. induction p as [|a p IH]; intros [|b s] H; simpl in *;
    try lia; try discriminate.
  destruct (ascii_dec a b); [|discriminate].
  specialize (IH s H). lia.
Qed.

Lemma find_from_bound (sub s : str) :
  forall i, (0 <= i)%Z -> (0 <= find_from sub s i)%Z ->
            (find_from sub s i - i + Z.of_nat (length sub) <= Z.of_nat (length s))%Z.
Proof.
  induction s as [|c s IH]; intros i Hi H; simpl in *.
  - destruct (startswith sub []) eqn:E; [|lia].
    apply startswith_length in E. simpl in E. lia.
  - destruct (startswith sub (c :: s)) eqn:E.
    + apply startswith_length in E. simpl in E. lia.
    + specialize (IH (i + 1)%Z). lia.
Qed.

Lemma find_bound (sub s : str) :
  (0 <= find sub s)%Z ->
  (find sub s + Z.of_nat (length sub) <= Z.of_nat (length s))%Z.
Proof.
  intros H. pose proof (find_from_bound sub s 0%Z) as B. unfold find in *.
  specialize (B ltac:(lia) H). lia.
Qed.

Lemma partial_match_spec (words : list Word) (target_text : str) :
  WordLevel.partial_match words target_text (lower target_text)
  = map (fun w => WordLevel.partial_rect w
                    (find (lower target_text) (lower (word_text w)))
                    target_text)
        (filter (fun w => contains (lower target_text) (lower (word_text w)))
                words).
Proof.
  unfold WordLevel.partial_match.
  rewrite fold_left_ext
    with (g := fun acc w =>
                 acc ++ (if contains (lower target_text) (lower (word_text w))
                         then [WordLevel.partial_rect w
                                 (find (lower target_text) (lower (word_text w)))
                                 target_text]
                         else [])).
  - rewrite fold_left_snoc_flat_map. simpl.
    apply (flat_map_filter_map
             (fun w => contains (lower target_text) (lower (word_text w)))).
  - intros acc w. unfold WordLevel.partial_step.
    destruct (contains _ _) eqn:E; [|now rewrite app_nil_r].
    apply contains_find in E. apply Z.leb_le in E. now rewrite E.
Qed.

(** [find] returns the lowest index at which [sub] occurs. *)
Lemma find_from_least (sub s : str) :
  forall i, (0 <= i)%Z -> (0 <= find_from sub s i)%Z ->
    (i <= find_from sub s i)%Z
    /\ startswith sub (skipn (Z.to_nat (find_from sub s i - i)) s) = true
    /\ (forall j, (j < Z.to_nat (find_from sub s i - i))%nat ->
                  startswith sub (skipn j s) = false).
Proof.
  induction s as [|c s IH]; intros i Hi H; cbn [find_from] in *.
  - destruct (startswith sub []) eqn:E; [|lia].
    rewrite Z.sub_diag. repeat split; [lia | exact E | intros j Hj; inversion Hj].
  - destruct (startswith sub (c :: s)) eqn:E.
    + rewrite Z.sub_diag. repeat split; [lia | exact E | intros j Hj; inversion Hj].
    + destruct (IH (i + 1)%Z ltac:(lia) H) as (A & B & C).
      replace (Z.to_nat (find_from sub s (i + 1) - i))
        with (S (Z.to_nat (find_from sub s (i + 1) - (i + 1)))) by lia.
      repeat split; [lia | exact B |].
      intros [|j] Hj; [exact E | apply C; lia].
Qed.

(** X1. The substring method boxes, in every word whose lowercased text
    contains the lowercased target, the first occurrence only: one
    rectangle per such word, in page order, with the word's vertical
    extent, placed at the lowest index at which the target occurs in the
    word; a later occurrence in the same word gets no rectangle. *)
Theorem X1_substring_boxes_first_occurrence_only
        (words : list Word) (target_text : str) (w : Word) :
  In w words ->
  contains (lower target_text) (lower (word_text w)) = true ->
  let start_pos := find (lower target_text) (lower (word_text w)) in
  let r := WordLevel.partial_rect w start_pos target_text in
  WordLevel.partial_match words target_text (lower target_text)
  = map (fun w' => WordLevel.partial_rect w'
                     (find (lower target_text) (lower (word_text w')))
                     target_text)
        (filter (fun w' => contains (lower target_text) (lower (word_text w')))
                words)
  /\ In r (WordLevel.partial_match words target_text (lower target_text))
  /\ (0 <= start_pos)%Z
  /\ (start_pos + Z.of_nat (length target_text)
      <= Z.of_nat (length (word_text w)))%Z
  /\ startswith (lower target_text)
       (skipn (Z.to_nat start_pos) (lower (word_text w))) = true
  /\ (forall j, (j < Z.to_nat start_pos)%nat ->
                startswith (lower target_text)
                  (skipn j (lower (word_text w))) = false)
  /\ y0 r = word_y0 w /\ y1 r = word_y1 w.
Proof.
  intros Hin Hc start_pos r.
  pose proof (proj1 (contains_find _ _) Hc) as Hpos.
  pose proof (find_bound _ _ Hpos) as Hb. rewrite !lower_length in Hb.
  destruct (find_from_least (lower target_text) (lower (word_text w)) 0%Z
              ltac:(lia) Hpos) as (_ & Hat & Hbefore).
  rewrite Z.sub_0_r in Hat, Hbefore.
  split; [apply partial_match_spec|]. split.
  - rewrite partial_match_spec. apply in_map_iff. exists w.
    split; [reflexivity|]. apply filter_In. now split.
  - repeat split; assumption.
Qed.

Lemma X1_witness :
  WordLevel.partial_match
    [mkWord 0 0 12 10 (of_string "Banana-banana") 0 0 0;
     mkWord 14 0 20 10 (of_string "apple") 0 0 1]
    (of_string "ana") (lower (of_string "ana"))
  = [WordLevel.partial_rect
       (mkWord 0 0 12 10 (of_string "Banana-banana") 0 0 0) 1
       (of_string "ana")].
Proof.
  exact (proj1 (X1_substring_boxes_first_occurrence_only
                  [mkWord 0 0 12 10 (of_string "Banana-banana") 0 0 0;
                   mkWord 14 0 20 10 (of_string "apple") 0 0 1]
                  (of_string "ana")
                  (mkWord 0 0 12 10 (of_string "Banana-banana") 0 0 0)
                  (or_introl eq_refl) eq_refl)).
Defined.

(** ** The match list of [find_ultra_precise_matches] *)

Lemma find_matches_flat_map
      (pattern : Type) (finditer : pattern -> str -> Z -> option (list RegexMatch))
      (page : Page) (p : pattern) (found : list RegexMatch) :
  finditer p (page_text page) (Z.lor ReFlag.MULTILINE ReFlag.IGNORECASE)
  = Some found ->
  Resolver.find_ultra_precise_matches pattern finditer page p
  = flat_map (Resolver.resolve (page_words page)) found.
Proof.
  intros H. unfold Resolver.find_ultra_precise_matches. rewrite H.
  now rewrite fold_left_snoc_flat_map.
Qed.

Lemma resolve_no_words (rm : RegexMatch) : Resolver.resolve [] rm = [].
Proof.
  unfold Resolver.resolve.
  destruct (strip (m_group rm)) as [|c t] eqn:E; [reflexivity|].
  destruct (length (c :: t) =? 1)%nat; [reflexivity|].
  unfold WordLevel.get_word_level_boundaries. simpl.
  unfold WordLevel.multi_word_match.
  destruct (1 <? length (split (c :: t)))%nat eqn:En; [|reflexivity].
  apply Nat.ltb_lt in En. unfold WordLevel.window_starts. simpl length.
  replace (Z.to_nat (Z.of_nat 0 - Z.of_nat (length (split (c :: t))) + 1))
    with 0%nat by lia.
  reflexivity.
Qed.

(** X3. A page without words yields no match, whatever the engine finds
    in the page text: a regex hit that no word accounts for is dropped. *)
Theorem X3_no_words_no_matches
        (pattern : Type) (finditer : pattern -> str -> Z -> option (list RegexMatch))
        (page : Page) (p : pattern) :
  page_words page = [] ->
  Resolver.find_ultra_precise_matches pattern finditer page p = [].
Proof.
  intros Hw. unfold Resolver.find_ultra_precise_matches. rewrite Hw.
  destruct (finditer _ _ _) as [found|]; [|reflexivity].
  rewrite fold_left_snoc_flat_map. simpl.
  induction found as [|rm found IH]; simpl; [reflexivity|].
  now rewrite resolve_no_words, IH.
Qed.

Lemma X3_witness :
  PyRe.finditer upper5 (of_string "hello") (Z.lor ReFlag.MULTILINE ReFlag.IGNORECASE)
  = Some [mkRegexMatch 0 5 (of_string "hello")]
  /\ Resolver.find_ultra_precise_matches PyRe.regex PyRe.finditer
       (mkPage [] (of_string "hello")) upper5 = [].
Proof.
  split; [reflexivity|].
  exact (X3_no_words_no_matches PyRe.regex PyRe.finditer
           (mkPage [] (of_string "hello")) upper5 eq_refl).
Defined.

Lemma resolve_text (words : list Word) (rm : RegexMatch) (m : Match) :
  In m (Resolver.resolve words rm) ->
  text m = strip (m_group rm) /\ text m <> [].
Proof.
  unfold Resolver.resolve.
  destruct (strip (m_group rm)) as [|c t] eqn:E; [contradiction|].
  destruct (length (c :: t) =? 1)%nat; intros H;
    apply in_map_iff in H; destruct H as (r & <- & _); simpl;
    split; congruence.
Qed.

(** X4. Every match carries the stripped text of one of the engine's
    regex matches, and that text is never empty: a regex match made of
    whitespace only produces nothing. *)
Theorem X4_match_text_is_a_stripped_regex_match
        (pattern : Type) (finditer : pattern -> str -> Z -> option (list RegexMatch))
        (page : Page) (p : pattern) (m : Match) :
  In m (Resolver.find_ultra_precise_matches pattern finditer page p) ->
  text m <> []
  /\ exists found rm,
       finditer p (page_text page) (Z.lor ReFlag.MULTILINE ReFlag.IGNORECASE)
       = Some found
       /\ In rm found
       /\ text m = strip (m_group rm).
Proof.
  intros H.
  destruct (finditer p (page_text page)
              (Z.lor ReFlag.MULTILINE ReFlag.IGNORECASE)) as [found|] eqn:E.
  - rewrite (find_matches_flat_map pattern finditer page p found E) in H.
    apply in_flat_map in H. destruct H as (rm & Hrm & Hm).
    destruct (resolve_text _ _ _ Hm) as [Ht Hne].
    split; [assumption|]. now exists found, rm.
  - unfold Resolver.find_ultra_precise_matches in H. rewrite E in H.
    contradiction.
Qed.

Lemma X4_witness :
  text (mkMatch (mkRect 10 10 40 22) (of_string "hello")) <> [].
Proof.
  refine (proj1 (X4_match_text_is_a_stripped_regex_match
                   PyRe.regex PyRe.finditer hello_page upper5
                   (mkMatch (mkRect 10 10 40 22) (of_string "hello")) _)).
  left. reflexivity.
Defined.

Lemma length_flat_map_const {A B : Type} (f : A -> list B) (l : list A) (n : nat) :
  (forall a, In a l -> length (f a) = n) ->
  length (flat_map f l) = (length l * n)%nat.
Proof.
  induction l as [|a l IH]; intros H; simpl; [reflexivity|].
  rewrite length_app, H by now left.
  rewrite IH by (intros b Hb; apply H; now right). reflexivity.
Qed.

(** X5. The resolver is run once per regex match and searches the whole
    page each time: when the engine reports [k] matches of the same text
    of two or more characters, the match list holds [k] copies of the
    rectangles of that text, [k] times their number. *)
Theorem X5_one_resolution_per_regex_match
        (pattern : Type) (finditer : pattern -> str -> Z -> option (list RegexMatch))
        (page : Page) (p : pattern) (found : list RegexMatch) (t : str) :
  finditer p (page_text page) (Z.lor ReFlag.MULTILINE ReFlag.IGNORECASE)
  = Some found ->
  (forall rm, In rm found -> strip (m_group rm) = t) ->
  (2 <= length t)%nat ->
  Resolver.find_ultra_precise_matches pattern finditer page p
  = flat_map (fun _ => map (fun r => mkMatch r t)
                           (WordLevel.get_word_level_boundaries
                              (page_words page) t))
             found
  /\ length (Resolver.find_ultra_precise_matches pattern finditer page p)
     = (length found
        * length (WordLevel.get_word_level_boundaries (page_words page) t))%nat.
Proof.
  intros E Hall Ht.
  assert (R : forall rm, In rm found ->
                         Resolver.resolve (page_words page) rm
                         = map (fun r => mkMatch r t)
                               (WordLevel.get_word_level_boundaries
                                  (page_words page) t)).
  { intros rm Hrm. unfold Resolver.resolve. rewrite (Hall rm Hrm).
    destruct t as [|c [|c' t']]; simpl in Ht; try lia. reflexivity. }
  rewrite (find_matches_flat_map pattern finditer page p found E).
  split.
  - clear E Hall. induction found as [|rm found IH]; simpl; [reflexivity|].
    rewrite R by now left.
    rewrite IH by (intros rm' H'; apply R; now right). reflexivity.
  - rewrite (length_flat_map_const _ _
               (length (WordLevel.get_word_level_boundaries (page_words page) t))).
    + reflexivity.
    + intros rm Hrm. now rewrite R, length_map.
Qed.

Lemma X5_witness :
  length (Resolver.find_ultra_precise_matches PyRe.regex PyRe.finditer
            date_page (PyRe.literal (of_string "2024-01-01")))
  = (3 * 3)%nat.
Proof.
  refine (proj2 (X5_one_resolution_per_regex_match
                   PyRe.regex PyRe.finditer date_page
                   (PyRe.literal (of_string "2024-01-01"))
                   [ mkRegexMatch 0 10 (of_string "2024-01-01");
                     mkRegexMatch 16 26 (of_string "2024-01-01");
                     mkRegexMatch 27 37 (of_string "2024-01-01") ]
                   (of_string "2024-01-01") _ _ _)).
  - reflexivity.
  - intros rm [<-|[<-|[<-|[]]]]; reflexivity.
  - vm_compute. lia.
Defined.


(** * Further properties of the merger *)

Lemma Qlt_bool_iff (a b : Q) : Qlt_bool a b = true <-> a < b.
Proof.
  split; [apply Qlt_bool_true|].
  intros H. unfold Qlt_bool. destruct (Qle_bool b a) eqn:E; [|reflexivity].
  apply Qle_bool_iff in E. lra.
Qed.

Lemma passes_threshold_iff (r : Rect) :
  passes_threshold r = true <-> (1 # 10) < x1 r - x0 r /\ (1 # 10) < y1 r - y0 r.
Proof.
  split.
  - intros H. apply passes_threshold_positive in H as Hpos.
    unfold passes_threshold, width, height in H.
    apply andb_true_iff in H. destruct H as [Hw Hh].
    apply Qmax_0_gt in Hw; [|lra]. apply Qmax_0_gt in Hh; [|lra]. now split.
  - intros [Hw Hh]. unfold passes_threshold, width, height.
    apply andb_true_iff. split; apply Qlt_bool_iff.
    + apply Qlt_le_trans with (x1 r - x0 r); [assumption | apply Q.le_max_r].
    + apply Qlt_le_trans with (y1 r - y0 r); [assumption | apply Q.le_max_r].
Qed.

Lemma filter_map_comm {A B : Type} (p : B -> bool) (f : A -> B) (l : list A) :
  filter p (map f l) = map f (filter (fun a => p (f a)) l).
Proof.
  induction l as [|a l IH]; simpl; [reflexivity|].
  destruct (p (f a)); simpl; now rewrite IH.
Qed.

Lemma filter_idem {A : Type} (p : A -> bool) (l : list A) :
  filter p (filter p l) = filter p l.
Proof.
  induction l as [|a l IH]; simpl; [reflexivity|].
  destruct (p a) eqn:E; simpl; [now rewrite E, IH | assumption].
Qed.

Lemma apply_spec (matches : list Match) :
  apply_ultra_precise_redaction matches
  = mkOutcome (merge (padded_survivors matches))
              (length (filter passes_threshold (map rect matches))).
Proof.
  unfold apply_ultra_precise_redaction. now rewrite collect_spec.
Qed.

(** X6. A rectangle is kept exactly when it is more than 0.1 wide and more
    than 0.1 high (an inverted rectangle never is); the rectangles that
    are not kept have no effect at all: the outcome is that of the kept
    matches alone, and when none is kept nothing is applied and the count
    is 0. *)
Theorem X6_rejected_rectangles_have_no_effect (matches : list Match) :
  (forall m, In m matches -> passes_threshold (rect m) = false) ->
  apply_ultra_precise_redaction matches = mkOutcome [] 0
  /\ (forall others,
        apply_ultra_precise_redaction (others ++ matches)
        = apply_ultra_precise_redaction others
        /\ apply_ultra_precise_redaction (matches ++ others)
           = apply_ultra_precise_redaction others)
  /\ (forall r, passes_threshold r = true
                <-> (1 # 10) < x1 r - x0 r /\ (1 # 10) < y1 r - y0 r).
Proof.
  intros Hnone.
  assert (F : filter passes_threshold (map rect matches) = []).
  { apply filter_none. intros r Hr. apply in_map_iff in Hr.
    destruct Hr as (m & <- & Hm). now apply Hnone. }
  split; [|split].
  - rewrite apply_spec. unfold padded_survivors. now rewrite F.
  - intros others. rewrite !apply_spec. unfold padded_survivors.
    rewrite !map_app, !filter_app, F, app_nil_r. simpl. auto.
  - apply passes_threshold_iff.
Qed.

Lemma X6_witness :
  apply_ultra_precise_redaction thin_matches = mkOutcome [] 0.
Proof.
  refine (proj1 (X6_rejected_rectangles_have_no_effect thin_matches _)).
  intros m [<-|[<-|[]]]; reflexivity.
Defined.

(** *** Where the merged regions come from *)

Lemma edges_from_self (l : list Rect) (r : Rect) :
  In r l -> edges_from l r.
Proof.
  intros H. unfold edges_from.
  repeat split; try (exists r; split; [assumption | reflexivity]).
  exists r. split; [assumption | apply contains_rect_refl].
Qed.

Lemma edges_from_union (l : list Rect) (g r : Rect) :
  edges_from l g -> In r l -> edges_from l (util_union_rect g r).
Proof.
  intros (A & B & C & D & (e & He & Hc)) Hr.
  unfold edges_from, util_union_rect. simpl.
  split; [|split; [|split; [|split]]].
  - destruct (Qlt_bool (x0 r) (x0 g)); [now exists r | exact A].
  - destruct (Qlt_bool (y0 r) (y0 g)); [now exists r | exact B].
  - destruct (Qlt_bool (x1 g) (x1 r)); [now exists r | exact C].
  - destruct (Qlt_bool (y1 g) (y1 r)); [now exists r | exact D].
  - exists e. split; [assumption|].
    apply contains_rect_trans with g; [|assumption].
    apply (proj1 (util_union_rect_contains g r)).
Qed.

Lemma absorb_edges (l merged : list Rect) (r : Rect) :
  In r l ->
  forall merged',
    absorb merged r = Some merged' ->
    Forall (edges_from l) merged -> Forall (edges_from l) merged'.
Proof.
  intros Hr. induction merged as [|g merged IH]; intros merged' H Hm;
    simpl in H; [discriminate|].
  inversion Hm as [|? ? Hg Hrest]; subst.
  destruct (intersects g r) eqn:Ei.
  - inversion H; subst merged'. constructor; [|assumption].
    apply intersects_nonempty in Ei. destruct Ei as [Eg Er].
    unfold include_rect. rewrite Er, Eg. now apply edges_from_union.
  - destruct (absorb merged r) as [m'|] eqn:Ea; simpl in H; [|discriminate].
    inversion H; subst merged'. constructor; [assumption|].
    now apply IH.
Qed.

Lemma merge_fold_edges (l : list Rect) :
  forall todo merged,
    (forall r, In r todo -> In r l) ->
    Forall (edges_from l) merged ->
    Forall (edges_from l) (fold_left merge_step todo merged).
Proof.
  induction todo as [|r todo IH]; intros merged Hsub Hm; simpl; [assumption|].
  apply IH; [intros r' H'; apply Hsub; now right|].
  unfold merge_step. destruct (absorb merged r) as [m'|] eqn:Ea.
  - apply (absorb_edges l merged r); [apply Hsub; now left | assumption..].
  - apply Forall_snoc; [assumption|].
    apply edges_from_self, Hsub. now left.
Qed.

Lemma padded_survivor_nonempty (matches : list Match) (r : Rect) :
  In r (padded_survivors matches) -> x0 r < x1 r /\ y0 r < y1 r.
Proof.
  unfold padded_survivors. intros H. apply in_map_iff in H.
  destruct H as (q & <- & Hq). apply filter_In in Hq. destruct Hq as [_ Hq].
  apply passes_threshold_positive in Hq. destruct Hq as [Hx Hy].
  unfold pad, padding. simpl. split; lra.
Qed.

(** X7. A merged region never reaches beyond the padded input
    rectangles: each of its four edges is the corresponding edge of a
    padded rectangle that passed the threshold, it contains one of them,
    and it has positive width and height. *)
Theorem X7_regions_are_spanned_by_padded_inputs
        (matches : list Match) (region : Rect) :
  In region (applied_regions (apply_ultra_precise_redaction matches)) ->
  edges_from (padded_survivors matches) region
  /\ x0 region < x1 region /\ y0 region < y1 region.
Proof.
  intros H. rewrite apply_spec in H. simpl in H.
  assert (E : edges_from (padded_survivors matches) region).
  { unfold merge in H.
    assert (F : Forall (edges_from (padded_survivors matches))
                  (fold_left merge_step (sorted (padded_survivors matches)) [])).
    { apply merge_fold_edges; [|constructor].
      intros r Hr.
      apply Permutation_in with (sorted (padded_survivors matches));
        [apply sorted_perm | assumption]. }
    rewrite Forall_forall in F. now apply F. }
  split; [exact E|].
  destruct E as (_ & _ & _ & _ & (e & He & (C1 & C2 & C3 & C4))).
  destruct (padded_survivor_nonempty matches e He) as [Hx Hy].
  split; lra.
Qed.

Lemma X7_witness :
  edges_from (padded_survivors three_matches) (mkRect 8 8 92 26).
Proof.
  refine (proj1 (X7_regions_are_spanned_by_padded_inputs three_matches
                   (mkRect 8 8 92 26) _)).
  left. reflexivity.
Defined.

(** *** Rectangles that stay apart *)

Lemma absorb_apart (merged : list Rect) (r : Rect) :
  Forall (fun g => intersects g r = false) merged -> absorb merged r = None.
Proof.
  induction 1 as [|g merged Hg _ IH]; simpl; [reflexivity|].
  now rewrite Hg, IH.
Qed.

Lemma merge_fold_apart (todo : list Rect) :
  forall merged,
    pairwise apart todo ->
    Forall (fun g => Forall (apart g) todo) merged ->
    fold_left merge_step todo merged = merged ++ todo.
Proof.
  induction todo as [|r todo IH]; intros merged Hp Hm; simpl.
  - now rewrite app_nil_r.
  - destruct Hp as [Hr Hp].
    unfold merge_step. rewrite absorb_apart.
    + rewrite IH; [now rewrite <- app_assoc | assumption |].
      apply Forall_app. split.
      * eapply Forall_impl; [|exact Hm]. intros g Hg.
        now inversion Hg.
      * constructor; [assumption | constructor].
    + eapply Forall_impl; [|exact Hm]. intros g Hg.
      inversion Hg as [|? ? [Hgr _] _]; subst. exact Hgr.
Qed.

(** X8. When the padded rectangles that passed the threshold are pairwise
    non-intersecting, nothing is merged: the applied regions are these
    rectangles sorted by [(y0, x0)], and their number is the returned
    count. *)
Theorem X8_separate_rectangles_are_only_sorted (matches : list Match) :
  pairwise apart (padded_survivors matches) ->
  applied_regions (apply_ultra_precise_redaction matches)
  = sorted (padded_survivors matches)
  /\ length (applied_regions (apply_ultra_precise_redaction matches))
     = redaction_count (apply_ultra_precise_redaction matches).
Proof.
  intros Hp.
  assert (Hs : pairwise apart (sorted (padded_survivors matches))).
  { apply pairwise_perm with (padded_survivors matches);
      [|symmetry; apply sorted_perm | assumption].
    intros a b [H1 H2]. now split. }
  assert (E : merge (padded_survivors matches)
              = sorted (padded_survivors matches)).
  { unfold merge. now rewrite merge_fold_apart by (assumption || constructor). }
  rewrite apply_spec. simpl. rewrite E. split; [reflexivity|].
  rewrite (Permutation_length (sorted_perm _)).
  unfold padded_survivors. now rewrite length_map.
Qed.

Lemma X8_witness :
  applied_regions (apply_ultra_precise_redaction separate_matches)
  = [mkRect 8 8 62 24; mkRect 98 8 162 24; mkRect 8 98 62 114].
Proof.
  refine (eq_trans (proj1 (X8_separate_rectangles_are_only_sorted
                             separate_matches _)) _).
  - simpl. repeat split; repeat constructor; reflexivity.
  - reflexivity.
Defined.


(** * Further properties of the detector *)

(** X9. When entity types are selected, every entity that
    [detect_entities] returns has one of the selected types and a score
    at or above the detector's threshold. *)
Theorem X9_detected_entities_are_selected_and_confident
        (self : PIIDetector) (text : str) (types : list str) (ent : Entity) :
  types <> [] ->
  In ent (fst (detect_entities self text (Some types))) ->
  mem (entity ent) types = true /\ threshold self <= score ent.
Proof.
  intros Hne Hin. unfold detect_entities in Hin.
  destruct (current_model self) as [model|]; [|contradiction].
  destruct (strip text); [contradiction|].
  destruct (current_model_name self) as [name|]; [|contradiction].
  destruct (model_info name NLP_MODELS) as [ty|]; [|contradiction].
  destruct (run_model model text) as [found|]; [|contradiction].
  destruct types as [|t types]; [congruence|].
  simpl in Hin. apply filter_In in Hin. destruct Hin as [_ Hk].
  unfold keep in Hk. apply andb_true_iff in Hk. destruct Hk as [Hm Hs].
  split; [assumption | now apply Qle_bool_iff].
Qed.

Lemma X9_witness :
  mem (entity (mkEntity (of_string "PER") 0 4 (of_string "John") (95 # 100)))
      [of_string "PER"; of_string "LOC"] = true
  /\ threshold flair_mixed
     <= score (mkEntity (of_string "PER") 0 4 (of_string "John") (95 # 100)).
Proof.
  refine (X9_detected_entities_are_selected_and_confident flair_mixed
            (of_string "John in Rio") [of_string "PER"; of_string "LOC"]
            (mkEntity (of_string "PER") 0 4 (of_string "John") (95 # 100)) _ _).
  - discriminate.
  - left. reflexivity.
Defined.

Lemma filter_keep_none (self : PIIDetector) (types : list str) (l : list Entity) :
  (forall e, In e l -> ~ threshold self <= score e) ->
  filter (keep self types) l = [].
Proof.
  intros H. apply filter_none. intros e He. unfold keep.
  destruct (Qle_bool (threshold self) (score e)) eqn:E.
  - apply Qle_bool_iff in E. now elim (H e He).
  - apply andb_false_r.
Qed.

(** X10. A spaCy model gives every entity the fixed score 0.8: with
    entity types selected and a threshold above 0.8 the detector returns
    nothing, whatever the model finds. *)
Theorem X10_spacy_is_silent_above_0_8
        (self : PIIDetector) (text : str) (types : list str) :
  current_model_name self = Some (of_string "spaCy/en_core_web_lg") ->
  types <> [] ->
  (8 # 10) < threshold self ->
  fst (detect_entities self text (Some types)) = [].
Proof.
  intros Hname Hne Hthr. unfold detect_entities. rewrite Hname.
  destruct (current_model self) as [model|]; [|reflexivity].
  destruct (strip text); [reflexivity|].
  change (model_info (of_string "spaCy/en_core_web_lg") NLP_MODELS)
    with (Some spacy).
  destruct (run_model model text) as [found|]; [|reflexivity].
  destruct types as [|t types]; [congruence|]. simpl fst.
  apply filter_keep_none. intros e He Hle.
  apply in_map_iff in He. destruct He as (e0 & <- & _). simpl in Hle. lra.
Qed.

Lemma X10_witness :
  fst (detect_entities (set_threshold spacy_two_persons (85 # 100))
         (of_string "John and Bob") (Some [of_string "PERSON"])) = []
  /\ length (fst (detect_entities spacy_two_persons
                    (of_string "John and Bob") (Some [of_string "PERSON"])))
     = 2%nat.
Proof.
  split; [|reflexivity].
  refine (X10_spacy_is_silent_above_0_8
            (set_threshold spacy_two_persons (85 # 100))
            (of_string "John and Bob") [of_string "PERSON"] eq_refl _ _).
  - discriminate.
  - reflexivity.
Defined.

(** X11. The threshold is applied only together with the type filter:
    when no entity type is selected ([None] or the empty list) the result
    of [detect_entities] does not depend on the threshold. *)
Theorem X11_threshold_ignored_without_selected_types
        (self : PIIDetector) (text : str) (selected_types : option (list str))
        (value : Q) :
  selected_types = None \/ selected_types = Some [] ->
  detect_entities (set_threshold self value) text selected_types
  = detect_entities self text selected_types.
Proof.
  intros [-> | ->]; unfold detect_entities, set_threshold; simpl;
    destruct (current_model self); try reflexivity;
    destruct (strip text); try reflexivity;
    destruct (current_model_name self) as [name|]; try reflexivity;
    destruct (model_info name NLP_MODELS); try reflexivity;
    destruct (run_model m text); reflexivity.
Qed.

Lemma X11_witness :
  fst (detect_entities (set_threshold flair_mixed 1)
         (of_string "John in Rio") None)
  = [ mkEntity (of_string "PER") 0 4 (of_string "John") (95 # 100);
      mkEntity (of_string "LOC") 9 12 (of_string "Rio") (20 # 100) ].
Proof.
  rewrite (X11_threshold_ignored_without_selected_types flair_mixed
             (of_string "John in Rio") None 1 (or_introl eq_refl)).
  reflexivity.
Defined.


(** * Further properties of [mask_entities] *)

Lemma build_masks_filter (text style : str) (entities : list Entity) :
  build_masks text style entities
  = map (mask_of text style)
        (filter (fun e => valid_indices text (ent_start e) (ent_end e))
                entities).
Proof.
  unfold build_masks.
  rewrite fold_left_ext
    with (g := fun masks e =>
                 masks ++ (if valid_indices text (ent_start e) (ent_end e)
                           then [mask_of text style e] else [])).
  - rewrite fold_left_snoc_flat_map. simpl.
    apply (flat_map_filter_map
             (fun e => valid_indices text (ent_start e) (ent_end e))).
  - intros masks e. unfold masks_step.
    destruct (valid_indices _ _ _); [reflexivity | now rewrite app_nil_r].
Qed.

(** X12. An entity whose indices fail the validation (negative, beyond the
    text, empty or reversed span) is skipped: a list of such entities
    leaves the text unchanged, and adding such entities to any other list
    changes nothing. *)
Theorem X12_invalid_entities_are_skipped
        (text : str) (entities : list Entity) (style : str) :
  (forall e, In e entities ->
             valid_indices text (ent_start e) (ent_end e) = false) ->
  mask_entities text entities style = text
  /\ (forall others,
        mask_entities text (others ++ entities) style
        = mask_entities text others style
        /\ mask_entities text (entities ++ others) style
           = mask_entities text others style).
Proof.
  intros H.
  assert (F : filter (fun e => valid_indices text (ent_start e) (ent_end e))
                     entities = [])
    by (now apply filter_none).
  split.
  - now rewrite mask_entities_eq, build_masks_filter, F.
  - intros others. rewrite !mask_entities_eq, !build_masks_filter.
    now rewrite !filter_app, F, app_nil_r.
Qed.

Lemma X12_witness :
  mask_entities call_text
    [ mkEntity (of_string "PERSON") (-1) 4 [] 1;
      mkEntity (of_string "PERSON") 20 99 [] 1;
      mkEntity (of_string "PERSON") 7 7 [] 1;
      mkEntity (of_string "PERSON") 9 3 [] 1 ]
    (of_string "full_mask")
  = call_text.
Proof.
  refine (proj1 (X12_invalid_entities_are_skipped call_text _
                   (of_string "full_mask") _)).
  intros e [<-|[<-|[<-|[<-|[]]]]]; reflexivity.
Defined.

(** *** Masks as long as their spans *)

Lemma same_length_total_grow (masks : list Mask) :
  Forall same_length_mask masks -> total_grow masks = 0%Z.
Proof.
  induction 1 as [|m rest Hm _ IH]; simpl; [reflexivity|].
  unfold same_length_mask in Hm. lia.
Qed.

Lemma same_length_shift (masks : list Mask) (i : Z) :
  Forall same_length_mask masks -> shift_masks masks i = 0%Z.
Proof.
  induction 1 as [|m rest Hm _ IH]; simpl; [reflexivity|].
  unfold same_length_mask in Hm. rewrite Hm, IH.
  now destruct (_ <=? _)%Z.
Qed.

Lemma apply_masks_inside_same_length (masks : list Mask) :
  forall t i m,
    desc_chain (Z.of_nat (length t)) masks ->
    Forall same_length_mask masks ->
    In m masks ->
    (mask_start m <= Z.of_nat i < mask_end m)%Z ->
    nth_error (apply_masks masks t) i
    = nth_error (mask_str m) (i - Z.to_nat (mask_start m)).
Proof.
  induction masks as [|h rest IH]; intros t i m H Hs Hin Hi; [contradiction|].
  rewrite apply_masks_cons by assumption.
  pose proof (desc_chain_firstn h rest t H) as H'.
  pose proof (apply_masks_length rest _ H') as HL.
  destruct H as (H1 & H2 & H3).
  inversion Hs as [|? ? Hh Hrest]; subst.
  rewrite (same_length_total_grow rest Hrest), length_firstn in HL.
  destruct Hin as [->|Hin].
  - rewrite nth_error_app2 by lia.
    unfold same_length_mask, grow in Hh.
    rewrite nth_error_app1 by lia.
    f_equal. lia.
  - destruct (desc_chain_ends rest _ m H3 Hin) as [A B].
    rewrite nth_error_app1 by lia.
    apply (IH _ i m); assumption.
Qed.

Lemma slice_nth (text : str) (e : Entity) (k : nat) :
  span_ok text e ->
  (Z.of_nat k < ent_end e - ent_start e)%Z ->
  nth_error (slice text (ent_start e) (ent_end e)) k
  = nth_error text (Z.to_nat (ent_start e) + k).
Proof.
  intros H Hk. apply span_ok_bounds in H. unfold slice.
  rewrite nth_error_firstn.
  replace (k <? Z.to_nat (ent_end e) - Z.to_nat (ent_start e))%nat with true
    by (symmetry; apply Nat.ltb_lt; lia).
  apply nth_error_skipn.
Qed.

(** What a style whose masks have the length of their spans does. *)
Lemma same_length_masking (text style : str) (entities : list Entity) :
  (forall e, span_ok text e ->
             length (mask_text style (entity e)
                       (slice text (ent_start e) (ent_end e)))
             = Z.to_nat (ent_end e - ent_start e)) ->
  Forall (span_ok text) entities ->
  pairwise disjoint entities ->
  length (mask_entities text entities style) = length text
  /\ (forall i, (i < length text)%nat -> outside_spans i entities ->
                nth_error (mask_entities text entities style) i
                = nth_error text i)
  /\ (forall i e, In e entities -> in_span i e ->
                  nth_error (mask_entities text entities style) i
                  = nth_error (mask_text style (entity e)
                                 (slice text (ent_start e) (ent_end e)))
                              (i - Z.to_nat (ent_start e))).
Proof.
  intros HL Hok Hd.
  pose proof (sorted_masks_chain text style entities Hok Hd) as Hchain.
  assert (Hsame0 : Forall same_length_mask (map (mask_of text style) entities)).
  { apply Forall_map. eapply Forall_impl; [|exact Hok].
    intros e He. unfold same_length_mask, grow, mask_of, mask_str, mask_end,
                 mask_start. cbn [fst snd].
    rewrite (HL e He). apply span_ok_bounds in He. lia. }
  assert (Hsame : Forall same_length_mask
                         (sort_desc (map (mask_of text style) entities))).
  { apply Permutation_Forall with (map (mask_of text style) entities);
      [symmetry; apply sort_desc_perm | assumption]. }
  rewrite mask_entities_eq, build_masks_spec by assumption.
  split; [|split].
  - pose proof (apply_masks_length _ text Hchain) as E.
    rewrite (same_length_total_grow _ Hsame) in E. lia.
  - intros i Hi Ho.
    destruct (apply_masks_outside _ text i Hchain Hi) as [_ E].
    + intros m Hm Hin.
      apply (Permutation_in _ (sort_desc_perm _)) in Hm.
      apply in_map_iff in Hm. destruct Hm as (e & <- & He).
      now apply (Ho e He).
    + rewrite (same_length_shift _ (Z.of_nat i) Hsame), Z.add_0_r, Nat2Z.id
        in E.
      exact E.
  - intros i e He Hi.
    apply (apply_masks_inside_same_length _ text i (mask_of text style e));
      try assumption.
    apply (Permutation_in _ (Permutation_sym (sort_desc_perm _))).
    now apply in_map.
Qed.

Lemma partial_mask_text (ty et : str) :
  mask_text (of_string "partial_mask") ty et
  = if (4 <? length et)%nat
    then firstn 1 et ++ repeat_char "*"%char (length et - 2)
         ++ skipn (length et - 1) et
    else repeat_char "*"%char (length et).
Proof. reflexivity. Qed.

Lemma partial_mask_length (ty et : str) :
  length (mask_text (of_string "partial_mask") ty et) = length et.
Proof.
  rewrite partial_mask_text. destruct (4 <? length et)%nat eqn:E.
  - apply Nat.ltb_lt in E.
    rewrite !length_app, length_firstn, length_skipn.
    unfold repeat_char. rewrite repeat_length. lia.
  - unfold repeat_char. apply repeat_length.
Qed.

(** X13. With style ["partial_mask"], valid indices and pairwise disjoint
    spans, the output has the length of the input and differs from it
    inside the spans only; a span of more than four characters keeps its
    first and its last character and shows ['*'] in between, a span of
    up to four characters is all ['*']. *)
Theorem X13_partial_mask_keeps_first_and_last
        (text : str) (entities : list Entity) :
  Forall (span_ok text) entities ->
  pairwise disjoint entities ->
  let out := mask_entities text entities (of_string "partial_mask") in
  length out = length text
  /\ (forall i, (i < length text)%nat -> outside_spans i entities ->
                nth_error out i = nth_error text i)
  /\ (forall e, In e entities -> (4 < ent_end e - ent_start e)%Z ->
        nth_error out (Z.to_nat (ent_start e))
        = nth_error text (Z.to_nat (ent_start e))
        /\ nth_error out (Z.to_nat (ent_end e) - 1)
           = nth_error text (Z.to_nat (ent_end e) - 1)
        /\ (forall i, (ent_start e < Z.of_nat i < ent_end e - 1)%Z ->
                      nth_error out i = Some "*"%char))
  /\ (forall e i, In e entities -> (ent_end e - ent_start e <= 4)%Z ->
                  in_span i e -> nth_error out i = Some "*"%char).
Proof.
  intros Hok Hd out.
  destruct (same_length_masking text (of_string "partial_mask") entities)
    as (L & O & I); try assumption.
  { intros e He. rewrite partial_mask_length. now apply slice_length. }
  split; [exact L|]. split; [exact O|]. split.
  - intros e He Hlong.
    assert (Hs : span_ok text e) by (rewrite Forall_forall in Hok; now apply Hok).
    pose proof (span_ok_bounds text e Hs) as [B1 B2].
    pose proof (slice_length text e Hs) as SL.
    assert (M : mask_text (of_string "partial_mask") (entity e)
                  (slice text (ent_start e) (ent_end e))
                = firstn 1 (slice text (ent_start e) (ent_end e))
                  ++ repeat_char "*"%char
                       (length (slice text (ent_start e) (ent_end e)) - 2)
                  ++ skipn (length (slice text (ent_start e) (ent_end e)) - 1)
                       (slice text (ent_start e) (ent_end e))).
    { rewrite partial_mask_text.
      replace (4 <? length (slice text (ent_start e) (ent_end e)))%nat
        with true by (symmetry; apply Nat.ltb_lt; lia).
      reflexivity. }
    split; [|split].
    + unfold out. rewrite (I _ e He) by (unfold in_span; lia).
      rewrite M, Nat.sub_diag.
      rewrite nth_error_app1 by (rewrite length_firstn; lia).
      rewrite nth_error_firstn. change (0 <? 1)%nat with true. cbv iota.
      rewrite slice_nth by (assumption || lia). f_equal. lia.
    + unfold out. rewrite (I _ e He) by (unfold in_span; lia).
      rewrite M.
      rewrite nth_error_app2 by (rewrite length_firstn; lia).
      rewrite nth_error_app2
        by (unfold repeat_char; rewrite length_firstn, repeat_length; lia).
      rewrite nth_error_skipn, length_firstn.
      unfold repeat_char. rewrite repeat_length.
      rewrite slice_nth by (assumption || lia). f_equal. lia.
    + intros i Hi. unfold out. rewrite (I _ e He) by (unfold in_span; lia).
      rewrite M.
      rewrite nth_error_app2 by (rewrite length_firstn; lia).
      rewrite nth_error_app1
        by (unfold repeat_char; rewrite length_firstn, repeat_length; lia).
      unfold repeat_char. apply nth_error_repeat.
      rewrite length_firstn. lia.
  - intros e i He Hshort Hi.
    assert (Hs : span_ok text e) by (rewrite Forall_forall in Hok; now apply Hok).
    pose proof (span_ok_bounds text e Hs) as [B1 B2].
    pose proof (slice_length text e Hs) as SL.
    unfold out. rewrite (I _ e He Hi). rewrite partial_mask_text.
    replace (4 <? length (slice text (ent_start e) (ent_end e)))%nat
      with false by (symmetry; apply Nat.ltb_ge; lia).
    unfold repeat_char. apply nth_error_repeat.
    unfold in_span in Hi. lia.
Qed.

Lemma X13_witness :
  mask_entities call_text call_entities (of_string "partial_mask")
  = of_string "Hello J********h, call ***"
  /\ length (mask_entities call_text call_entities (of_string "partial_mask"))
     = length call_text.
Proof.
  split; [reflexivity|].
  refine (proj1 (X13_partial_mask_keeps_first_and_last
                   call_text call_entities _ _)).
  - repeat constructor.
  - simpl. repeat split; repeat constructor; unfold disjoint; simpl; lia.
Defined.


Lemma full_mask_text (ty et : str) :
  mask_text (of_string "full_mask") ty et = repeat_char "*"%char (length et).
Proof. reflexivity. Qed.

Lemma in_span_or_outside (i : nat) (entities : list Entity) :
  (exists e, In e entities /\ in_span i e) \/ outside_spans i entities.
Proof.
  induction entities as [|e rest IH].
  - right. intros e [].
  - destruct (Z_le_dec (ent_start e) (Z.of_nat i)) as [H1|H1];
      [destruct (Z_lt_dec (Z.of_nat i) (ent_end e)) as [H2|H2]|].
    + left. exists e. split; [now left | unfold in_span; lia].
    + destruct IH as [(e' & He' & Hi)|IH].
      * left. exists e'. split; [now right | assumption].
      * right. intros e' [<-|He']; [unfold in_span; lia | now apply IH].
    + destruct IH as [(e' & He' & Hi)|IH].
      * left. exists e'. split; [now right | assumption].
      * right. intros e' [<-|He']; [unfold in_span; lia | now apply IH].
Qed.

Lemma span_ok_same_length (text text' : str) (e : Entity) :
  length text' = length text -> span_ok text e -> span_ok text' e.
Proof.
  unfold span_ok, valid_indices. intros ->. trivial.
Qed.

Lemma full_masking (text : str) (entities : list Entity) :
  Forall (span_ok text) entities ->
  pairwise disjoint entities ->
  length (mask_entities text entities (of_string "full_mask")) = length text
  /\ (forall i, (i < length text)%nat -> outside_spans i entities ->
                nth_error (mask_entities text entities (of_string "full_mask")) i
                = nth_error text i)
  /\ (forall i e, In e entities -> in_span i e ->
                  nth_error (mask_entities text entities (of_string "full_mask")) i
                  = Some "*"%char).
Proof.
  intros Hok Hd.
  destruct (same_length_masking text (of_string "full_mask") entities)
    as (L & O & I); try assumption.
  { intros e He. rewrite full_mask_text. unfold repeat_char.
    rewrite repeat_length. now apply slice_length. }
  split; [exact L|]. split; [exact O|].
  intros i e He Hi. rewrite (I i e He Hi), full_mask_text.
  assert (Hs : span_ok text e) by (rewrite Forall_forall in Hok; now apply Hok).
  unfold repeat_char. apply nth_error_repeat.
  rewrite (slice_length text e Hs).
  apply span_ok_bounds in Hs. unfold in_span in Hi. lia.
Qed.

(** X14. Full masking is idempotent: masking the masked text again with
    the same valid, pairwise disjoint entities changes nothing. *)
Theorem X14_full_mask_is_idempotent (text : str) (entities : list Entity) :
  Forall (span_ok text) entities ->
  pairwise disjoint entities ->
  mask_entities (mask_entities text entities (of_string "full_mask"))
                entities (of_string "full_mask")
  = mask_entities text entities (of_string "full_mask").
Proof.
  intros Hok Hd.
  destruct (full_masking text entities Hok Hd) as (L & O & I).
  set (out := mask_entities text entities (of_string "full_mask")) in *.
  assert (Hok' : Forall (span_ok out) entities).
  { eapply Forall_impl; [|exact Hok].
    intros e. now apply span_ok_same_length. }
  destruct (full_masking out entities Hok' Hd) as (L' & O' & I').
  apply nth_error_ext. intros i.
  destruct (Nat.lt_ge_cases i (length out)) as [Hi|Hi].
  - destruct (in_span_or_outside i entities) as [(e & He & Hin)|Hout].
    + now rewrite (I' i e He Hin), (I i e He Hin).
    + now apply O'.
  - rewrite (proj2 (nth_error_None _ _)) by lia.
    now rewrite (proj2 (nth_error_None _ _)) by lia.
Qed.

Lemma X14_witness :
  mask_entities (of_string "Hello **********, call ***") call_entities
                (of_string "full_mask")
  = of_string "Hello **********, call ***".
Proof.
  refine (X14_full_mask_is_idempotent call_text call_entities _ _).
  - repeat constructor.
  - simpl. repeat split; repeat constructor; unfold disjoint; simpl; lia.
Defined.

(** *** Length of the output *)

Lemma net_shift_total (text style : str) (entities : list Entity) :
  Forall (span_ok text) entities ->
  net_shift text style entities (length text)
  = total_grow (map (mask_of text style) entities).
Proof.
  induction 1 as [|e rest He _ IH]; cbn [net_shift map total_grow fold_right];
    [reflexivity|].
  fold (total_grow (map (mask_of text style) rest)). rewrite IH.
  apply span_ok_bounds in He as [_ B].
  replace (ent_end e <=? Z.of_nat (length text))%Z with true
    by (symmetry; apply Z.leb_le; lia).
  reflexivity.
Qed.

Lemma total_grow_perm (l l' : list Mask) :
  Permutation l l' -> total_grow l = total_grow l'.
Proof.
  unfold total_grow. induction 1; simpl; lia.
Qed.

Lemma mask_entities_length (text style : str) (entities : list Entity) :
  Forall (span_ok text) entities ->
  pairwise disjoint entities ->
  Z.of_nat (length (mask_entities text entities style))
  = (Z.of_nat (length text)
     + total_grow (map (mask_of text style) entities))%Z.
Proof.
  intros Hok Hd.
  rewrite mask_entities_eq, build_masks_spec by assumption.
  rewrite (apply_masks_length _ text
             (sorted_masks_chain text style entities Hok Hd)).
  now rewrite (total_grow_perm _ _ (sort_desc_perm _)).
Qed.

Lemma type_label_text (ty et : str) :
  mask_text (of_string "type_label") ty et = of_string "<" ++ ty ++ of_string ">".
Proof. reflexivity. Qed.

Lemma fallback_text (style ty et : str) :
  fallback_style style -> mask_text style ty et = of_string "****".
Proof.
  intros (H1 & H2 & H3). unfold mask_text.
  destruct (eqb style (of_string "type_label")) eqn:E1;
    [apply eqb_eq in E1; contradiction|].
  destruct (eqb style (of_string "full_mask")) eqn:E2;
    [apply eqb_eq in E2; contradiction|].
  destruct (eqb style (of_string "partial_mask")) eqn:E3;
    [apply eqb_eq in E3; contradiction|].
  reflexivity.
Qed.

(** X15. For valid indices and pairwise disjoint spans the length of the
    output is the length of the input plus, for every entity, the length
    of its mask minus the length of its span; with style ["type_label"]
    the mask of an entity is its type between angle brackets, so each
    entity contributes [len(type) + 2 - (end - start)]. *)
Theorem X15_output_length_law (text : str) (entities : list Entity) :
  Forall (span_ok text) entities ->
  pairwise disjoint entities ->
  (forall style,
      Z.of_nat (length (mask_entities text entities style))
      = (Z.of_nat (length text)
         + net_shift text style entities (length text))%Z)
  /\ (Z.of_nat (length (mask_entities text entities (of_string "type_label")))
      + span_total entities
      = Z.of_nat (length text)
        + fold_right (fun e acc =>
                        (Z.of_nat (length (entity e)) + 2 + acc)%Z)
                     0%Z entities)%Z.
Proof.
  intros Hok Hd. split.
  - intros style. rewrite net_shift_total by assumption.
    now apply mask_entities_length.
  - rewrite mask_entities_length by assumption.
    clear Hok Hd.
    induction entities as [|e rest IH];
      cbn [map span_total total_grow fold_right] in *; [lia|].
    fold (total_grow (map (mask_of text (of_string "type_label")) rest)) in *.
    fold (span_total rest) in *.
    set (T := total_grow (map (mask_of text (of_string "type_label")) rest)) in *.
    set (P := span_total rest) in *.
    unfold grow, mask_of, mask_str, mask_end, mask_start. cbn [fst snd].
    rewrite type_label_text, !length_app.
    change (length (of_string "<")) with 1%nat.
    change (length (of_string ">")) with 1%nat.
    lia.
Qed.

Lemma X15_witness :
  Z.of_nat (length (mask_entities call_text call_entities
                      (of_string "type_label")))
  = (26 + ((6 + 2 - 3) + (6 + 2 - 10)))%Z.
Proof.
  refine (eq_trans (proj1 (X15_output_length_law call_text call_entities _ _)
                      (of_string "type_label")) _).
  - repeat constructor.
  - simpl. repeat split; repeat constructor; unfold disjoint; simpl; lia.
  - reflexivity.
Defined.

(** X16. A style that is none of ["type_label"], ["full_mask"] and
    ["partial_mask"] (["redact"], for one) replaces every span by exactly
    four stars, whatever the length of the span. *)
Theorem X16_other_styles_write_four_stars
        (text : str) (entities : list Entity) (style : str) :
  fallback_style style ->
  Forall (span_ok text) entities ->
  pairwise disjoint entities ->
  (Z.of_nat (length (mask_entities text entities style)) + span_total entities
   = Z.of_nat (length text) + 4 * Z.of_nat (length entities))%Z
  /\ (forall e, span_ok text e ->
                mask_entities text [e] style
                = firstn (Z.to_nat (ent_start e)) text
                  ++ of_string "****"
                  ++ skipn (Z.to_nat (ent_end e)) text)
  /\ fallback_style (of_string "redact").
Proof.
  intros Hf Hok Hd. split; [|split].
  - rewrite mask_entities_length by assumption.
    clear Hok Hd.
    induction entities as [|e rest IH];
      cbn [map span_total total_grow fold_right length] in *; [lia|].
    fold (total_grow (map (mask_of text style) rest)) in *.
    fold (span_total rest) in *.
    set (T := total_grow (map (mask_of text style) rest)) in *.
    set (P := span_total rest) in *.
    unfold grow, mask_of, mask_str, mask_end, mask_start. cbn [fst snd].
    rewrite (fallback_text style _ _ Hf).
    change (length (of_string "****")) with 4%nat.
    lia.
  - intros e He. unfold mask_entities, build_masks. cbn [fold_left].
    unfold masks_step. unfold span_ok in He. rewrite He.
    cbn [app sort_desc insert_desc apply_masks fold_left].
    unfold apply_mask, mask_start, mask_end, mask_str. cbn [fst snd].
    now rewrite (fallback_text style _ _ Hf).
  - repeat split; discriminate.
Qed.

Lemma X16_witness :
  mask_entities call_text call_entities (of_string "redact")
  = of_string "Hello ****, call ****"
  /\ (Z.of_nat (length (mask_entities call_text call_entities
                          (of_string "redact")))
      + span_total call_entities
      = Z.of_nat (length call_text) + 4 * 2)%Z.
Proof.
  split; [reflexivity|].
  refine (proj1 (X16_other_styles_write_four_stars call_text call_entities
                   (of_string "redact") _ _ _)).
  - repeat split; discriminate.
  - repeat constructor.
  - simpl. repeat split; repeat constructor; unfold disjoint; simpl; lia.
Defined.


(** * The viewer *)

(** ** Preview and redaction *)

Lemma highlightable_iff (zoom : Q) (r : Rect) :
  0 < zoom ->
  highlightable zoom r = true <-> x0 r < x1 r /\ y0 r < y1 r.
Proof.
  intros Hz. unfold highlightable. rewrite andb_true_iff, !Qlt_bool_iff.
  now rewrite !(Qmult_lt_r _ _ _ Hz).
Qed.

Lemma filter_length_le {A : Type} (p q : A -> bool) (l : list A) :
  (forall a, p a = true -> q a = true) ->
  (length (filter p l) <= length (filter q l))%nat.
Proof.
  intros H. induction l as [|a l IH]; simpl; [lia|].
  destruct (p a) eqn:E.
  - rewrite (H a E). simpl. lia.
  - destruct (q a); simpl; lia.
Qed.

(** X17. At a positive zoom a rectangle is highlighted in the preview
    exactly when it has positive width and height, whatever the zoom; every
    rectangle that the redaction keeps is one the preview highlights, so
    the redaction count of a match list never exceeds its number of
    highlights. *)
Theorem X17_redacted_rectangles_are_previewed
        (zoom : Q) (matches : list Match) :
  0 < zoom ->
  (forall r, highlightable zoom r = true <-> x0 r < x1 r /\ y0 r < y1 r)
  /\ (forall r, passes_threshold r = true -> highlightable zoom r = true)
  /\ (redaction_count (apply_ultra_precise_redaction matches)
      <= length (filter (highlightable zoom) (map rect matches)))%nat.
Proof.
  intros Hz.
  assert (P : forall r, passes_threshold r = true -> highlightable zoom r = true).
  { intros r H. apply highlightable_iff; [assumption|].
    now apply passes_threshold_positive. }
  split; [intros r; now apply highlightable_iff|]. split; [exact P|].
  rewrite apply_spec. simpl. now apply filter_length_le.
Qed.

Lemma X17_witness :
  (redaction_count (apply_ultra_precise_redaction thin_matches)
   <= length (filter (highlightable (12 # 10)) (map rect thin_matches)))%nat
  /\ redaction_count (apply_ultra_precise_redaction thin_matches) = 0%nat
  /\ length (filter (highlightable (12 # 10)) (map rect thin_matches)) = 1%nat.
Proof.
  split; [|split; reflexivity].
  refine (proj2 (proj2 (X17_redacted_rectangles_are_previewed
                          (12 # 10) thin_matches _))).
  reflexivity.
Defined.

Section PreviewProofs.

Variable finditer : str -> str -> Z -> option (list RegexMatch).
Variable compiles : str -> bool.
Variable search_for : Page -> str -> option (list Rect).

Lemma draw_fold (zoom : Q) (rs : list Rect) :
  forall st,
    fold_left (draw_step zoom) rs st
    = (fst st ++ map (to_canvas zoom) (filter (highlightable zoom) rs),
       (snd st + length (filter (highlightable zoom) rs))%nat).
Proof.
  induction rs as [|r rs IH]; intros [hl n]; simpl.
  - now rewrite app_nil_r, Nat.add_0_r.
  - unfold draw_step at 2. destruct (highlightable zoom r); simpl.
    + rewrite IH. simpl. rewrite <- app_assoc. simpl. f_equal. lia.
    + now rewrite IH.
Qed.

Lemma pattern_pass_fold (page : Page) (zoom : Q) (patterns : list Pattern) :
  forall st,
    pattern_pass finditer compiles page zoom patterns st
    = (fst st ++ pattern_highlights finditer compiles page zoom patterns,
       (snd st
        + length (pattern_highlights finditer compiles page zoom patterns))%nat).
Proof.
  unfold pattern_pass, pattern_highlights.
  induction patterns as [|p patterns IH]; intros [hl n]; simpl.
  - now rewrite app_nil_r, Nat.add_0_r.
  - unfold pattern_step at 2. destruct (compiles (p_regex p)).
    + rewrite draw_fold, IH. simpl.
      rewrite <- app_assoc, length_app, length_map. f_equal. lia.
    + now rewrite IH.
Qed.

Lemma entity_fold (page : Page) (zoom : Q) (entities : list Entity) :
  forall st,
    exists drawn,
      fold_left (entity_step search_for page zoom) entities st
      = (fst st ++ drawn, (snd st + length drawn)%nat).
Proof.
  induction entities as [|e entities IH]; intros [hl n]; simpl.
  - exists []. now rewrite app_nil_r, Nat.add_0_r.
  - unfold entity_step at 2. destruct (search_for page (ent_text e)) as [ti|].
    + rewrite draw_fold. simpl.
      destruct (IH (hl ++ map (to_canvas zoom) (filter (highlightable zoom) ti),
                    (n + length (filter (highlightable zoom) ti))%nat))
        as [drawn E].
      rewrite E. simpl.
      exists (map (to_canvas zoom) (filter (highlightable zoom) ti) ++ drawn).
      rewrite <- app_assoc, length_app, length_map. f_equal. lia.
    + apply IH.
Qed.

Lemma preview_runs
      (page : Page) (zoom : Q) (patterns : list Pattern)
      (use_pii_detection : bool) (detector : PIIDetector)
      (selected_types : list str) (pdf_threshold : Q)
      (res : list Rect * nat) :
  ultra_precise_preview finditer compiles search_for page zoom patterns
    use_pii_detection detector selected_types pdf_threshold
  = Some res ->
  res = pattern_pass finditer compiles page zoom patterns
          (if use_pii_detection
           then entity_pass search_for page zoom detector selected_types
                  pdf_threshold
                  (pattern_pass finditer compiles page zoom patterns ([], O))
           else pattern_pass finditer compiles page zoom patterns ([], O)).
Proof.
  unfold ultra_precise_preview.
  destruct patterns, use_pii_detection; intros H;
    try discriminate; now inversion H.
Qed.

(** X18. The preview runs the pattern loop twice, before and after the
    entity pass: whenever it runs, every pattern highlight is drawn twice
    and counted twice.  With entity detection off, the number of matches
    it reports is twice the number of rectangles one pattern loop
    highlights. *)
Theorem X18_preview_counts_pattern_matches_twice
        (page : Page) (zoom : Q) (patterns : list Pattern)
        (use_pii_detection : bool) (detector : PIIDetector)
        (selected_types : list str) (pdf_threshold : Q)
        (highlights : list Rect) (total_matches : nat) :
  ultra_precise_preview finditer compiles search_for page zoom patterns
    use_pii_detection detector selected_types pdf_threshold
  = Some (highlights, total_matches) ->
  let once := pattern_highlights finditer compiles page zoom patterns in
  exists entity_highlights,
    highlights = once ++ entity_highlights ++ once
    /\ total_matches = (2 * length once + length entity_highlights)%nat
    /\ total_matches = length highlights
    /\ (use_pii_detection = false -> entity_highlights = []).
Proof.
  intros H once. apply preview_runs in H.
  rewrite !pattern_pass_fold in H. fold once in H. simpl in H.
  destruct use_pii_detection.
  - unfold entity_pass in H.
    destruct (entity_fold page zoom
                (filter (fun ent => Qle_bool pdf_threshold (score ent))
                        (fst (detect_entities detector (page_text page)
                                (Some selected_types))))
                (once, length once)) as [drawn E].
    rewrite E in H. simpl in H. inversion H; subst.
    exists drawn. rewrite <- app_assoc, !length_app.
    repeat split; try lia; discriminate.
  - simpl in H. inversion H; subst.
    exists []. simpl. rewrite !length_app.
    repeat split; lia.
Qed.

End PreviewProofs.

Lemma X18_witness :
  exists entity_highlights,
    [ mkRect (10 * (12 # 10)) (10 * (12 # 10)) (40 * (12 # 10)) (22 * (12 # 10));
      mkRect (10 * (12 # 10)) (10 * (12 # 10)) (40 * (12 # 10)) (22 * (12 # 10)) ]
    = pattern_highlights literal_engine (fun _ => true) hello_page (12 # 10)
        [mkPattern (of_string "greeting") (of_string "hello") [] []]
      ++ entity_highlights
      ++ pattern_highlights literal_engine (fun _ => true) hello_page (12 # 10)
           [mkPattern (of_string "greeting") (of_string "hello") [] []]
    /\ 2%nat
       = (2 * length (pattern_highlights literal_engine (fun _ => true)
                        hello_page (12 # 10)
                        [mkPattern (of_string "greeting") (of_string "hello")
                           [] []])
          + length entity_highlights)%nat
    /\ 2%nat = length
         [ mkRect (10 * (12 # 10)) (10 * (12 # 10)) (40 * (12 # 10))
                  (22 * (12 # 10));
           mkRect (10 * (12 # 10)) (10 * (12 # 10)) (40 * (12 # 10))
                  (22 * (12 # 10)) ]
    /\ (false = false -> entity_highlights = []).
Proof.
  exact (X18_preview_counts_pattern_matches_twice
           literal_engine (fun _ => true) (fun _ _ => Some [])
           hello_page (12 # 10)
           [mkPattern (of_string "greeting") (of_string "hello") [] []]
           false (init true) [] 0 _ 2 eq_refl).
Defined.


(** ** The pattern list *)

Lemma label_exists_In (label : str) (patterns : list Pattern) :
  label_exists label patterns = false -> ~ In label (map p_label patterns).
Proof.
  unfold label_exists. intros H Hin.
  apply in_map_iff in Hin. destruct Hin as (p & Hp & Hin).
  assert (E : existsb (fun q => eqb (p_label q) label) patterns = true).
  { apply existsb_exists. exists p. split; [assumption|]. now apply eqb_eq. }
  congruence.
Qed.

Lemma lookup_In (key value : str) (table : list (str * str)) :
  lookup key table = Some value -> In (key, value) table.
Proof.
  induction table as [|[k v] rest IH]; simpl; [discriminate|].
  destruct (eqb k key) eqn:E.
  - intros H. inversion H; subst. apply eqb_eq in E. subst. now left.
  - intros H. right. now apply IH.
Qed.

Lemma add_preset_pattern_shape
      (combo_value color : str) (patterns : list Pattern) :
  (fst (add_preset_pattern combo_value color patterns) = patterns
   /\ snd (add_preset_pattern combo_value color patterns) <> [])
  \/ exists regex,
       lookup (strip combo_value) PREDEFINED_PATTERNS = Some regex
       /\ label_exists (strip combo_value) patterns = false
       /\ add_preset_pattern combo_value color patterns
          = (patterns ++ [mkPattern (strip combo_value) regex color
                            (of_string "preset")], []).
Proof.
  unfold add_preset_pattern.
  destruct (strip combo_value) as [|c name] eqn:En.
  - left. split; [reflexivity | discriminate].
  - destruct (lookup (c :: name) PREDEFINED_PATTERNS) as [regex|] eqn:El.
    + destruct (label_exists (c :: name) patterns) eqn:Ex.
      * left. split; [reflexivity | discriminate].
      * right. exists regex. repeat split.
    + left. split; [reflexivity | discriminate].
Qed.

(** X19. [add_preset_pattern] never removes or reorders a pattern: it
    either leaves the list as it is and raises a dialog (blank or unknown
    name, label already present), or appends one pattern of type
    ["preset"] whose label is the stripped name and whose regex is the
    table's.  A list with pairwise distinct labels keeps pairwise
    distinct labels. *)
Theorem X19_add_preset_pattern_keeps_labels_distinct
        (combo_value color : str) (patterns : list Pattern) :
  NoDup (map p_label patterns) ->
  NoDup (map p_label (fst (add_preset_pattern combo_value color patterns)))
  /\ ((fst (add_preset_pattern combo_value color patterns) = patterns
       /\ snd (add_preset_pattern combo_value color patterns) <> [])
      \/ exists regex,
           In (strip combo_value, regex) PREDEFINED_PATTERNS
           /\ add_preset_pattern combo_value color patterns
              = (patterns ++ [mkPattern (strip combo_value) regex color
                                (of_string "preset")], [])).
Proof.
  intros Hnd.
  destruct (add_preset_pattern_shape combo_value color patterns)
    as [[E Hd]|(regex & El & Ex & E)].
  - rewrite E. split; [assumption|]. left. now split.
  - rewrite E. cbn [fst]. split.
    + rewrite map_app. simpl.
      apply NoDup_app; [assumption | repeat constructor; intros [] |].
      intros l Hl [<-|[]]. now apply (label_exists_In _ _ Ex).
    + right. exists regex. split; [now apply lookup_In | reflexivity].
Qed.

Lemma X19_witness :
  NoDup (map p_label
             (fst (add_preset_pattern (of_string "  Pincode ")
                     (of_string "#4caf50") two_presets)))
  /\ fst (add_preset_pattern (of_string "  Pincode ")
            (of_string "#4caf50") two_presets) = two_presets
  /\ length (fst (add_preset_pattern (of_string "IFSC Code")
                    (of_string "#4caf50") two_presets)) = 3%nat.
Proof.
  split; [|split; reflexivity].
  refine (proj1 (X19_add_preset_pattern_keeps_labels_distinct
                   (of_string "  Pincode ") (of_string "#4caf50")
                   two_presets _)).
  repeat constructor; simpl; intuition discriminate.
Defined.

Lemma pop_spec (patterns : list Pattern) :
  forall i, (i < length patterns)%nat ->
            pop i patterns = firstn i patterns ++ skipn (S i) patterns.
Proof.
  induction patterns as [|p rest IH]; intros [|i] H; simpl in *;
    try lia; try reflexivity.
  f_equal. apply IH. lia.
Qed.

Lemma pop_last (patterns : list Pattern) (p : Pattern) :
  pop (length patterns) (patterns ++ [p]) = patterns.
Proof.
  induction patterns as [|q rest IH]; simpl; [reflexivity|].
  now rewrite IH.
Qed.

(** X20. [remove_pattern] with an index outside [0 .. len-1] (a negative
    one included) changes nothing; with an index inside it removes exactly
    the pattern at that index and keeps the others in order.  Removing the
    last index right after a successful [add_preset_pattern] gives back
    the list as it was. *)
Theorem X20_remove_pattern_removes_one_index
        (index : Z) (patterns : list Pattern) :
  ((index < 0 \/ Z.of_nat (length patterns) <= index)%Z ->
   remove_pattern index patterns = patterns)
  /\ ((0 <= index < Z.of_nat (length patterns))%Z ->
      remove_pattern index patterns
      = firstn (Z.to_nat index) patterns
        ++ skipn (S (Z.to_nat index)) patterns
      /\ S (length (remove_pattern index patterns)) = length patterns)
  /\ (forall combo_value color,
        snd (add_preset_pattern combo_value color patterns) = [] ->
        remove_pattern (Z.of_nat (length patterns))
          (fst (add_preset_pattern combo_value color patterns))
        = patterns).
Proof.
  split; [|split].
  - intros H. unfold remove_pattern.
    replace ((0 <=? index) && (index <? Z.of_nat (length patterns)))%Z
      with false; [reflexivity|].
    symmetry. apply andb_false_iff.
    destruct H; [left; apply Z.leb_gt | right; apply Z.ltb_ge]; lia.
  - intros H. unfold remove_pattern.
    replace ((0 <=? index) && (index <? Z.of_nat (length patterns)))%Z
      with true
      by (symmetry; apply andb_true_iff; split;
          [apply Z.leb_le | apply Z.ltb_lt]; lia).
    rewrite pop_spec by lia. split; [reflexivity|].
    rewrite length_app, length_firstn, length_skipn. lia.
  - intros combo_value color Hs.
    destruct (add_preset_pattern_shape combo_value color patterns)
      as [[_ Hd]|(regex & _ & _ & E)]; [contradiction|].
    rewrite E. cbn [fst]. unfold remove_pattern.
    rewrite length_app. simpl length.
    replace ((0 <=? Z.of_nat (length patterns))
             && (Z.of_nat (length patterns)
                 <? Z.of_nat (length patterns + 1)))%Z
      with true
      by (symmetry; apply andb_true_iff; split;
          [apply Z.leb_le | apply Z.ltb_lt]; lia).
    rewrite Nat2Z.id. apply pop_last.
Qed.

Lemma X20_witness :
  remove_pattern 0 two_presets
  = [ mkPattern (of_string "CVV (3 digits)") (of_string "\b\d{3}\b")
                (of_string "#2196f3") (of_string "preset") ]
  /\ remove_pattern (-1) two_presets = two_presets
  /\ remove_pattern 2 two_presets = two_presets.
Proof.
  pose proof (X20_remove_pattern_removes_one_index 0 two_presets)
    as (_ & Hin & _).
  pose proof (X20_remove_pattern_removes_one_index (-1) two_presets)
    as (Hneg & _).
  pose proof (X20_remove_pattern_removes_one_index 2 two_presets)
    as (Hbig & _).
  split; [|split].
  - exact (proj1 (Hin ltac:(simpl; lia))).
  - apply Hneg. left. lia.
  - apply Hbig. right. simpl. lia.
Defined.


(** ** Page navigation and zoom *)

Lemma step_total_pages (v : View) (a : Action) :
  total_pages (step v a) = total_pages v.
Proof.
  destruct a; simpl; unfold prev_page, next_page, zoom_in, zoom_out;
    match goal with |- context [if ?c then _ else _] => destruct c end;
    reflexivity.
Qed.

Lemma step_page_range (v : View) (a : Action) :
  (0 <= current_page v <= Z.max 0 (total_pages v - 1))%Z ->
  (0 <= current_page (step v a) <= Z.max 0 (total_pages v - 1))%Z.
Proof.
  intros H. destruct a; simpl; unfold prev_page, next_page, zoom_in, zoom_out.
  - destruct (Z.ltb_spec 0 (current_page v)); simpl; lia.
  - destruct (Z.ltb_spec (current_page v) (total_pages v - 1)); simpl; lia.
  - destruct (Qlt_bool _ _); simpl; lia.
  - destruct (Qlt_bool _ _); simpl; lia.
Qed.

(** X21. After a document of [n] pages is loaded, no sequence of page
    and zoom buttons takes the current page out of the document: the page
    count stays [n] and the page index stays within [0 .. n-1] (at 0 for
    an empty document).  Where [next_page] moves, [prev_page] moves
    back. *)
Theorem X21_current_page_stays_in_the_document
        (n : nat) (actions : list Action) (v : View) :
  total_pages (run actions (load_pdf n v)) = Z.of_nat n
  /\ (0 <= current_page (run actions (load_pdf n v))
      <= Z.max 0 (Z.of_nat n - 1))%Z
  /\ (forall w, (0 <= current_page w < total_pages w - 1)%Z ->
                prev_page (next_page w) = w).
Proof.
  assert (G : forall acts w,
             total_pages (run acts w) = total_pages w
             /\ ((0 <= current_page w <= Z.max 0 (total_pages w - 1))%Z ->
                 (0 <= current_page (run acts w)
                  <= Z.max 0 (total_pages w - 1))%Z)).
  { unfold run. induction acts as [|a acts IH]; intros w; simpl.
    - split; [reflexivity | trivial].
    - destruct (IH (step w a)) as [T R]. rewrite step_total_pages in *.
      split; [exact T|]. intros H. apply R. now apply step_page_range. }
  destruct (G actions (load_pdf n v)) as [T R]. simpl in *.
  split; [exact T|]. split; [apply R; lia|].
  intros w Hw. unfold next_page.
  replace (current_page w <? total_pages w - 1)%Z with true
    by (symmetry; apply Z.ltb_lt; lia).
  unfold prev_page. simpl.
  replace (0 <? current_page w + 1)%Z with true
    by (symmetry; apply Z.ltb_lt; lia).
  destruct w as [c t z]. simpl. f_equal. lia.
Qed.

Lemma step_zoom_ok (v : View) (a : Action) : zoom_ok v -> zoom_ok (step v a).
Proof.
  unfold zoom_ok. intros [L U].
  destruct a; simpl; unfold prev_page, next_page, zoom_in, zoom_out.
  - destruct (_ <? _)%Z; simpl; now split.
  - destruct (_ <? _)%Z; simpl; now split.
  - destruct (Qlt_bool (zoom v) 3) eqn:E; simpl; [|now split].
    apply Qlt_bool_true in E. split; lra.
  - destruct (Qlt_bool (4 # 10) (zoom v)) eqn:E; simpl; [|now split].
    apply Qlt_bool_true in E. split; lra.
Qed.

(** X22. The zoom stays strictly between 0.2 and 3.2 under any sequence
    of buttons once it lies there, as it does initially (1.2) and after
    loading a document; in particular it stays positive, so the division
    by the zoom that converts canvas to page coordinates is defined. *)
Theorem X22_zoom_stays_in_range (actions : list Action) (v : View) :
  zoom_ok v ->
  zoom_ok (run actions v)
  /\ 0 < zoom (run actions v)
  /\ zoom_ok initial_view
  /\ (forall n, zoom_ok (load_pdf n v)).
Proof.
  intros H.
  assert (G : zoom_ok (run actions v)).
  { unfold run. revert v H. induction actions as [|a actions IH];
      intros v H; simpl; [assumption|].
    apply IH. now apply step_zoom_ok. }
  split; [exact G|]. split; [destruct G; lra|].
  split; [split; reflexivity|].
  intros n. exact H.
Qed.

Lemma X22_witness :
  zoom_ok (run [ZoomIn; ZoomIn; ZoomIn; ZoomIn; ZoomIn; ZoomIn; ZoomIn;
                ZoomIn; ZoomIn; ZoomIn; ZoomIn; ZoomIn; NextPage]
               (load_pdf 3 initial_view))
  /\ zoom (run [ZoomIn; ZoomIn; ZoomIn; ZoomIn; ZoomIn; ZoomIn; ZoomIn;
                ZoomIn; ZoomIn; ZoomIn; ZoomIn; ZoomIn; NextPage]
               (load_pdf 3 initial_view)) == 3.
Proof.
  split; [|reflexivity].
  refine (proj1 (X22_zoom_stays_in_range _ (load_pdf 3 initial_view) _)).
  split; reflexivity.
Defined.


(** ** Hit analysis *)

Section HitProofs.

Variable finditer : str -> str -> Z -> option (list RegexMatch).

(** Keys are distinct, the running total is the sum of the entries'
    totals, and every entry is consistent. *)
Definition hits_inv (n : nat) (st : HitDetails * nat) : Prop :=
  NoDup (map fst (fst st))
  /\ snd st = list_sum (map (fun kv => hd_total (snd kv)) (fst st))
  /\ Forall (fun kv => detail_ok n (snd kv)) (fst st).

Lemma has_key_In (label : str) (d : HitDetails) :
  has_key label d = true <-> In label (map fst d).
Proof.
  unfold has_key. rewrite existsb_exists. split.
  - intros (kv & Hin & E). apply eqb_eq in E. subst. now apply in_map.
  - intros H. apply in_map_iff in H. destruct H as (kv & <- & Hin).
    exists kv. split; [assumption | apply eqb_refl].
Qed.

Lemma ensure_key_inv (n : nat) (label : str) (d : HitDetails) (total : nat) :
  hits_inv n (d, total) ->
  hits_inv n (ensure_key label d, total)
  /\ has_key label (ensure_key label d) = true.
Proof.
  intros (Hk & Ht & Hd). unfold ensure_key.
  destruct (has_key label d) eqn:E.
  - split; [repeat split; assumption | assumption].
  - split.
    + unfold hits_inv. simpl in *. rewrite !map_app. simpl.
      split; [|split].
      * apply NoDup_app; [assumption | repeat constructor; intros [] |].
        intros k Hin [<-|[]]. apply has_key_In in Hin. congruence.
      * rewrite list_sum_app. simpl. lia.
      * apply Forall_app. split; [assumption|].
        constructor; [|constructor]. split; [reflexivity | constructor].
    + apply has_key_In. rewrite map_app. apply in_or_app. right. now left.
Qed.

Lemma record_hits_inv (n : nat) (label : str) (pg h : nat) (d : HitDetails) :
  (0 < h)%nat -> (1 <= pg <= n)%nat ->
  has_key label d = true ->
  Forall (fun kv => detail_ok n (snd kv)) d ->
  map fst (record_hits label pg h d) = map fst d
  /\ list_sum (map (fun kv => hd_total (snd kv)) (record_hits label pg h d))
     = (list_sum (map (fun kv => hd_total (snd kv)) d) + h)%nat
  /\ Forall (fun kv => detail_ok n (snd kv)) (record_hits label pg h d).
Proof.
  intros Hh Hpg. induction d as [|[k v] rest IH]; intros Hk Hd.
  - discriminate.
  - inversion Hd as [|? ? Hv Hrest]; subst. simpl.
    destruct (eqb k label) eqn:E.
    + simpl. split; [reflexivity|]. split; [lia|].
      constructor; [|assumption].
      destruct Hv as [Hsum Hpages]. simpl in *. split; simpl.
      * rewrite map_app, list_sum_app. simpl. lia.
      * apply Forall_snoc; [assumption|]. simpl. lia.
    + assert (Hk' : has_key label rest = true).
      { unfold has_key in *. simpl in Hk. now rewrite E in Hk. }
      destruct (IH Hk' Hrest) as (A & B & C). simpl.
      split; [now rewrite A|]. split; [lia|].
      constructor; assumption.
Qed.

Lemma hit_step_inv (n page_num : nat) (page : Page) (st : HitDetails * nat)
      (pattern : Pattern) :
  (page_num + 1 <= n)%nat ->
  hits_inv n st ->
  hits_inv n (hit_step finditer page_num page st pattern)
  /\ snd (hit_step finditer page_num page st pattern)
     = (snd st
        + length (Resolver.find_ultra_precise_matches str finditer page
                    (p_regex pattern)))%nat.
Proof.
  intros Hn Hinv. destruct st as [d total]. unfold hit_step. cbn [fst snd].
  destruct (ensure_key_inv n (p_label pattern) d total Hinv)
    as [(Hk & Ht & Hd) Hhas].
  cbn [fst snd] in *.
  destruct (Nat.ltb_spec 0
              (length (Resolver.find_ultra_precise_matches str finditer page
                         (p_regex pattern)))) as [Hpos|Hzero].
  - destruct (record_hits_inv n (p_label pattern) (page_num + 1) _ _ Hpos
                ltac:(lia) Hhas Hd) as (A & B & C).
    split; [|reflexivity]. unfold hits_inv. cbn [fst snd].
    rewrite A, B. repeat split; try assumption. lia.
  - split; [repeat split; assumption|]. cbn [snd]. lia.
Qed.

Lemma pattern_fold_inv (n page_num : nat) (page : Page)
      (patterns : list Pattern) :
  (page_num + 1 <= n)%nat ->
  forall st,
    hits_inv n st ->
    hits_inv n (fold_left (hit_step finditer page_num page) patterns st)
    /\ snd (fold_left (hit_step finditer page_num page) patterns st)
       = (snd st
          + list_sum
              (map (fun pattern =>
                      length (Resolver.find_ultra_precise_matches str
                                finditer page (p_regex pattern)))
                   patterns))%nat.
Proof.
  intros Hn. induction patterns as [|p patterns IH]; intros st Hinv; simpl.
  - split; [assumption | lia].
  - destruct (hit_step_inv n page_num page st p Hn Hinv) as [H1 H2].
    destruct (IH _ H1) as [H3 H4]. split; [assumption|]. rewrite H4, H2. lia.
Qed.

Lemma page_loop_inv (n : nat) (patterns : list Pattern) (doc : list Page) :
  forall page_num st,
    (page_num + length doc <= n)%nat ->
    hits_inv n st ->
    hits_inv n (page_loop finditer page_num doc patterns st)
    /\ snd (page_loop finditer page_num doc patterns st)
       = (snd st + all_hits finditer doc patterns)%nat.
Proof.
  unfold all_hits.
  induction doc as [|page doc IH]; intros page_num st Hn Hinv; simpl.
  - split; [assumption | lia].
  - simpl in Hn.
    destruct (pattern_fold_inv n page_num page patterns ltac:(lia) st Hinv)
      as [H1 H2].
    destruct (IH (S page_num) _ ltac:(lia) H1) as [H3 H4].
    split; [assumption|]. rewrite H4, H2. lia.
Qed.

(** X23. The hit table is consistent with the total: after
    [analyze_hits], [total_hits] is the number of matches of every
    pattern on every page and also the sum of the labels' totals; the
    labels are distinct; each label's total is the sum of the hits of its
    page entries, and every page entry has at least one hit and a page
    number within [1 .. len(doc)]. *)
Theorem X23_hit_totals_are_consistent
        (doc : list Page) (patterns : list Pattern)
        (hit_details : HitDetails) (total_hits : nat) :
  analyze_hits finditer doc patterns = Some (hit_details, total_hits) ->
  total_hits = all_hits finditer doc patterns
  /\ total_hits = list_sum (map (fun kv => hd_total (snd kv)) hit_details)
  /\ NoDup (map fst hit_details)
  /\ Forall (fun kv => detail_ok (length doc) (snd kv)) hit_details.
Proof.
  unfold analyze_hits. destruct patterns as [|p ps]; [discriminate|].
  intros H. inversion H as [E]; clear H.
  destruct (page_loop_inv (length doc) (p :: ps) doc 0 ([], O)) as [Hinv Hs].
  - simpl. lia.
  - repeat split; constructor.
  - rewrite E in *. destruct Hinv as (Hk & Ht & Hd). cbn [fst snd] in *.
    repeat split; assumption.
Qed.

End HitProofs.

Lemma X23_witness :
  21%nat = all_hits literal_engine [date_page; hello_page; date_page]
             date_and_hello_patterns
  /\ analyze_hits literal_engine [date_page; hello_page; date_page]
       date_and_hello_patterns
     = Some ([ (of_string "date",
                mkHitDetail 20 [ mkPageHits 1 9; mkPageHits 1 1;
                                 mkPageHits 3 9; mkPageHits 3 1 ]);
               (of_string "greeting", mkHitDetail 1 [mkPageHits 2 1]) ],
             21%nat).
Proof.
  split; [|reflexivity].
  exact (proj1 (X23_hit_totals_are_consistent literal_engine
                  [date_page; hello_page; date_page] date_and_hello_patterns
                  _ 21 eq_refl)).
Defined.
